(** * go-merkletree: a shallow embedding of [merkle_tree.go]

    The Go package builds a binary Merkle tree over a slice of data blocks,
    either streaming the levels through one rolling buffer while recording
    every leaf's proof ([proofGen]), or retaining every level ([treeBuild])
    and answering proof queries on demand ([Proof]).  This file embeds the
    functions of [merkle_tree.go] one by one and proves the properties the
    specification states about them.

    Conventions of the embedding
    - [[]byte] is [list byte]; a slice of digests is [list bytes].  The
      digests stored in a buffer are never written through (slots are
      replaced as a whole), so they are values.
    - Go's [int] indices and lengths are [nat] (they are bounded by slice
      lengths, far below 2^63); the [uint32] field [Path] is an [N] with the
      wrap-around modulo 2^32 written out.
    - A method on [*MerkleTree] is a state transformer on the record; an
      [err != nil] return keeps the state reached so far ([Fail]), a run-time
      panic (index out of range, nil dereference) is [Panic]. *)

From Stdlib Require Import ZArith NArith Strings.Byte String Lia ZifyNat Zify.
From stdpp Require Import base decidable countable list gmap.

(** [lia] handles division and remainder by constants. *)
Ltac Zify.zify_post_hook ::= Z.to_euclidean_division_equations.

Set Default Proof Using "Type".
Local Open Scope nat_scope.

#[global] Arguments Nat.mul : simpl never.
#[global] Arguments Nat.div : simpl never.
#[global] Arguments Nat.modulo : simpl never.
#[global] Arguments Nat.pow : simpl never.
#[global] Arguments Nat.shiftl : simpl never.
#[global] Arguments Nat.shiftr : simpl never.
#[global] Arguments Nat.land : simpl never.
#[global] Arguments N.modulo : simpl never.
#[global] Arguments N.pow : simpl never.
#[global] Arguments N.shiftl : simpl never.
#[global] Arguments N.shiftr : simpl never.
#[global] Arguments N.land : simpl never.

(** ** Bytes and errors *)

Definition bytes : Type := list byte.

#[global] Instance byte_eq_dec : EqDecision byte := Byte.byte_eq_dec.

#[global] Program Instance byte_countable : Countable byte :=
  inj_countable Byte.to_N Byte.of_N _.
Next Obligation. intros b. apply Byte.of_to_N. Qed.

(** [bytes.Compare]: lexicographic order on byte strings. *)
Fixpoint bytes_Compare (a b : bytes) : comparison :=
  match a, b with
  | [], [] => Eq
  | [], _ :: _ => Lt
  | _ :: _, [] => Gt
  | x :: a', y :: b' =>
      match N.compare (Byte.to_N x) (Byte.to_N y) with
      | Eq => bytes_Compare a' b'
      | c => c
      end
  end.

(** [bytes.Equal]. *)
Definition bytes_Equal (a b : bytes) : bool := bool_decide (a = b).

(** The error messages of the package. *)
Definition ErrInvalidNumOfDataBlocks : string :=
  "the number of data blocks must be greater than 1".
Definition ErrInvalidConfigMode : string := "invalid configuration mode".
Definition ErrProofIsNil : string := "proof is nil".
Definition ErrDataBlockIsNil : string := "data block is nil".
Definition ErrProofInvalidModeTreeNotBuilt : string :=
  "merkle tree is not in built, could not generate proof by this method".
Definition ErrProofInvalidDataBlock : string :=
  "data block is not a member of the merkle tree".

(** An [error] value is kept with its provenance: built by this package with
    [errors.New], or handed back by the caller's [Serialize] or [HashFunc]. *)
Inductive error : Type :=
| errors_New (msg : string)
| SerializeError (e : string)
| HashError (e : string).

#[global] Instance error_eq_dec : EqDecision error.
Proof. solve_decision. Defined.

(** ** Outcomes of stateful, fallible code *)

Inductive outcome (S A : Type) : Type :=
| Ret (a : A) (s : S)
| Fail (e : error) (s : S)
| Panic.
Arguments Ret {S A} a s.
Arguments Fail {S A} e s.
Arguments Panic {S A}.

Definition M (S A : Type) : Type := S -> outcome S A.

Definition ret {S A} (a : A) : M S A := fun s => Ret a s.
Definition bind {S A B} (c : M S A) (k : A -> M S B) : M S B :=
  fun s => match c s with
           | Ret a s' => k a s'
           | Fail e s' => Fail e s'
           | Panic => Panic
           end.
Definition fail {S A} (e : error) : M S A := fun s => Fail e s.
Definition panic {S A} : M S A := fun _ => Panic.
Definition get {S} : M S S := fun s => Ret s s.
Definition put {S} (s : S) : M S unit := fun _ => Ret tt s.
Definition modify {S} (f : S -> S) : M S unit := fun s => Ret tt (f s).

Declare Scope go_scope.
Delimit Scope go_scope with go.
Notation "x <- c ;; k" := (bind c (fun x => k))
  (at level 100, c at next level, right associativity) : go_scope.
Notation "'let*' pat <- c ;; k" :=
  (bind c (fun x => match x with pat => k end))
  (at level 100, pat pattern, c at next level, right associativity) : go_scope.
Notation "c ;;; k" := (bind c (fun _ => k))
  (at level 100, right associativity) : go_scope.
Local Open Scope go_scope.

Notation "x << n" := (Nat.shiftl x n) (at level 35) : go_scope.
Notation "x >> n" := (Nat.shiftr x n) (at level 35) : go_scope.

(** [for _, i := range idxs { a = body(i, a) }], leaving at the first error;
    [a] stands for the variables the loop body assigns. *)
Fixpoint for_each {S A I} (idxs : list I) (body : I -> A -> M S A) (a : A)
  : M S A :=
  match idxs with
  | [] => ret a
  | i :: rest => a' <- body i a ;; for_each rest body a'
  end.

(** A loop whose body only acts on the state. *)
Definition for_ {S I} (idxs : list I) (body : I -> M S unit) : M S unit :=
  for_each idxs (fun i _ => body i) tt.

(** The indices visited by [for i := start; i < stop; i += step]. *)
Fixpoint strided_from (fuel start stop step : nat) : list nat :=
  match fuel with
  | 0 => []
  | S fuel' =>
      if decide (start < stop)
      then start :: strided_from fuel' (start + step) stop step
      else []
  end.
Definition strided (start stop step : nat) : list nat :=
  strided_from stop start stop step.

(** Slice indexing [buf[i]] and assignment [buf[i] = x]; both panic out of
    range. *)
Definition index {S A} (buf : list A) (i : nat) : M S A :=
  match buf !! i with
  | Some x => ret x
  | None => panic
  end.
Definition store {S A} (buf : list A) (i : nat) (x : A) : M S (list A) :=
  if decide (i < length buf) then ret (<[i := x]> buf) else panic.

(** [make([]T, n)]: [n] zero values. *)
Definition make {A} (zero : A) (n : nat) : list A := replicate n zero.
Definition copy {A} (dst src : list A) : list A :=
  take (length dst) src ++ drop (length src) dst.

(** [uint32] arithmetic: values are reduced modulo 2^32, and a shift by 32
    or more gives 0. *)
Definition uint32 (x : N) : N := (x mod 2 ^ 32)%N.
Definition shl32 (x : N) (n : nat) : N := uint32 (N.shiftl x (N.of_nat n)).
Definition add32 (x y : N) : N := uint32 (x + y).

(** [bits.Len(uint(x))]: the number of bits needed to write [x]. *)
Definition bits_Len (x : nat) : nat := N.size_nat (N.of_nat x).

(** Go's [min] on [int]. *)
Definition min (a b : nat) : nat := if decide (a < b) then a else b.

(** ** Data model *)

(** A digest function returns a digest or an error; the byte slice Go
    returns next to a non-nil error is not represented. *)
Definition TypeHashFunc : Type := bytes -> string + bytes.
Definition TypeConfigMode : Type := Z.
Definition ModeProofGen : TypeConfigMode := 0%Z.
Definition ModeTreeBuild : TypeConfigMode := 1%Z.
Definition ModeProofGenAndTreeBuild : TypeConfigMode := 2%Z.

Record Config : Type := mkConfig {
  concatFunc : option (bytes -> bytes -> bytes);
  HashFunc : option TypeHashFunc;
  NumRoutines : Z;
  Mode : TypeConfigMode;
  RunInParallel : bool;
  SortSiblingPairs : bool;
  DisableLeafHashing : bool
}.

(** [new(Config)]. *)
Definition new_Config : Config :=
  mkConfig None None 0%Z 0%Z false false false.

Definition set_concatFunc (v : option (bytes -> bytes -> bytes)) (c : Config) :=
  mkConfig v (HashFunc c) (NumRoutines c) (Mode c) (RunInParallel c)
    (SortSiblingPairs c) (DisableLeafHashing c).
Definition set_HashFunc (v : option TypeHashFunc) (c : Config) :=
  mkConfig (concatFunc c) v (NumRoutines c) (Mode c) (RunInParallel c)
    (SortSiblingPairs c) (DisableLeafHashing c).
Definition set_NumRoutines (v : Z) (c : Config) :=
  mkConfig (concatFunc c) (HashFunc c) v (Mode c) (RunInParallel c)
    (SortSiblingPairs c) (DisableLeafHashing c).
Definition set_Mode (v : TypeConfigMode) (c : Config) :=
  mkConfig (concatFunc c) (HashFunc c) (NumRoutines c) v (RunInParallel c)
    (SortSiblingPairs c) (DisableLeafHashing c).
Definition set_RunInParallel (v : bool) (c : Config) :=
  mkConfig (concatFunc c) (HashFunc c) (NumRoutines c) (Mode c) v
    (SortSiblingPairs c) (DisableLeafHashing c).

Record Proof : Type := mkProof {
  Siblings : list bytes;
  Path : N
}.

#[global] Instance Proof_eq_dec : EqDecision Proof.
Proof. solve_decision. Defined.

(** [MerkleTree].  The embedded [Config] is the field [cfg]; the worker pool
    [wp] and the mutex are part of the execution substrate and have no
    field here. *)
Record MerkleTree : Type := mkMerkleTree {
  cfg : Config;
  leafMap : gmap bytes nat;
  nodes : list (list bytes);
  Root : bytes;
  Leaves : list bytes;
  Proofs : list Proof;
  Depth : nat;
  NumLeaves : nat
}.

Definition set_cfg (v : Config) (m : MerkleTree) :=
  mkMerkleTree v (leafMap m) (nodes m) (Root m) (Leaves m) (Proofs m)
    (Depth m) (NumLeaves m).
Definition set_leafMap (v : gmap bytes nat) (m : MerkleTree) :=
  mkMerkleTree (cfg m) v (nodes m) (Root m) (Leaves m) (Proofs m)
    (Depth m) (NumLeaves m).
Definition set_nodes (v : list (list bytes)) (m : MerkleTree) :=
  mkMerkleTree (cfg m) (leafMap m) v (Root m) (Leaves m) (Proofs m)
    (Depth m) (NumLeaves m).
Definition set_Root (v : bytes) (m : MerkleTree) :=
  mkMerkleTree (cfg m) (leafMap m) (nodes m) v (Leaves m) (Proofs m)
    (Depth m) (NumLeaves m).
Definition set_Leaves (v : list bytes) (m : MerkleTree) :=
  mkMerkleTree (cfg m) (leafMap m) (nodes m) (Root m) v (Proofs m)
    (Depth m) (NumLeaves m).
Definition set_Proofs (v : list Proof) (m : MerkleTree) :=
  mkMerkleTree (cfg m) (leafMap m) (nodes m) (Root m) (Leaves m) v
    (Depth m) (NumLeaves m).

(** What a call of a function that returns [(T, error)] hands back. *)
Inductive returned (A : Type) : Type :=
| Returned (a : A)
| Panicked.
Arguments Returned {A} a.
Arguments Panicked {A}.

(** The [DataBlock] interface. *)
Class DataBlock (B : Type) : Type :=
  Serialize : B -> string + bytes.

(** ** Hashing and concatenation policy *)

Definition concatHash (b1 b2 : bytes) : bytes := b1 ++ b2.

Definition concatSortHash (b1 b2 : bytes) : bytes :=
  match bytes_Compare b1 b2 with
  | Lt => concatHash b1 b2
  | _ => concatHash b2 b1
  end.

(** A call [config.HashFunc(x)]; calling a nil function value panics. *)
Definition call_HashFunc {S} (config : Config) (x : bytes) : M S bytes :=
  match HashFunc config with
  | None => panic
  | Some h => match h x with
              | inl e => fail (HashError e)
              | inr d => ret d
              end
  end.

(** [config.HashFunc(config.concatFunc(b1, b2))]. *)
Definition hashPair {S} (config : Config) (b1 b2 : bytes) : M S bytes :=
  match concatFunc config with
  | None => panic
  | Some c => call_HashFunc config (c b1 b2)
  end.

(** ** The functions of [merkle_tree.go] *)

Section MerkleTree.

Context {B : Type} `{!DataBlock B}.

(** [DefaultHashFunc] and [DefaultHashFuncParallel] are defined in another
    file of the package and [runtime.NumCPU] by the Go runtime: they are
    parameters here.  [runtime.NumCPU()] is at least 1. *)
Context (DefaultHashFunc DefaultHashFuncParallel : TypeHashFunc).
Context (runtime_NumCPU : positive).

(** The argument record of the pool handlers.  Its reference fields ([mt],
    [byteField1], [byteField2]) point to objects that all workers of one
    [Map] call share: they form the shared store [poolShared] the handlers
    run on, and the record keeps the fields passed by value. *)
Record poolWorkerArgs : Type := mkArgs {
  dataBlockField : list (option B);
  intField1 : nat;
  intField2 : nat;
  intField3 : nat;
  intField4 : nat;
  intField5 : nat
}.

Record poolShared : Type := mkShared {
  mt : MerkleTree;
  byteField1 : list bytes;
  byteField2 : list bytes
}.

Definition set_mt (v : MerkleTree) (sh : poolShared) :=
  mkShared v (byteField1 sh) (byteField2 sh).
Definition set_byteField1 (v : list bytes) (sh : poolShared) :=
  mkShared (mt sh) v (byteField2 sh).
Definition set_byteField2 (v : list bytes) (sh : poolShared) :=
  mkShared (mt sh) (byteField1 sh) v.

(** [wp.Map(handler, argList)]: every task is executed and the results come
    back in submission order.  The tasks of one call write disjoint slots
    of the shared buffers (lemma [worker_indices_partition] below), so they
    are run one after the other, in submission order. *)
Fixpoint pool_Map {S A} (handler : A -> M S unit) (argList : list A)
  : M S (list (option error)) :=
  match argList with
  | [] => ret []
  | arg :: rest => fun s =>
      match handler arg s with
      | Ret _ s' => (errs <- pool_Map handler rest ;; ret (None :: errs)) s'
      | Fail e s' => (errs <- pool_Map handler rest ;; ret (Some e :: errs)) s'
      | Panic => Panic
      end
  end.

(** [for _, err = range errList { if err != nil { return } }]. *)
Fixpoint range_errList {S} (errList : list (option error)) : M S unit :=
  match errList with
  | [] => ret tt
  | None :: rest => range_errList rest
  | Some e :: _ => fail e
  end.

(** Runs pool tasks on the tree and two buffers, and hands the buffers
    back. *)
Definition in_pool {A} (buf1 buf2 : list bytes) (c : M poolShared A)
  : M MerkleTree (A * list bytes * list bytes) :=
  fun m => match c (mkShared m buf1 buf2) with
           | Ret a sh => Ret (a, byteField1 sh, byteField2 sh) (mt sh)
           | Fail e sh => Fail e (mt sh)
           | Panic => Panic
           end.

(** Runs a method of the tree from inside a pool task. *)
Definition on_mt {A} (c : M MerkleTree A) : M poolShared A :=
  fun sh => match c (mt sh) with
            | Ret a m => Ret a (set_mt m sh)
            | Fail e m => Fail e (set_mt m sh)
            | Panic => Panic
            end.

Definition leafFromBlock {S} (block : option B) (config : Config) : M S bytes :=
  match block with
  | None => panic
  | Some b =>
      match Serialize b with
      | inl e => fail (SerializeError e)
      | inr blockBytes =>
          if DisableLeafHashing config
          then ret (copy (make Byte.x00 (length blockBytes)) blockBytes)
          else call_HashFunc config blockBytes
      end
  end.

Definition leafGen (blocks : list (option B)) : M MerkleTree (list bytes) :=
  m <- get ;;
  for_each (seq 0 (NumLeaves m)) (fun i leaves =>
      block <- index blocks i ;;
      leaf <- leafFromBlock block (cfg m) ;;
      store leaves i leaf)
    (make [] (NumLeaves m)).

Definition leafGenHandler (arg : poolWorkerArgs) : M poolShared unit :=
  let blocks := dataBlockField arg in
  let start := intField1 arg in
  let lenLeaves := intField2 arg in
  let numRoutines := intField3 arg in
  for_ (strided start lenLeaves numRoutines) (fun i =>
      sh <- get ;;
      block <- index blocks i ;;
      leaf <- leafFromBlock block (cfg (mt sh)) ;;
      leaves <- store (byteField1 sh) i leaf ;;
      put (set_byteField1 leaves sh)).

Definition leafGenParallel (blocks : list (option B))
  : M MerkleTree (list bytes) :=
  m <- get ;;
  let lenLeaves := length blocks in
  let leaves := make [] lenLeaves in
  let numRoutines := Z.to_nat (NumRoutines (cfg m)) in
  let numRoutines :=
    if decide (lenLeaves < numRoutines) then lenLeaves else numRoutines in
  let argList :=
    (fun i => mkArgs blocks i lenLeaves numRoutines 0 0) <$> seq 0 numRoutines in
  let* (errList, leaves, _) <- in_pool leaves [] (pool_Map leafGenHandler argList) ;;
  range_errList errList ;;;
  ret leaves.

Definition fixOdd {S} (buf : list bytes) (prevLen : nat)
  : M S (list bytes * nat) :=
  if decide (Nat.land prevLen 1 = 0) then ret (buf, prevLen)
  else
    appendNode <- index buf (prevLen - 1) ;;
    let prevLen := prevLen + 1 in
    if decide (length buf < prevLen)
    then ret (buf ++ [appendNode], prevLen)
    else buf <- store buf (prevLen - 1) appendNode ;; ret (buf, prevLen).

Definition initProofs : M MerkleTree unit :=
  m <- get ;;
  put (set_Proofs (make (mkProof [] 0) (NumLeaves m)) m) ;;;
  for_ (seq 0 (NumLeaves m)) (fun i =>
      m <- get ;;
      proofs <- store (Proofs m) i (mkProof [] 0) ;;
      put (set_Proofs proofs m)).

Definition updatePairProofs (buf : list bytes) (idx batch step : nat)
  : M MerkleTree unit :=
  m <- get ;;
  let start := idx * batch in
  let end_ := min (start + batch) (length (Proofs m)) in
  for_ (seq start (end_ - start)) (fun i =>
      m <- get ;;
      p <- index (Proofs m) i ;;
      let p := mkProof (Siblings p) (add32 (Path p) (shl32 1 step)) in
      sib <- index buf (idx + 1) ;;
      proofs <- store (Proofs m) i (mkProof (Siblings p ++ [sib]) (Path p)) ;;
      put (set_Proofs proofs m)) ;;;
  let start := start + batch in
  let end_ := min (start + batch) (length (Proofs m)) in
  for_ (seq start (end_ - start)) (fun i =>
      m <- get ;;
      p <- index (Proofs m) i ;;
      sib <- index buf idx ;;
      proofs <- store (Proofs m) i (mkProof (Siblings p ++ [sib]) (Path p)) ;;
      put (set_Proofs proofs m)).

Definition updateProofs (buf : list bytes) (bufLen step : nat)
  : M MerkleTree unit :=
  let batch := 1 << step in
  for_ (strided 0 bufLen 2) (fun i => updatePairProofs buf i batch step).

Definition updateProofHandler (arg : poolWorkerArgs) : M poolShared unit :=
  let start := intField1 arg in
  let batch := intField2 arg in
  let step := intField3 arg in
  let bufLen := intField4 arg in
  let numRoutines := intField5 arg in
  for_ (strided start bufLen (numRoutines << 1)) (fun i =>
      sh <- get ;;
      on_mt (updatePairProofs (byteField1 sh) i batch step)).

Definition updateProofsParallel (buf : list bytes) (bufLen step : nat)
  : M MerkleTree unit :=
  m <- get ;;
  let batch := 1 << step in
  let numRoutines := Z.to_nat (NumRoutines (cfg m)) in
  let numRoutines :=
    if decide (bufLen < numRoutines) then bufLen else numRoutines in
  let argList :=
    (fun i => mkArgs [] (i << 1) batch step bufLen numRoutines)
      <$> seq 0 numRoutines in
  _ <- in_pool buf [] (pool_Map updateProofHandler argList) ;;
  ret tt.

Definition proofGenHandler (arg : poolWorkerArgs) : M poolShared unit :=
  let start := intField1 arg in
  let prevLen := intField2 arg in
  let numRoutines := intField3 arg in
  for_ (strided start prevLen (numRoutines << 1)) (fun i =>
      sh <- get ;;
      l <- index (byteField1 sh) i ;;
      r <- index (byteField1 sh) (i + 1) ;;
      newHash <- hashPair (cfg (mt sh)) l r ;;
      buf2 <- store (byteField2 sh) (i >> 1) newHash ;;
      put (set_byteField2 buf2 sh)).

(** [m.Root, err = m.HashFunc(m.concatFunc(buf[0], buf[1]))]. *)
Definition setRoot (buf : list bytes) : M MerkleTree unit :=
  m <- get ;;
  l <- index buf 0 ;;
  r <- index buf 1 ;;
  root <- hashPair (cfg m) l r ;;
  put (set_Root root m).

Definition proofGenParallel (buf : list bytes) (prevLen : nat)
  : M MerkleTree unit :=
  m <- get ;;
  let buff := make [] (prevLen >> 1) in
  updateProofsParallel buf (NumLeaves m) 0 ;;;
  let numRoutines := Z.to_nat (NumRoutines (cfg m)) in
  let* (buf, _, _, _) <-
    for_each (seq 1 (Depth m - 1))
      (fun step '(buf, buff, prevLen, numRoutines) =>
         let numRoutines :=
           if decide (prevLen < numRoutines) then prevLen else numRoutines in
         let argList :=
           (fun i => mkArgs [] (i << 1) prevLen numRoutines 0 0)
             <$> seq 0 numRoutines in
         let* (errList, buf, buff) <-
           in_pool buf buff (pool_Map proofGenHandler argList) ;;
         range_errList errList ;;;
         let '(buf, buff) := (buff, buf) in
         let prevLen := prevLen >> 1 in
         let* (buf, prevLen) <- fixOdd buf prevLen ;;
         updateProofsParallel buf prevLen step ;;;
         ret (buf, buff, prevLen, numRoutines))
      (buf, buff, prevLen, numRoutines) ;;
  setRoot buf.

Definition proofGen : M MerkleTree unit :=
  initProofs ;;;
  m <- get ;;
  let buf := make [] (NumLeaves m) in
  let buf := copy buf (Leaves m) in
  let* (buf, prevLen) <- fixOdd buf (NumLeaves m) ;;
  if RunInParallel (cfg m) then proofGenParallel buf prevLen
  else
    updateProofs buf (NumLeaves m) 0 ;;;
    let* (buf, _) <-
      for_each (seq 1 (Depth m - 1))
        (fun step '(buf, prevLen) =>
           buf <- for_each (strided 0 prevLen 2) (fun idx buf =>
                    l <- index buf idx ;;
                    r <- index buf (idx + 1) ;;
                    h <- hashPair (cfg m) l r ;;
                    store buf (idx >> 1) h) buf ;;
           let prevLen := prevLen >> 1 in
           let* (buf, prevLen) <- fixOdd buf prevLen ;;
           updateProofs buf prevLen step ;;;
           ret (buf, prevLen))
        (buf, prevLen) ;;
    setRoot buf.

(** [m.nodes[i][j]], [m.nodes[i][j] = x] and [m.nodes[i] = level]. *)
Definition node (i j : nat) : M MerkleTree bytes :=
  m <- get ;;
  level <- index (nodes m) i ;;
  index level j.

Definition set_level (i : nat) (level : list bytes) : M MerkleTree unit :=
  m <- get ;;
  ns <- store (nodes m) i level ;;
  put (set_nodes ns m).

Definition set_node (i j : nat) (x : bytes) : M MerkleTree unit :=
  m <- get ;;
  level <- index (nodes m) i ;;
  level <- store level j x ;;
  set_level i level.

(** [m.nodes[i], prevLen = m.fixOdd(m.nodes[i], len(m.nodes[i]))]. *)
Definition fixOdd_level (i : nat) : M MerkleTree nat :=
  m <- get ;;
  level <- index (nodes m) i ;;
  let* (level, prevLen) <- fixOdd level (length level) ;;
  set_level i level ;;;
  ret prevLen.

Definition treeBuildHandler (arg : poolWorkerArgs) : M poolShared unit :=
  let start := intField1 arg in
  let prevLen := intField2 arg in
  let numRoutines := intField3 arg in
  let depth := intField4 arg in
  for_ (strided start prevLen (numRoutines << 1)) (fun i =>
      on_mt (m <- get ;;
             l <- node depth i ;;
             r <- node depth (i + 1) ;;
             newHash <- hashPair (cfg m) l r ;;
             set_node (depth + 1) (i >> 1) newHash)).

Definition computeTreeNodeParallel (prevLen : nat) : M MerkleTree unit :=
  m <- get ;;
  _ <- for_each (seq 0 (Depth m - 1)) (fun i prevLen =>
         set_level (i + 1) (make [] (prevLen >> 1)) ;;;
         let numRoutines := Z.to_nat (NumRoutines (cfg m)) in
         let numRoutines :=
           if decide (prevLen < numRoutines) then prevLen else numRoutines in
         let argList :=
           (fun j => mkArgs [] (j << 1) prevLen
                       (Z.to_nat (NumRoutines (cfg m))) i 0)
             <$> seq 0 numRoutines in
         let* (errList, _, _) <-
           in_pool [] [] (pool_Map treeBuildHandler argList) ;;
         range_errList errList ;;;
         fixOdd_level (i + 1))
       prevLen ;;
  ret tt.

(** [treeBuild].  The goroutine that fills [leafMap] only reads [m.Leaves]
    and only writes [m.leafMap], which nothing else touches before the
    join: it is run first. *)
Definition treeBuild : M MerkleTree unit :=
  m <- get ;;
  for_ (seq 0 (NumLeaves m)) (fun i =>
      m <- get ;;
      leaf <- index (Leaves m) i ;;
      put (set_leafMap (<[leaf := i]> (leafMap m)) m)) ;;;
  modify (set_nodes (make [] (Depth m))) ;;;
  set_level 0 (make [] (NumLeaves m)) ;;;
  set_level 0 (copy (make [] (NumLeaves m)) (Leaves m)) ;;;
  level <- (m <- get ;; index (nodes m) 0) ;;
  let* (level, prevLen) <- fixOdd level (NumLeaves m) ;;
  set_level 0 level ;;;
  (if RunInParallel (cfg m) then computeTreeNodeParallel prevLen else ret tt) ;;;
  _ <- for_each (seq 0 (Depth m - 1)) (fun i prevLen =>
         set_level (i + 1) (make [] (prevLen >> 1)) ;;;
         for_ (strided 0 prevLen 2) (fun j =>
             l <- node i j ;;
             r <- node i (j + 1) ;;
             h <- hashPair (cfg m) l r ;;
             set_node (i + 1) (j >> 1) h) ;;;
         fixOdd_level (i + 1))
       prevLen ;;
  level <- (m <- get ;; index (nodes m) (Depth m - 1)) ;;
  setRoot level.

(** [Verify].  The state is the record the caller's [config] pointer refers
    to ([None] for a nil pointer).  Every error return of the source is
    [return false, err]: [Fail e] stands for the pair [(false, e)]. *)
Definition Verify_on (b : option B) (proof : Proof) (root : bytes)
  : M Config bool :=
  config <- get ;;
  (if HashFunc config is None
   then modify (set_HashFunc (Some DefaultHashFunc)) else ret tt) ;;;
  config <- get ;;
  (if concatFunc config is None
   then modify (set_concatFunc (Some concatHash)) else ret tt) ;;;
  config <- get ;;
  leaf <- leafFromBlock b config ;;
  let result := copy (make Byte.x00 (length leaf)) leaf in
  let path := Path proof in
  let* (result, _) <-
    for_each (Siblings proof) (fun sib '(result, path) =>
        result <- (if decide (N.land path 1 = 1%N)
                   then hashPair config result sib
                   else hashPair config sib result) ;;
        ret (result, N.shiftr path 1))
      (result, path) ;;
  ret (bytes_Equal result root).

Definition Verify (dataBlock : option B) (proof : option Proof) (root : bytes)
  : M (option Config) bool :=
  fun config =>
    match dataBlock with
    | None => Fail (errors_New ErrDataBlockIsNil) config
    | Some _ =>
        match proof with
        | None => Fail (errors_New ErrProofIsNil) config
        | Some proof =>
            match config with
            | None =>
                match Verify_on dataBlock proof root new_Config with
                | Ret ok _ => Ret ok None
                | Fail e _ => Fail e None
                | Panic => Panic
                end
            | Some c =>
                match Verify_on dataBlock proof root c with
                | Ret ok c' => Ret ok (Some c')
                | Fail e c' => Fail e (Some c')
                | Panic => Panic
                end
            end
        end
    end.

(** The method [(m *MerkleTree).Verify]: [Verify(dataBlock, proof, m.Root,
    &m.Config)]. *)
Definition MerkleTree_Verify (dataBlock : option B) (proof : option Proof)
  : M MerkleTree bool :=
  fun m =>
    match Verify dataBlock proof (Root m) (Some (cfg m)) with
    | Ret ok c => Ret ok (set_cfg (default (cfg m) c) m)
    | Fail e c => Fail e (set_cfg (default (cfg m) c) m)
    | Panic => Panic
    end.

(** The method [(m *MerkleTree).Proof]. *)
Definition MerkleTree_Proof (dataBlock : option B) : M MerkleTree Proof :=
  m <- get ;;
  if decide (Mode (cfg m) <> ModeTreeBuild
             /\ Mode (cfg m) <> ModeProofGenAndTreeBuild)
  then fail (errors_New ErrProofInvalidModeTreeNotBuilt)
  else
    leaf <- leafFromBlock dataBlock (cfg m) ;;
    match leafMap m !! leaf with
    | None => fail (errors_New ErrProofInvalidDataBlock)
    | Some idx =>
        let* (_, path, siblings) <-
          for_each (seq 0 (Depth m)) (fun i '(idx, path, siblings) =>
              if decide (Nat.land idx 1 = 1)
              then
                sib <- node i (idx - 1) ;;
                siblings <- store siblings i sib ;;
                ret (idx >> 1, path, siblings)
              else
                let path := add32 path (shl32 1 i) in
                sib <- node i (idx + 1) ;;
                siblings <- store siblings i sib ;;
                ret (idx >> 1, path, siblings))
            (idx, 0%N, make [] (Depth m)) ;;
        ret (mkProof siblings path)
    end.

(** What [New] returns when it leaves through its named results [(m, err)]
    after running [c] on the tree. *)
Definition named_results (c : M MerkleTree unit) (m : MerkleTree)
  : returned (option MerkleTree * option error) :=
  match c m with
  | Ret _ m' => Returned (Some m', None)
  | Fail e m' => Returned (Some m', Some e)
  | Panic => Panicked
  end.

Definition New (config : option Config) (blocks : list (option B))
  : returned (option MerkleTree * option error) :=
  if decide (length blocks <= 1)
  then Returned (None, Some (errors_New ErrInvalidNumOfDataBlocks))
  else
    let config := default new_Config config in
    let m := mkMerkleTree config ∅ [] [] [] []
               (bits_Len (length blocks - 1)) (length blocks) in
    let m :=
      if HashFunc (cfg m) is None
      then if RunInParallel (cfg m)
           then set_cfg (set_HashFunc (Some DefaultHashFuncParallel) (cfg m)) m
           else set_cfg (set_HashFunc (Some DefaultHashFunc) (cfg m)) m
      else m in
    let m :=
      if concatFunc (cfg m) is None
      then if SortSiblingPairs (cfg m)
           then set_cfg (set_concatFunc (Some concatSortHash) (cfg m)) m
           else set_cfg (set_concatFunc (Some concatHash) (cfg m)) m
      else m in
    let m :=
      if RunInParallel (cfg m)
      then if decide (NumRoutines (cfg m) <= 0)%Z
           then set_cfg (set_NumRoutines (Z.pos runtime_NumCPU) (cfg m)) m
           else m
      else m in
    match (if RunInParallel (cfg m)
           then leafGenParallel blocks else leafGen blocks) m with
    | Panic => Panicked
    | Fail e _ => Returned (None, Some e)
    | Ret leaves m =>
        let m := set_Leaves leaves m in
        let m :=
          if decide (Mode (cfg m) = 0%Z)
          then set_cfg (set_Mode ModeProofGen (cfg m)) m else m in
        if decide (Mode (cfg m) = ModeProofGen)
        then named_results proofGen m
        else
          let m := set_leafMap ∅ m in
          if decide (Mode (cfg m) = ModeTreeBuild)
          then named_results treeBuild m
          else if decide (Mode (cfg m) = ModeProofGenAndTreeBuild)
          then
            named_results
              (treeBuild ;;;
               initProofs ;;;
               m <- get ;;
               if RunInParallel (cfg m)
               then for_ (seq 0 (length (nodes m))) (fun i =>
                        level <- index (nodes m) i ;;
                        updateProofsParallel level (length level) i)
               else for_ (seq 0 (length (nodes m))) (fun i =>
                        level <- index (nodes m) i ;;
                        updateProofs level (length level) i))
              m
          else Returned (None, Some (errors_New ErrInvalidConfigMode))
    end.

End MerkleTree.

(** * What a construction computes

    The functions below describe, without buffers or loops, the values a
    successful construction holds: the leaf digests, the levels of the
    tree, the root and the proof of every leaf.  The theorems of the next
    part relate the code to them. *)

(** The value and state of a run that returned without error. *)
Definition succ {S A} (o : outcome S A) : option (A * S) :=
  match o with
  | Ret a s => Some (a, s)
  | _ => None
  end.

(** The tree a call of [New] returned, when it returned one and no error. *)
Definition built (r : returned (option MerkleTree * option error))
  : option MerkleTree :=
  match r with
  | Returned (Some m, None) => Some m
  | _ => None
  end.

(** The digest of the pair [(l, r)]. *)
Definition pair_digest (config : Config) (l r : bytes) : option bytes :=
  c ← concatFunc config;
  h ← HashFunc config;
  match h (c l r) with
  | inr d => Some d
  | inl _ => None
  end.

(** The parent of the nodes [2j] and [2j+1] of the level [L]. *)
Definition pair_at (config : Config) (L : list bytes) (j : nat)
  : option bytes :=
  l ← L !! (2 * j); r ← L !! (2 * j + 1); pair_digest config l r.

Definition hash_level (config : Config) (L : list bytes)
  : option (list bytes) :=
  mapM (pair_at config L) (seq 0 (length L / 2)).

(** Odd-node balancing: a level of odd length gets a copy of its last
    node. *)
Definition dup_last (L : list bytes) : list bytes :=
  if decide (length L mod 2 = 0) then L else L ++ [default [] (last L)].

(** The level [L] and the [k] levels above it. *)
Fixpoint levels_from (config : Config) (k : nat) (L : list bytes)
  : option (list (list bytes)) :=
  match k with
  | 0 => Some [L]
  | S k' =>
      L' ← hash_level config L;
      (L ::.) <$> levels_from config k' (dup_last L')
  end.

Definition tree_levels (config : Config) (D : nat) (leaves : list bytes)
  : option (list (list bytes)) :=
  levels_from config (D - 1) (dup_last leaves).

Definition tree_root (config : Config) (lv : list (list bytes))
  : option bytes :=
  top ← last lv; l ← top !! 0; r ← top !! 1; pair_digest config l r.

(** What one level contributes to the proof of leaf [i]: the sibling of the
    node above the leaf, and the path bit when that node is a left child. *)
Definition add_sibling (step : nat) (L : list bytes) (i : nat) (p : Proof)
  : Proof :=
  let pos := i / 2 ^ step in
  if decide (pos mod 2 = 0)
  then mkProof (Siblings p ++ [L !!! (pos + 1)])
               (add32 (Path p) (shl32 1 step))
  else mkProof (Siblings p ++ [L !!! (pos - 1)]) (Path p).

Fixpoint walk (step : nat) (lv : list (list bytes)) (i : nat) (p : Proof)
  : Proof :=
  match lv with
  | [] => p
  | L :: lv' => walk (S step) lv' i (add_sibling step L i p)
  end.

Definition proof_of (lv : list (list bytes)) (i : nat) : Proof :=
  walk 0 lv i (mkProof [] 0).

Definition proofs_of (lv : list (list bytes)) (n : nat) : list Proof :=
  proof_of lv <$> seq 0 n.

(** What [updatePairProofs buf idx batch step] does to the proof of leaf
    [i]. *)
Definition upd_pair (buf : list bytes) (idx batch step : nat) (i : nat)
    (p : Proof) : Proof :=
  if decide (i / batch = idx)
  then mkProof (Siblings p ++ [buf !!! (idx + 1)])
               (add32 (Path p) (shl32 1 step))
  else if decide (i / batch = idx + 1)
  then mkProof (Siblings p ++ [buf !!! idx]) (Path p)
  else p.

(** The proofs after the levels [lvs], the first of which is level number
    [step], have been recorded. *)
Fixpoint record (step : nat) (lvs : list (list bytes)) (ps : list Proof)
  : list Proof :=
  match lvs with
  | [] => ps
  | L :: lvs' => record (S step) lvs' (imap (add_sibling step L) ps)
  end.

(** The leaf index: a digest is mapped to the last position that holds it. *)
Definition leaf_index (leaves : list bytes) : gmap bytes nat :=
  foldl (λ mp i, <[leaves !!! i := i]> mp) ∅ (seq 0 (length leaves)).

(** The replay of a proof by [Verify]. *)
Fixpoint replay (config : Config) (sibs : list bytes) (result : bytes)
    (path : N) : option bytes :=
  match sibs with
  | [] => Some result
  | sib :: rest =>
      r ← (if decide (N.land path 1 = 1%N)
           then pair_digest config result sib
           else pair_digest config sib result);
      replay config rest r (N.shiftr path 1)
  end.

Section Construction.

Context {B : Type} `{!DataBlock B}.
Context (DefaultHashFunc DefaultHashFuncParallel : TypeHashFunc).
Context (runtime_NumCPU : positive).

Definition leaf_digest (config : Config) (block : option B) : option bytes :=
  b ← block;
  match Serialize b with
  | inl _ => None
  | inr blockBytes =>
      if DisableLeafHashing config then Some blockBytes
      else h ← HashFunc config;
           match h blockBytes with
           | inr d => Some d
           | inl _ => None
           end
  end.

Definition leaves_of (config : Config) (blocks : list (option B))
  : option (list bytes) :=
  mapM (leaf_digest config) blocks.

(** One iteration of [leafGenHandler]. *)
Definition leafGen_slot (blocks : list (option B)) (i : nat)
  : M poolShared unit :=
  sh <- get ;;
  block <- index blocks i ;;
  leaf <- leafFromBlock block (cfg (mt sh)) ;;
  leaves <- store (byteField1 sh) i leaf ;;
  put (set_byteField1 leaves sh).

(** The configuration [New] stores in the tree. *)
Definition normalize (config : option Config) : Config :=
  let c := default new_Config config in
  let c :=
    if HashFunc c is None
    then set_HashFunc
           (Some (if RunInParallel c
                  then DefaultHashFuncParallel else DefaultHashFunc)) c
    else c in
  let c :=
    if concatFunc c is None
    then set_concatFunc
           (Some (if SortSiblingPairs c then concatSortHash else concatHash)) c
    else c in
  if RunInParallel c
  then if decide (NumRoutines c <= 0)%Z
       then set_NumRoutines (Z.pos runtime_NumCPU) c else c
  else c.

(** The tree a successful construction returns. *)
Definition tree_of (c : Config) (blocks : list (option B))
  : option MerkleTree :=
  if decide (length blocks <= 1) then None
  else
    let n := length blocks in
    let D := bits_Len (n - 1) in
    leaves ← leaves_of c blocks;
    lv ← tree_levels c D leaves;
    root ← tree_root c lv;
    if decide (Mode c = ModeProofGen)
    then Some (mkMerkleTree c ∅ [] root leaves (proofs_of lv n) D n)
    else if decide (Mode c = ModeTreeBuild)
    then Some (mkMerkleTree c (leaf_index leaves) lv root leaves [] D n)
    else if decide (Mode c = ModeProofGenAndTreeBuild)
    then Some (mkMerkleTree c (leaf_index leaves) lv root leaves
                 (proofs_of lv n) D n)
    else None.

End Construction.

(** The sibling of the node at position [pos] of the level [L], and the
    path bit of that position: set when the node is a left child. *)
Definition sibling (L : list bytes) (pos : nat) : bytes :=
  L !!! (if decide (pos mod 2 = 0) then pos + 1 else pos - 1).

Definition path_bit (pos : nat) : bool := bool_decide (pos mod 2 = 0).

(** The configuration [Verify] works with: the one it was given, with the
    digest and concatenation functions filled in when they are nil. *)
Definition verify_config (DefaultHashFunc : TypeHashFunc) (c : Config)
  : Config :=
  let c := if HashFunc c is None
           then set_HashFunc (Some DefaultHashFunc) c else c in
  if concatFunc c is None then set_concatFunc (Some concatHash) c else c.

(** The loop bodies of the pool handlers, named for the lemmas below. *)

(** One iteration of [proofGenHandler]. *)
Definition proofGen_pair (i : nat) : M poolShared unit :=
  sh <- get ;;
  l <- index (byteField1 sh) i ;;
  r <- index (byteField1 sh) (i + 1) ;;
  newHash <- hashPair (cfg (mt sh)) l r ;;
  buf2 <- store (byteField2 sh) (i >> 1) newHash ;;
  put (set_byteField2 buf2 sh).

(** One iteration of the level loop of [treeBuild] and of
    [treeBuildHandler]: the parent of the nodes [j] and [j+1] of level
    [depth] goes to level [depth + 1].  [cf] reads the configuration. *)
Definition treeBuild_pair (cf : MerkleTree -> Config) (depth j : nat)
  : M MerkleTree unit :=
  m <- get ;;
  l <- node depth j ;;
  r <- node depth (j + 1) ;;
  h <- hashPair (cf m) l r ;;
  set_node (depth + 1) (j >> 1) h.

(** The fields of the tree that are fixed before the levels, the root and
    the proofs are computed. *)
Definition inputs (m : MerkleTree) : Config * list bytes * nat * nat :=
  (cfg m, Leaves m, Depth m, NumLeaves m).

(** The computation [c] leaves the part [F] of the state at [x0], whether
    it returns normally or with an error. *)
Definition keeps {S X A} (F : S -> X) (x0 : X) (c : M S A) : Prop :=
  forall s, F s = x0 ->
    match c s with
    | Ret _ s' | Fail _ s' => F s' = x0
    | Panic => True
    end.

(** ** Errors of a computation

    [raises P Q c]: every error [c] returns satisfies [P], and every value
    it returns satisfies [Q]. *)
Definition raises {S A} (P : error -> Prop) (Q : A -> Prop) (c : M S A)
  : Prop :=
  forall s,
    match c s with
    | Ret a _ => Q a
    | Fail e _ => P e
    | Panic => True
    end.

(** The errors of the caller's functions. *)
Definition is_HashError (e : error) : Prop := exists msg, e = HashError msg.
Definition is_SerializeError (e : error) : Prop :=
  exists msg, e = SerializeError msg.

(** ** Example inputs

    A block type whose serialisation can fail, and two digest functions:
    one keeps the first byte of its input, the other refuses inputs of more
    than one byte. *)

Inductive ExampleBlock : Type :=
| Data (bs : bytes)
| Broken (msg : string).

#[global] Instance ExampleBlock_DataBlock : DataBlock ExampleBlock :=
  fun b => match b with
           | Data bs => inr bs
           | Broken msg => inl msg
           end.

Definition first_byte_hash : TypeHashFunc := fun x => inr (take 1 x).

Definition short_input_hash : TypeHashFunc :=
  fun x => if decide (length x <= 1) then inr x else inl "input too long"%string.

Definition example_config (mode : TypeConfigMode) (parallel : bool) : Config :=
  mkConfig None (Some first_byte_hash) 2 mode parallel false false.

Definition example_blocks : list (option ExampleBlock) :=
  [Some (Data [Byte.x01]); Some (Data [Byte.x02]); Some (Data [Byte.x03])].

(** A long input with two digests: [2^k] blocks [0x01] followed by one
    block [0x02].  With [first_byte_hash], level [j] of its tree (counted
    from the top) is [two_digest_level j]. *)
Definition two_digest_blocks (k : nat) : list (option ExampleBlock) :=
  replicate (2 ^ k) (Some (Data [Byte.x01])) ++ [Some (Data [Byte.x02])].

Definition two_digest_level (j : nat) : list bytes :=
  match j with
  | 0 => [[Byte.x01]; [Byte.x02]]
  | S _ => replicate (2 ^ j) [Byte.x01] ++ [[Byte.x02]; [Byte.x02]]
  end.

Fixpoint two_digest_levels (j : nat) : list (list bytes) :=
  match j with
  | 0 => [two_digest_level 0]
  | S j' => two_digest_level j :: two_digest_levels j'
  end.

(** The tree [New] builds from example inputs (the empty tree when it
    builds none). *)
Definition example_tree (config : option Config)
    (blocks : list (option ExampleBlock)) : MerkleTree :=
  default (mkMerkleTree new_Config ∅ [] [] [] [] 0 0)
    (built (New first_byte_hash first_byte_hash 4 config blocks)).

(** * Reasoning about the embedding *)

(** ** Successful runs *)

Lemma succ_Some {S A} (o : outcome S A) a s :
  succ o = Some (a, s) <-> o = Ret a s.
Proof. destruct o; simpl; split; intros; simplify_eq; done. Qed.

Lemma succ_bind {S A C} (c : M S A) (k : A -> M S C) s :
  succ (bind c k s) = succ (c s) ≫= λ '(a, s'), succ (k a s').
Proof. unfold bind. by destruct (c s). Qed.

Lemma succ_ret {S A} (a : A) (s : S) : succ (ret a s) = Some (a, s).
Proof. done. Qed.

Lemma bind_Ret {S A C} (c : M S A) (k : A -> M S C) s a s' :
  c s = Ret a s' -> bind c k s = k a s'.
Proof. unfold bind. by intros ->. Qed.

Lemma index_Some {S A} (buf : list A) i x (s : S) :
  buf !! i = Some x -> index buf i s = Ret x s.
Proof. unfold index. by intros ->. Qed.

Lemma index_None {S A} (buf : list A) i (s : S) :
  buf !! i = None -> index buf i s = Panic.
Proof. unfold index. by intros ->. Qed.

Lemma succ_index {S A} (buf : list A) i (s : S) :
  succ (index buf i s) = (λ x, (x, s)) <$> buf !! i.
Proof. unfold index. by destruct (buf !! i). Qed.

Lemma store_lt {S A} (buf : list A) i x (s : S) :
  i < length buf -> store buf i x s = Ret (<[i := x]> buf) s.
Proof. unfold store. intros. by rewrite decide_True. Qed.

Lemma store_ge {S A} (buf : list A) i x (s : S) :
  length buf <= i -> store buf i x s = Panic.
Proof. unfold store. intros. rewrite decide_False; [done | lia]. Qed.

(** ** Loops *)

Lemma for_each_app {S A I} (l1 l2 : list I) (body : I -> A -> M S A) a s :
  for_each (l1 ++ l2) body a s
  = bind (for_each l1 body a) (for_each l2 body) s.
Proof.
  revert a s. induction l1 as [|i l1 IH]; intros a s; simpl.
  - done.
  - unfold bind in *. destruct (body i a s) as [a' s'| |]; [|done..].
    apply IH.
Qed.

Lemma for_each_fmap {S A I J} (f : J -> I) (l : list J)
    (body : I -> A -> M S A) a s :
  for_each (f <$> l) body a s = for_each l (λ j, body (f j)) a s.
Proof.
  revert a s. induction l as [|j l IH]; intros a s; simpl; [done|].
  unfold bind. destruct (body (f j) a s); [|done..]. apply IH.
Qed.

Lemma for_each_ext {S A I} (l : list I) (body1 body2 : I -> A -> M S A) a s :
  (forall i a s, i ∈ l -> body1 i a s = body2 i a s) ->
  for_each l body1 a s = for_each l body2 a s.
Proof.
  revert a s. induction l as [|i l IH]; intros a s Hb; simpl; [done|].
  unfold bind. rewrite Hb by left.
  destruct (body2 i a s); [|done..]. apply IH.
  intros. apply Hb. by right.
Qed.

Lemma for_app {S I} (l1 l2 : list I) (body : I -> M S unit) s :
  for_ (l1 ++ l2) body s = bind (for_ l1 body) (λ _, for_ l2 body) s.
Proof.
  unfold for_. rewrite for_each_app. unfold bind.
  by destruct (for_each l1 _ tt s) as [[] ?| |].
Qed.

Lemma for_cons {S I} (i : I) (l : list I) (body : I -> M S unit) s :
  for_ (i :: l) body s = bind (body i) (λ _, for_ l body) s.
Proof.
  unfold for_. simpl. unfold bind. by destruct (body i s) as [[] ?| |].
Qed.

Lemma for_bind {S I J} (l : list J) (f : J -> list I) (body : I -> M S unit) s :
  for_ (l ≫= f) body s = for_ l (λ j, for_ (f j) body) s.
Proof.
  revert s. induction l as [|j l IH]; intros s; [done|].
  rewrite bind_cons, for_app, for_cons. unfold bind.
  destruct (for_ (f j) body s); [|done..]. apply IH.
Qed.

(** Iterations that commute may run in any order: a loop over a permutation
    of the indices succeeds in the same state. *)
Lemma for_perm {S} (l1 l2 : list nat) (body : nat -> M S unit) :
  l1 ≡ₚ l2 ->
  (forall i j s, i ∈ l1 -> j ∈ l1 -> i <> j ->
     succ (bind (body i) (λ _, body j) s)
     = succ (bind (body j) (λ _, body i) s)) ->
  forall s, succ (for_ l1 body s) = succ (for_ l2 body s).
Proof.
  induction 1 as [|x l l' Hp IH|x y l|l l' l'' Hp1 IH1 Hp2 IH2];
    intros Hc s.
  - done.
  - rewrite !for_cons, !succ_bind.
    destruct (succ (body x s)) as [[[] s']|]; simpl; [|done].
    apply IH. intros i j s0 Hi Hj. apply Hc; by right.
  - rewrite !for_cons. destruct (decide (x = y)) as [->|Hne]; [done|].
    assert (Hxy := Hc y x s ltac:(left) ltac:(right; left) ltac:(done)).
    rewrite !succ_bind in *.
    destruct (succ (body y s)) as [[[] s1]|],
             (succ (body x s)) as [[[] s2]|]; simpl in *.
    + rewrite !for_cons, !succ_bind.
      destruct (succ (body x s1)) as [[[] s3]|],
               (succ (body y s2)) as [[[] s4]|]; simpl; by simplify_eq.
    + rewrite for_cons, succ_bind. by rewrite Hxy.
    + rewrite for_cons, succ_bind. by rewrite <- Hxy.
    + done.
  - rewrite IH1 by done. apply IH2.
    intros i j s0 Hi Hj. apply Hc; by rewrite Hp1.
Qed.

(** ** The index sets of the loops *)

Lemma strided_count_S start stop step :
  0 < step -> start < stop ->
  (stop - start + (step - 1)) / step
  = S ((stop - (start + step) + (step - 1)) / step).
Proof.
  intros Hs Hlt. destruct (decide (stop - start < step)) as [Hd|Hd].
  - replace (stop - (start + step)) with 0 by lia.
    rewrite (Nat.div_small (0 + _)) by lia.
    symmetry. apply (Nat.div_unique _ _ _ (stop - start - 1)); lia.
  - replace (stop - start + (step - 1))
      with ((stop - (start + step) + (step - 1)) + 1 * step) by lia.
    rewrite Nat.div_add by lia. lia.
Qed.

Lemma strided_from_fmap fuel start stop step :
  0 < step -> stop - start <= fuel ->
  strided_from fuel start stop step
  = (λ t, start + t * step) <$> seq 0 ((stop - start + (step - 1)) / step).
Proof.
  intros Hs. revert start. induction fuel as [|fuel IH]; intros start Hf; simpl.
  - replace (stop - start) with 0 by lia.
    rewrite Nat.div_small by lia. done.
  - case_decide as Hlt.
    + rewrite strided_count_S by done. simpl. f_equal; [lia|].
      rewrite IH by lia. rewrite <- fmap_S_seq, <- list_fmap_compose.
      apply list_fmap_ext. intros _ t _. simpl. lia.
    + replace (stop - start) with 0 by lia.
      rewrite Nat.div_small by lia. done.
Qed.

Lemma strided_fmap start stop step :
  0 < step ->
  strided start stop step
  = (λ t, start + t * step) <$> seq 0 ((stop - start + (step - 1)) / step).
Proof. intros. apply strided_from_fmap; [done | lia]. Qed.

Lemma elem_of_strided start stop step x :
  0 < step ->
  x ∈ strided start stop step <-> x < stop /\ exists t, x = start + t * step.
Proof.
  intros Hs. rewrite strided_fmap by done. rewrite list_elem_of_fmap.
  setoid_rewrite elem_of_seq. split.
  - intros (t & -> & _ & Ht). split; [|by eexists].
    simpl in Ht.
    assert (t * step < stop - start + (step - 1) - (step - 1)); [|lia].
    pose proof (Nat.div_mod_eq (stop - start + (step - 1)) step).
    pose proof (Nat.mod_upper_bound (stop - start + (step - 1)) step).
    nia.
  - intros (Hx & t & ->). exists t. split; [done|]. split; [lia|]. simpl.
    apply Nat.nle_gt. intros Hle.
    pose proof (Nat.div_mod_eq (stop - start + (step - 1)) step).
    pose proof (Nat.mod_upper_bound (stop - start + (step - 1)) step).
    nia.
Qed.

Lemma NoDup_strided start stop step : 0 < step -> NoDup (strided start stop step).
Proof.
  intros Hs. rewrite strided_fmap by done.
  apply NoDup_fmap_2_strong; [|apply NoDup_seq].
  intros t1 t2 _ _ Heq. nia.
Qed.

Lemma strided_even k : strided 0 (2 * k) 2 = (λ j, 2 * j) <$> seq 0 k.
Proof.
  rewrite strided_fmap by lia.
  replace ((2 * k - 0 + (2 - 1)) / 2) with k.
  - apply list_fmap_ext. intros. lia.
  - apply (Nat.div_unique _ _ _ 1); lia.
Qed.

Lemma strided_seq start stop : strided start stop 1 = seq start (stop - start).
Proof.
  rewrite strided_fmap by lia. rewrite Nat.div_1_r, Nat.add_0_r.
  replace (seq start (stop - start)) with (seq (start + 0) (stop - start))
    by (f_equal; lia).
  rewrite <- fmap_add_seq. apply list_fmap_ext. intros. lia.
Qed.

(** The strided partition of a loop among workers: worker [i] starts at
    [a * i] and advances by [a * W]; the workers visit, between them, every
    index of the sequential loop exactly once. *)
Lemma worker_indices_partition (a W' W n : nat) :
  0 < a -> 0 < W -> W' <= W -> (W' = W \/ n <= a * W') ->
  seq 0 W' ≫= (λ i, strided (a * i) n (a * W)) ≡ₚ strided 0 n a.
Proof.
  intros Ha HW HW' Hcase.
  apply NoDup_Permutation.
  - apply NoDup_bind; [| |apply NoDup_seq].
    + intros i1 i2 x Hi1%elem_of_seq Hi2%elem_of_seq.
      rewrite !elem_of_strided by nia.
      intros (_ & t1 & ->) (_ & t2 & Heq).
      assert (i1 + t1 * W = i2 + t2 * W) as Heq' by nia.
      assert (i1 = (i1 + t1 * W) mod W) as ->.
      { rewrite Nat.Div0.mod_add. symmetry. apply Nat.mod_small. lia. }
      rewrite Heq', Nat.Div0.mod_add. apply Nat.mod_small. lia.
    + intros. apply NoDup_strided. nia.
  - by apply NoDup_strided.
  - intros x. rewrite list_elem_of_bind.
    setoid_rewrite elem_of_seq. rewrite elem_of_strided by done.
    split.
    + intros (i & Hx & _).
      apply elem_of_strided in Hx as (? & t & ->); [|nia].
      split; [done|]. exists (i + t * W). lia.
    + intros (Hx & u & ->). destruct Hcase as [->|Hn].
      * exists (u mod W). split.
        -- apply elem_of_strided; [nia|]. split; [done|].
           exists (u / W). pose proof (Nat.div_mod_eq u W). nia.
        -- pose proof (Nat.mod_upper_bound u W). lia.
      * exists u. split; [|nia].
        apply elem_of_strided; [nia|]. split; [done|]. exists 0. lia.
Qed.

Lemma for_fmap {S I J} (f : J -> I) (l : list J) (body : I -> M S unit) s :
  for_ (f <$> l) body s = for_ l (λ j, body (f j)) s.
Proof. unfold for_. apply for_each_fmap. Qed.

Lemma for_ext {S I} (l : list I) (body1 body2 : I -> M S unit) s :
  (forall i s, i ∈ l -> body1 i s = body2 i s) ->
  for_ l body1 s = for_ l body2 s.
Proof. intros Hb. unfold for_. apply for_each_ext. intros. by apply Hb. Qed.

Lemma for_nil {S I} (body : I -> M S unit) s : for_ [] body s = Ret tt s.
Proof. done. Qed.

Lemma shr1 x : x >> 1 = x / 2.
Proof. rewrite Nat.shiftr_div_pow2. by rewrite Nat.pow_1_r. Qed.

Lemma shl1 x : x << 1 = 2 * x.
Proof. rewrite Nat.shiftl_mul_pow2, Nat.pow_1_r. lia. Qed.

Lemma one_shl k : 1 << k = 2 ^ k.
Proof. rewrite Nat.shiftl_mul_pow2. lia. Qed.

Lemma land1 x : Nat.land x 1 = x mod 2.
Proof. apply (Nat.land_ones x 1). Qed.

Lemma mapM_snoc {A C} (f : A -> option C) (l : list A) (x : A) :
  mapM f (l ++ [x]) = ys ← mapM f l; y ← f x; Some (ys ++ [y]).
Proof.
  induction l as [|a l IH]; simpl.
  - by destruct (f x).
  - destruct (f a); simpl; [|done]. rewrite IH.
    destruct (mapM f l); simpl; [|done]. by destruct (f x).
Qed.

Lemma mapM_ext_elem {A C} (f g : A -> option C) (l : list A) :
  (forall x, x ∈ l -> f x = g x) -> mapM f l = mapM g l.
Proof.
  induction l as [|a l IH]; intros Hfg; simpl; [done|].
  rewrite Hfg by left. rewrite IH; [done|]. intros. apply Hfg. by right.
Qed.

Lemma mapM_lookup {A C} (f : A -> option C) (l : list A) (k : list C) i x :
  mapM f l = Some k -> l !! i = Some x -> k !! i = f x.
Proof.
  intros Hm%mapM_Some Hl.
  destruct (Forall2_lookup_l _ _ _ _ _ Hm Hl) as (y & Hy & Hf). congruence.
Qed.

(** ** The worker pool *)

(** Scanning the results of [Map] for an error succeeds exactly when
    running the tasks one after the other does. *)
Lemma pool_Map_range {S A} (h : A -> M S unit) (args : list A) s :
  succ (bind (pool_Map h args) range_errList s) = succ (for_ args h s).
Proof.
  revert s. induction args as [|arg args IH]; intros s; [done|].
  rewrite for_cons. simpl. unfold bind in *.
  destruct (h arg s) as [[] s'|e s'|]; [| |done].
  - rewrite <- IH. by destruct (pool_Map h args s') as [errs s''| |].
  - by destruct (pool_Map h args s') as [errs s''| |].
Qed.

(** When no task returns an error, the state after [Map] is the state after
    the tasks in sequence. *)
Lemma pool_Map_ignore {S A} (h : A -> M S unit) (args : list A) s :
  (forall a s e s', h a s <> Fail e s') ->
  succ (bind (pool_Map h args) (λ _, ret tt) s) = succ (for_ args h s).
Proof.
  intros Hnf. revert s. induction args as [|arg args IH]; intros s; [done|].
  rewrite for_cons. simpl. unfold bind in *.
  destruct (h arg s) as [[] s'|e s'|] eqn:Hh; [| |done].
  - rewrite <- IH. by destruct (pool_Map h args s') as [errs s''| |].
  - by apply Hnf in Hh.
Qed.

(** ** Loops that fill a destination slice slot by slot

    Iteration [a * t] of such a loop computes a value [val s t], which the
    writes of the loop do not change, and stores it in slot [t] of a
    destination slice held by the state. *)
Section slot_loop.
Context {S : Type} (a : nat).
Context (getdst : S -> option (list bytes)).
Context (setdst : list bytes -> S -> S).
Context (val : S -> nat -> option bytes).
Context (body : nat -> M S unit).
Hypothesis a_pos : 0 < a.
Hypothesis get_set :
  forall d s, is_Some (getdst s) -> getdst (setdst d s) = Some d.
Hypothesis set_set : forall d d' s, setdst d (setdst d' s) = setdst d s.
Hypothesis set_get : forall d s, getdst s = Some d -> setdst d s = s.
Hypothesis val_set : forall d s t, val (setdst d s) t = val s t.
Hypothesis body_spec : forall t s,
  succ (body (a * t) s)
  = dst ← getdst s; h ← val s t;
    if decide (t < length dst) then Some (tt, setdst (<[t := h]> dst) s)
    else None.

Lemma slot_loop_seq k s dst :
  getdst s = Some dst -> k <= length dst ->
  succ (for_ ((λ t, a * t) <$> seq 0 k) body s)
  = (λ hs, (tt, setdst (hs ++ drop k dst) s)) <$> mapM (val s) (seq 0 k).
Proof using Type*.
  intros Hdst. induction k as [|k IH]; intros Hk.
  - simpl. rewrite drop_0. by rewrite set_get.
  - rewrite seq_S, fmap_app, for_app, succ_bind, IH by lia.
    rewrite mapM_snoc. simpl.
    destruct (mapM (val s) (seq 0 k)) as [hs|] eqn:Hhs; simpl; [|done].
    rewrite for_cons, succ_bind, body_spec, get_set, val_set by eauto.
    simpl. destruct (val s k) as [h|]; simpl; [|done].
    assert (length hs = k) as Hlen.
    { apply length_mapM in Hhs. by rewrite length_seq in Hhs. }
    rewrite decide_True
      by (rewrite length_app, length_drop; lia).
    simpl. rewrite set_set. do 3 f_equal.
    rewrite insert_app_r_alt, Hlen, Nat.sub_diag by lia.
    rewrite <- app_assoc. f_equal.
    destruct (drop k dst) as [|x dst'] eqn:Hd.
    { apply (f_equal length) in Hd. rewrite length_drop in Hd.
      simpl in Hd. lia. }
    simpl. f_equal.
    replace (Datatypes.S k) with (k + 1) by lia.
    by rewrite <- drop_drop, Hd.
Qed.

Lemma slot_loop_comm t t' s :
  t <> t' ->
  succ (bind (body (a * t)) (λ _, body (a * t')) s)
  = succ (bind (body (a * t')) (λ _, body (a * t)) s).
Proof using Type*.
  intros Hne. rewrite !succ_bind, !body_spec.
  destruct (getdst s) as [dst|] eqn:Hdst; simpl; [|done].
  destruct (val s t) as [h|] eqn:Hh, (val s t') as [h'|] eqn:Hh';
    simpl; repeat case_decide; simpl;
    rewrite ?body_spec, ?get_set, ?val_set, ?Hh, ?Hh' by eauto;
    simpl; rewrite ?length_insert; repeat case_decide; try done; try lia.
  rewrite !set_set. by rewrite list_insert_insert_ne.
Qed.

(** The strided worker partition fills the same slots with the same
    values as the sequential loop. *)
Lemma slot_loop_workers (W' W n : nat) s :
  0 < W -> W' <= W -> (W' = W \/ n <= a * W') ->
  succ (for_ (seq 0 W') (λ i, for_ (strided (a * i) n (a * W)) body) s)
  = succ (for_ (strided 0 n a) body s).
Proof using Type*.
  intros HW HW' Hcase. rewrite <- for_bind.
  apply for_perm; [by apply worker_indices_partition|].
  intros i j s0 (i' & Hi & _)%list_elem_of_bind
    (j' & Hj & _)%list_elem_of_bind Hne.
  apply elem_of_strided in Hi as (_ & t1 & ->); [|nia].
  apply elem_of_strided in Hj as (_ & t2 & ->); [|nia].
  replace (a * i' + t1 * (a * W)) with (a * (i' + t1 * W)) in * by lia.
  replace (a * j' + t2 * (a * W)) with (a * (j' + t2 * W)) in * by lia.
  apply slot_loop_comm. intros Heq. by rewrite Heq in Hne.
Qed.
End slot_loop.

(** ** Hashing a pair, balancing a level *)

Lemma succ_hashPair {S} config l r (s : S) :
  succ (hashPair config l r s) = (λ d, (d, s)) <$> pair_digest config l r.
Proof.
  unfold hashPair, call_HashFunc, pair_digest.
  destruct (concatFunc config) as [c|], (HashFunc config) as [h|]; simpl;
    try done.
  by destruct (h (c l r)).
Qed.

Lemma hashPair_not_Ret {S} config l r (s : S) :
  pair_digest config l r = None -> forall d s', hashPair config l r s <> Ret d s'.
Proof.
  intros Hp d s' Hr. apply succ_Some in Hr.
  rewrite succ_hashPair, Hp in Hr. done.
Qed.

Lemma length_dup_last L : length (dup_last L) = length L + length L mod 2.
Proof.
  unfold dup_last. case_decide as Hm; [lia|].
  rewrite length_app. simpl. lia.
Qed.

Lemma dup_last_even L : length (dup_last L) mod 2 = 0.
Proof. rewrite length_dup_last. lia. Qed.

Lemma dup_last_lookup L j : j < length L -> dup_last L !! j = L !! j.
Proof.
  intros Hj. unfold dup_last. case_decide; [done|]. by apply lookup_app_l.
Qed.

Lemma dup_last_id L : length L mod 2 = 0 -> dup_last L = L.
Proof. unfold dup_last. intros. by rewrite decide_True. Qed.

Lemma last_lookup_length {A} (L : list A) : last L = L !! (length L - 1).
Proof. rewrite last_lookup. f_equal. lia. Qed.

Lemma fixOdd_prefix {S} buf prevLen (s : S) :
  prevLen <= length buf ->
  exists buf',
    fixOdd buf prevLen s
    = Ret (buf', length (dup_last (take prevLen buf))) s
    /\ take (length (dup_last (take prevLen buf))) buf'
       = dup_last (take prevLen buf)
    /\ length buf <= length buf'.
Proof.
  intros Hlen. unfold fixOdd, dup_last.
  rewrite land1, length_take_le by done.
  case_decide as Hm.
  - exists buf. rewrite length_take_le by done. done.
  - destruct (lookup_lt_is_Some_2 buf (prevLen - 1)) as [x Hx]; [lia|].
    rewrite (bind_Ret _ _ _ _ _ (index_Some _ _ _ _ Hx)).
    assert (last (take prevLen buf) = Some x) as ->.
    { rewrite last_lookup_length, length_take_le by done.
      rewrite lookup_take_lt by lia. done. }
    simpl. rewrite length_app, length_take_le by done. simpl.
    case_decide as Hl.
    + exists (buf ++ [x]). split; [done|]. split; [|rewrite length_app; lia].
      assert (prevLen = length buf) as -> by lia.
      rewrite firstn_all. rewrite take_ge; [done|].
      rewrite length_app. simpl. lia.
    + exists (<[prevLen := x]> buf).
      replace (prevLen + 1 - 1) with prevLen by lia.
      rewrite (bind_Ret _ _ _ _ _ (store_lt buf prevLen x s ltac:(lia))).
      split; [done|]. split; [|by rewrite length_insert].
      replace (prevLen + 1) with (Datatypes.S prevLen) by lia.
      erewrite take_S_r; [|apply list_lookup_insert_eq; lia].
      by rewrite take_insert_ge by lia.
Qed.

Lemma fixOdd_full {S} buf (s : S) :
  fixOdd buf (length buf) s = Ret (dup_last buf, length (dup_last buf)) s.
Proof.
  unfold fixOdd, dup_last. rewrite land1. case_decide as Hm; [done|].
  destruct (lookup_lt_is_Some_2 buf (length buf - 1)) as [x Hx]; [lia|].
  rewrite (bind_Ret _ _ _ _ _ (index_Some _ _ _ _ Hx)).
  rewrite decide_True by lia.
  rewrite last_lookup_length, Hx. simpl. by rewrite length_app.
Qed.

(** ** Hashing a level in place (the loop of [proofGen]) *)

Lemma pair_at_take config buf n j :
  2 * j + 1 < n -> pair_at config (take n buf) j = pair_at config buf j.
Proof.
  intros Hj. unfold pair_at. by rewrite !lookup_take_lt by lia.
Qed.

Lemma hash_inplace {S} config buf k (s : S) :
  2 * k <= length buf ->
  succ (for_each (strided 0 (2 * k) 2) (fun idx buf =>
           l <- index buf idx ;;
           r <- index buf (idx + 1) ;;
           h <- hashPair config l r ;;
           store buf (idx >> 1) h) buf s)
  = (λ hs, (hs ++ drop k buf, s)) <$> mapM (pair_at config buf) (seq 0 k).
Proof.
  rewrite strided_even, for_each_fmap.
  induction k as [|k IH]; intros Hk.
  - simpl. by rewrite drop_0.
  - rewrite seq_S, for_each_app, succ_bind, IH by lia.
    rewrite mapM_snoc. simpl.
    destruct (mapM (pair_at config buf) (seq 0 k)) as [hs|] eqn:Hhs;
      simpl; [|done].
    assert (length hs = k) as Hlen.
    { apply length_mapM in Hhs. by rewrite length_seq in Hhs. }
    unfold pair_at.
    rewrite !succ_bind, succ_index.
    rewrite lookup_app_r, Hlen, lookup_drop by lia.
    replace (k + (2 * k - k)) with (2 * k) by lia.
    destruct (buf !! (2 * k)) as [l|]; simpl; [|done].
    rewrite !succ_bind, succ_index.
    rewrite lookup_app_r, Hlen, lookup_drop by lia.
    replace (k + (2 * k + 1 - k)) with (2 * k + 1) by lia.
    destruct (buf !! (2 * k + 1)) as [r|]; simpl; [|done].
    rewrite !succ_bind, succ_hashPair.
    destruct (pair_digest config l r) as [h|]; simpl; [|done].
    rewrite shr1.
    replace (2 * k / 2) with k by lia.
    rewrite store_lt by (rewrite length_app, length_drop; lia).
    simpl. do 2 f_equal.
    rewrite insert_app_r_alt, Hlen, Nat.sub_diag by lia.
    rewrite <- app_assoc. f_equal.
    destruct (drop k buf) as [|x buf'] eqn:Hd.
    { apply (f_equal length) in Hd. rewrite length_drop in Hd.
      simpl in Hd. lia. }
    simpl. f_equal.
    replace (Datatypes.S k) with (k + 1) by lia.
    by rewrite <- drop_drop, Hd.
Qed.

(** ** Recording siblings: [updatePairProofs] and [updateProofs] *)

Lemma set_Proofs_id m : set_Proofs (Proofs m) m = m.
Proof. by destruct m. Qed.

Lemma set_Proofs_twice a b m : set_Proofs a (set_Proofs b m) = set_Proofs a m.
Proof. done. Qed.

Lemma for_range_update (body : nat -> M MerkleTree unit) (f : Proof -> Proof)
    start len m :
  (forall i m p, Proofs m !! i = Some p ->
     body i m = Ret tt (set_Proofs (<[i := f p]> (Proofs m)) m)) ->
  (len <> 0 -> start + len <= length (Proofs m)) ->
  for_ (seq start len) body m
  = Ret tt (set_Proofs
              (imap (λ i p, if decide (start <= i < start + len)
                            then f p else p) (Proofs m)) m).
Proof.
  intros Hbody. induction len as [|len IH]; intros Hlen.
  - simpl. rewrite for_nil. f_equal. rewrite <- (set_Proofs_id m) at 1. f_equal.
    apply list_eq. intros i. rewrite list_lookup_imap.
    destruct (Proofs m !! i); simpl; [|done].
    rewrite decide_False by lia. done.
  - rewrite seq_S, for_app.
    erewrite bind_Ret; [|apply IH; lia].
    rewrite for_cons.
    destruct (lookup_lt_is_Some_2 (Proofs m) (start + len)) as [p Hp]; [lia|].
    erewrite bind_Ret; cycle 1.
    { apply Hbody. simpl. rewrite list_lookup_imap, Hp. simpl.
      rewrite decide_False by lia. done. }
    rewrite for_nil. simpl. rewrite set_Proofs_twice. do 2 f_equal.
    apply list_eq. intros i. rewrite list_lookup_imap.
    destruct (decide (i = start + len)) as [->|Hne].
    + rewrite list_lookup_insert_eq by (rewrite length_imap; lia).
      rewrite Hp. simpl. rewrite decide_True by lia. done.
    + rewrite list_lookup_insert_ne by done. rewrite list_lookup_imap.
      destruct (Proofs m !! i); simpl; [|done].
      repeat case_decide; (done || lia).
Qed.

Lemma min_spec a b : min a b = a `min` b.
Proof. unfold min. case_decide; lia. Qed.

Lemma updatePairProofs_spec buf idx batch step m :
  0 < batch -> idx + 1 < length buf ->
  updatePairProofs buf idx batch step m
  = Ret tt (set_Proofs (imap (upd_pair buf idx batch step) (Proofs m)) m).
Proof.
  intros Hb Hidx. unfold updatePairProofs.
  destruct (lookup_lt_is_Some_2 buf (idx + 1)) as [sib1 Hs1]; [lia|].
  destruct (lookup_lt_is_Some_2 buf idx) as [sib0 Hs0]; [lia|].
  rewrite (bind_Ret get _ m m m) by done.
  rewrite !min_spec.
  erewrite bind_Ret; cycle 1.
  { apply (for_range_update _
      (λ p, mkProof (Siblings p ++ [sib1]) (add32 (Path p) (shl32 1 step)))).
    - intros i m0 p Hp. rewrite (bind_Ret get _ m0 m0 m0) by done.
      rewrite (bind_Ret _ _ _ _ _ (index_Some _ _ _ _ Hp)).
      rewrite (bind_Ret _ _ _ _ _ (index_Some _ _ _ _ Hs1)). simpl.
      rewrite (bind_Ret _ _ _ _ _
                 (store_lt _ _ _ _ (lookup_lt_Some _ _ _ Hp))).
      done.
    - lia. }
  erewrite for_ext; cycle 1.
  { intros i s _. reflexivity. }
  erewrite (for_range_update _ (λ p, mkProof (Siblings p ++ [sib0]) (Path p)));
    cycle 1.
  - intros i m0 p Hp. rewrite (bind_Ret get _ m0 m0 m0) by done.
    rewrite (bind_Ret _ _ _ _ _ (index_Some _ _ _ _ Hp)).
    rewrite (bind_Ret _ _ _ _ _ (index_Some _ _ _ _ Hs0)).
    rewrite (bind_Ret _ _ _ _ _
               (store_lt _ _ _ _ (lookup_lt_Some _ _ _ Hp))).
    done.
  - simpl. rewrite length_imap. lia.
  - simpl. rewrite set_Proofs_twice. do 2 f_equal. apply list_eq. intros i.
    rewrite !list_lookup_imap.
    destruct (Proofs m !! i) as [p|] eqn:Hp; simpl; [|done].
    apply lookup_lt_Some in Hp. f_equal. unfold upd_pair.
    rewrite (list_lookup_total_correct _ _ _ Hs1).
    rewrite (list_lookup_total_correct _ _ _ Hs0).
    assert (i / batch = idx <-> idx * batch <= i < idx * batch + batch)
      as Hd1 by nia.
    assert (i / batch = idx + 1
            <-> idx * batch + batch <= i < idx * batch + batch + batch)
      as Hd2 by nia.
    repeat case_decide; (done || lia).
Qed.

Lemma for_updatePairProofs buf batch step idxs m :
  0 < batch -> (forall idx, idx ∈ idxs -> idx + 1 < length buf) ->
  for_ idxs (λ i, updatePairProofs buf i batch step) m
  = Ret tt (set_Proofs
              (foldl (λ ps idx, imap (upd_pair buf idx batch step) ps)
                 (Proofs m) idxs) m).
Proof.
  intros Hb. revert m. induction idxs as [|idx idxs IH]; intros m Hin.
  - rewrite for_nil. simpl. by rewrite set_Proofs_id.
  - rewrite for_cons.
    erewrite bind_Ret;
      [|apply updatePairProofs_spec; [done | apply Hin; left]].
    rewrite IH by (intros; apply Hin; by right).
    done.
Qed.

Lemma lookup_foldl_imap {A} (h : nat -> nat -> A -> A) idxs (ps : list A) i :
  foldl (λ ps idx, imap (h idx) ps) ps idxs !! i
  = (λ p, foldl (λ p idx, h idx i p) p idxs) <$> ps !! i.
Proof.
  revert ps. induction idxs as [|idx idxs IH]; intros ps; simpl.
  - by destruct (ps !! i).
  - rewrite IH, list_lookup_imap. by destruct (ps !! i).
Qed.

Lemma foldl_id {A} (g : nat -> A -> A) (l : list nat) (p : A) :
  (forall y q, y ∈ l -> g y q = q) -> foldl (λ q y, g y q) p l = p.
Proof.
  induction l as [|y l IH]; intros Hg; simpl; [done|].
  rewrite Hg by left. apply IH. intros. apply Hg. by right.
Qed.

Lemma foldl_single {A} (g : nat -> A -> A) (l : list nat) (x : nat) (p : A) :
  NoDup l -> x ∈ l ->
  (forall y q, y ∈ l -> y <> x -> g y q = q) ->
  foldl (λ q y, g y q) p l = g x p.
Proof.
  induction 1 as [|y l Hy Hnd IH]; intros Hx Hg; [by inv Hx|].
  simpl. destruct (decide (y = x)) as [->|Hne].
  - apply foldl_id. intros z q Hz. apply Hg; [by right|]. by intros ->.
  - rewrite Hg by (done || left). apply IH.
    + inv Hx; done.
    + intros. apply Hg; [by right | done].
Qed.

Lemma upd_pair_other buf idx step i p :
  idx mod 2 = 0 -> idx <> 2 * (i / 2 ^ step / 2) ->
  upd_pair buf idx (2 ^ step) step i p = p.
Proof. intros He Hne. unfold upd_pair. repeat case_decide; (done || lia). Qed.

Lemma upd_pair_own buf step i p :
  upd_pair buf (2 * (i / 2 ^ step / 2)) (2 ^ step) step i p
  = add_sibling step buf i p.
Proof.
  unfold upd_pair, add_sibling. simpl.
  repeat case_decide; try lia.
  - by replace (2 * (i / 2 ^ step / 2)) with (i / 2 ^ step) by lia.
  - by replace (2 * (i / 2 ^ step / 2)) with (i / 2 ^ step - 1) by lia.
Qed.

(** Whatever the order in which the pairs of a level are visited, every
    proof receives the sibling of the node above its leaf. *)
Lemma updatePairProofs_level buf bufLen step idxs m :
  idxs ≡ₚ strided 0 bufLen 2 ->
  bufLen + bufLen mod 2 <= length buf ->
  length (Proofs m) <= (bufLen + bufLen mod 2) * 2 ^ step ->
  for_ idxs (λ i, updatePairProofs buf i (2 ^ step) step) m
  = Ret tt (set_Proofs (imap (add_sibling step buf) (Proofs m)) m).
Proof.
  intros Hp Hlen Hcov.
  assert (forall idx, idx ∈ idxs <-> idx < bufLen /\ idx mod 2 = 0) as Hin.
  { intros idx. rewrite Hp, elem_of_strided by lia. split.
    - intros (? & t & ->). lia.
    - intros (? & ?). split; [done|]. exists (idx / 2). lia. }
  assert (0 < 2 ^ step) as Hpos.
  { apply Nat.neq_0_lt_0, Nat.pow_nonzero. lia. }
  rewrite for_updatePairProofs; [|done|]; cycle 1.
  { intros idx (? & ?)%Hin. lia. }
  do 2 f_equal. apply list_eq. intros i.
  rewrite lookup_foldl_imap, list_lookup_imap.
  destruct (Proofs m !! i) as [p|] eqn:Hpi; simpl; [|done].
  apply lookup_lt_Some in Hpi. f_equal.
  rewrite <- upd_pair_own.
  apply (foldl_single (λ idx q, upd_pair buf idx (2 ^ step) step i q)).
  - rewrite Hp. apply NoDup_strided. lia.
  - apply Hin.
    assert (i / 2 ^ step < bufLen + bufLen mod 2).
    { apply Nat.Div0.div_lt_upper_bound. lia. }
    lia.
  - intros y q (? & ?)%Hin Hne. by apply upd_pair_other.
Qed.

Lemma updateProofs_spec buf bufLen step m :
  bufLen + bufLen mod 2 <= length buf ->
  length (Proofs m) <= (bufLen + bufLen mod 2) * 2 ^ step ->
  updateProofs buf bufLen step m
  = Ret tt (set_Proofs (imap (add_sibling step buf) (Proofs m)) m).
Proof.
  intros. unfold updateProofs. rewrite one_shl.
  by apply (updatePairProofs_level buf bufLen).
Qed.

Lemma for_Ret_cons {S I} (i : I) (l : list I) (body : I -> M S unit) s s' :
  for_ (i :: l) body s = Ret tt s' ->
  exists s1, body i s = Ret tt s1 /\ for_ l body s1 = Ret tt s'.
Proof.
  rewrite for_cons. unfold bind.
  destruct (body i s) as [[] s1| |]; [|done..]. eauto.
Qed.

Lemma pool_Map_Ret {S A} (h : A -> M S unit) (args : list A) s s' :
  for_ args h s = Ret tt s' ->
  pool_Map h args s = Ret (replicate (length args) None) s'.
Proof.
  revert s. induction args as [|arg args IH]; intros s Hf.
  - rewrite for_nil in Hf. by simplify_eq.
  - apply for_Ret_cons in Hf as (s1 & Hh & Hf). simpl. rewrite Hh.
    unfold bind. by rewrite (IH _ Hf).
Qed.

Lemma range_errList_None {S} n (s : S) :
  range_errList (replicate n None) s = Ret tt s.
Proof. induction n; [done|]. simpl. done. Qed.

(** ** The parallel procedures against the sequential ones *)

Section Parallel.

Context {B : Type} `{!DataBlock B}.

Lemma for_on_mt {I} (l : list I) (c : list bytes -> I -> M MerkleTree unit)
    (sh : poolShared) :
  for_ l (λ i, sh <- get ;; on_mt (c (byteField1 sh) i)) sh
  = on_mt (for_ l (c (byteField1 sh))) sh.
Proof.
  revert sh. induction l as [|i l IH]; intros sh.
  - rewrite for_nil. unfold on_mt. rewrite for_nil. by destruct sh.
  - rewrite for_cons. unfold on_mt in *. rewrite for_cons.
    unfold bind, get.
    destruct (c (byteField1 sh) i (mt sh)) as [[] m1| |]; [|done..].
    rewrite IH. done.
Qed.

Lemma updateProofsParallel_spec buf bufLen step (m : MerkleTree) :
  (1 <= NumRoutines (cfg m))%Z -> 0 < bufLen ->
  bufLen + bufLen mod 2 <= length buf ->
  length (Proofs m) <= (bufLen + bufLen mod 2) * 2 ^ step ->
  updateProofsParallel (B := B) buf bufLen step m
  = Ret tt (set_Proofs (imap (add_sibling step buf) (Proofs m)) m).
Proof.
  intros HNR Hpos Hlen Hcov. unfold updateProofsParallel.
  rewrite (bind_Ret get _ m m m) by done.
  set (W := if decide (bufLen < Z.to_nat (NumRoutines (cfg m)))
            then bufLen else Z.to_nat (NumRoutines (cfg m))).
  assert (0 < W) as HW by (unfold W; case_decide; lia).
  set (sh := mkShared m buf []).
  assert (for_ ((λ i, mkArgs (B := B) [] (i << 1) (1 << step) step bufLen W)
                  <$> seq 0 W) updateProofHandler sh
          = Ret tt (set_mt (set_Proofs
                      (imap (add_sibling step buf) (Proofs m)) m) sh))
    as Hfor.
  { rewrite for_fmap. unfold updateProofHandler. simpl.
    erewrite for_ext; cycle 1.
    { intros i s _. rewrite shl1, shl1, one_shl. reflexivity. }
    rewrite <- (for_bind (seq 0 W) (λ i, strided (2 * i) bufLen (2 * W))
                  (λ i, sh <- get ;;
                        on_mt (updatePairProofs (byteField1 sh) i
                                 (2 ^ step) step))).
    rewrite (for_on_mt _ (λ buf i, updatePairProofs buf i (2 ^ step) step)).
    unfold on_mt. simpl.
    rewrite (updatePairProofs_level buf bufLen); [done| |done..].
    apply worker_indices_partition; (lia || by left). }
  unfold in_pool, bind. fold sh.
  by rewrite (pool_Map_Ret _ _ _ _ Hfor).
Qed.

Lemma range_errList_cases {S} errList (s : S) :
  range_errList errList s = Ret tt s
  \/ exists e, range_errList errList s = Fail e s.
Proof.
  induction errList as [|[e|] errList IH]; simpl; eauto.
Qed.

(** A batch of pool tasks followed by the scan of its error list
    continues exactly when the tasks, run in sequence, all succeed. *)
Lemma in_pool_range {A C} (h : A -> M poolShared unit) (args : list A)
    buf1 buf2 (k : list bytes -> list bytes -> M MerkleTree C) m :
  succ (bind (in_pool buf1 buf2 (pool_Map h args))
          (λ '(errList, b1, b2),
             bind (range_errList errList) (λ _, k b1 b2)) m)
  = succ (for_ args h (mkShared m buf1 buf2))
    ≫= λ '(_, sh), succ (k (byteField1 sh) (byteField2 sh) (mt sh)).
Proof.
  pose proof (pool_Map_range h args (mkShared m buf1 buf2)) as Hr.
  unfold in_pool, bind in *.
  destruct (pool_Map h args (mkShared m buf1 buf2)) as [errs sh| |];
    simpl in *; [|by rewrite <- Hr..].
  rewrite <- Hr.
  destruct (range_errList_cases errs (mt sh)) as [Hc|[e Hc]], 
           (range_errList_cases errs sh) as [Hc'|[e' Hc']];
    rewrite Hc, Hc'; simpl; try done.
  - clear -Hc Hc'. exfalso. induction errs as [|[?|] ? IH]; simpl in *;
      try done; auto.
  - clear -Hc Hc'. exfalso. induction errs as [|[?|] ? IH]; simpl in *;
      try done; auto.
Qed.

(** *** Hashing a level from one buffer into another ([proofGenHandler]) *)

Lemma proofGen_pair_spec t sh :
  succ (proofGen_pair (2 * t) sh)
  = dst ← Some (byteField2 sh);
    h ← pair_at (cfg (mt sh)) (byteField1 sh) t;
    if decide (t < length dst)
    then Some (tt, set_byteField2 (<[t := h]> dst) sh) else None.
Proof.
  unfold proofGen_pair, pair_at. rewrite succ_bind. simpl.
  rewrite succ_bind, succ_index.
  destruct (byteField1 sh !! (2 * t)) as [l|]; simpl; [|done].
  rewrite succ_bind, succ_index.
  destruct (byteField1 sh !! (2 * t + 1)) as [r|]; simpl; [|done].
  rewrite succ_bind, succ_hashPair.
  destruct (pair_digest (cfg (mt sh)) l r) as [h|]; simpl; [|done].
  rewrite shr1. replace (2 * t / 2) with t by lia.
  unfold bind, store. by case_decide.
Qed.

Lemma proofGen_pool_spec (m : MerkleTree) buf buff k (W0 : nat) :
  0 < W0 -> 0 < k -> k <= length buff ->
  let W := if decide (2 * k < W0) then 2 * k else W0 in
  succ (for_ ((λ i, mkArgs (B := B) [] (i << 1) (2 * k) W 0 0) <$> seq 0 W)
          proofGenHandler (mkShared m buf buff))
  = (λ hs, (tt, mkShared m buf (hs ++ drop k buff)))
      <$> mapM (pair_at (cfg m) buf) (seq 0 k).
Proof.
  intros HW0 Hk Hlen W.
  assert (0 < W) as HW by (unfold W; case_decide; lia).
  rewrite for_fmap. unfold proofGenHandler. simpl.
  erewrite for_ext; cycle 1.
  { intros i s _. rewrite !shl1. reflexivity. }
  fold proofGen_pair.
  rewrite (slot_loop_workers 2 (λ sh, Some (byteField2 sh)) set_byteField2
             (λ sh, pair_at (cfg (mt sh)) (byteField1 sh)));
    try done; try lia;
    [| by intros d [] ?; simplify_eq | apply proofGen_pair_spec].
  rewrite strided_even.
  rewrite (slot_loop_seq 2 (λ sh, Some (byteField2 sh)) set_byteField2
             (λ sh, pair_at (cfg (mt sh)) (byteField1 sh)) proofGen_pair)
    with (dst := buff);
    try done; try lia;
    [by intros d [] ?; simplify_eq | apply proofGen_pair_spec].
Qed.

(** *** Hashing a retained level into the next ([treeBuild]) *)

Lemma set_nodes_twice a b m : set_nodes a (set_nodes b m) = set_nodes a m.
Proof. done. Qed.

Lemma set_nodes_id m : set_nodes (nodes m) m = m.
Proof. by destruct m. Qed.

Lemma succ_node i j m :
  succ (node i j m) = (λ x, (x, m)) <$> (nodes m !! i ≫= (.!! j)).
Proof.
  unfold node. rewrite succ_bind. simpl. rewrite succ_bind, succ_index.
  destruct (nodes m !! i) as [L|]; simpl; [|done]. apply succ_index.
Qed.

Lemma succ_set_level i L m :
  succ (set_level i L m)
  = if decide (i < length (nodes m))
    then Some (tt, set_nodes (<[i := L]> (nodes m)) m) else None.
Proof. unfold set_level, bind, get, store. by case_decide. Qed.

Lemma treeBuild_pair_spec cf depth t m :
  (forall d m, cf (set_nodes d m) = cf m) ->
  succ (treeBuild_pair cf depth (2 * t) m)
  = dst ← nodes m !! (depth + 1);
    h ← (nodes m !! depth ≫= λ L, pair_at (cf m) L t);
    if decide (t < length dst)
    then Some (tt, set_nodes (<[depth + 1 := <[t := h]> dst]> (nodes m)) m)
    else None.
Proof.
  intros Hcf. unfold treeBuild_pair, pair_at. rewrite succ_bind. simpl.
  rewrite succ_bind, succ_node.
  destruct (nodes m !! depth) as [L|] eqn:HL; simpl;
    [|by destruct (nodes m !! (depth + 1))].
  destruct (L !! (2 * t)) as [l|]; simpl;
    [|by destruct (nodes m !! (depth + 1))].
  rewrite succ_bind, succ_node, HL. simpl.
  destruct (L !! (2 * t + 1)) as [r|]; simpl;
    [|by destruct (nodes m !! (depth + 1))].
  rewrite succ_bind, succ_hashPair.
  destruct (pair_digest (cf m) l r) as [h|]; simpl;
    [|by destruct (nodes m !! (depth + 1))].
  rewrite shr1. replace (2 * t / 2) with t by lia.
  unfold set_node. rewrite succ_bind. simpl. rewrite succ_bind, succ_index.
  destruct (nodes m !! (depth + 1)) as [dst|] eqn:Hdst; simpl; [|done].
  unfold bind at 1. unfold store at 1. case_decide; [|done].
  unfold ret. rewrite succ_set_level.
  rewrite decide_True by (by eapply lookup_lt_Some). done.
Qed.

Section nodes_loop.

Context (cf : MerkleTree -> Config) (depth : nat).
Hypothesis cf_set : forall d m, cf (set_nodes d m) = cf m.

Let getdst (m : MerkleTree) := nodes m !! (depth + 1).
Let setdst (d : list bytes) (m : MerkleTree) :=
  set_nodes (<[depth + 1 := d]> (nodes m)) m.
Let val (m : MerkleTree) (t : nat) :=
  nodes m !! depth ≫= λ L, pair_at (cf m) L t.

Lemma nodes_get_set d m : is_Some (getdst m) -> getdst (setdst d m) = Some d.
Proof.
  unfold getdst, setdst. intros [? H%lookup_lt_Some]. simpl.
  by apply list_lookup_insert_eq.
Qed.

Lemma nodes_set_set d d' m : setdst d (setdst d' m) = setdst d m.
Proof.
  unfold setdst. simpl. rewrite set_nodes_twice.
  by rewrite list_insert_insert_eq.
Qed.

Lemma nodes_set_get d m : getdst m = Some d -> setdst d m = m.
Proof.
  unfold getdst, setdst. intros H. rewrite list_insert_id by done.
  apply set_nodes_id.
Qed.

Lemma nodes_val_set d m t : val (setdst d m) t = val m t.
Proof using cf_set.
  unfold val, setdst. simpl. rewrite cf_set.
  rewrite list_lookup_insert_ne by lia. done.
Qed.

Lemma treeBuild_level_seq k m L dst :
  nodes m !! depth = Some L -> nodes m !! (depth + 1) = Some dst ->
  k <= length dst ->
  succ (for_ (strided 0 (2 * k) 2) (treeBuild_pair cf depth) m)
  = (λ hs, (tt, set_nodes (<[depth + 1 := hs ++ drop k dst]> (nodes m)) m))
      <$> mapM (pair_at (cf m) L) (seq 0 k).
Proof using cf_set.
  intros HL Hdst Hk. rewrite strided_even.
  rewrite (slot_loop_seq 2 getdst setdst val (treeBuild_pair cf depth))
    with (dst := dst);
    [| lia | apply nodes_get_set | apply nodes_set_set | apply nodes_set_get
     | apply nodes_val_set | intros; by apply treeBuild_pair_spec
     | done | done].
  unfold val. rewrite HL. done.
Qed.

Lemma treeBuild_level_workers (W' W n : nat) m :
  0 < W -> W' <= W -> (W' = W \/ n <= 2 * W') ->
  succ (for_ (seq 0 W')
          (λ i, for_ (strided (2 * i) n (2 * W)) (treeBuild_pair cf depth)) m)
  = succ (for_ (strided 0 n 2) (treeBuild_pair cf depth) m).
Proof using cf_set.
  intros. apply (slot_loop_workers 2 getdst setdst val);
    [lia | apply nodes_get_set | apply nodes_set_set | apply nodes_set_get
    | apply nodes_val_set | intros; by apply treeBuild_pair_spec
    | done..].
Qed.

End nodes_loop.

Lemma fixOdd_level_spec i L m :
  nodes m !! i = Some L ->
  fixOdd_level i m
  = Ret (length (dup_last L)) (set_nodes (<[i := dup_last L]> (nodes m)) m).
Proof.
  intros HL. unfold fixOdd_level.
  rewrite (bind_Ret get _ m m m) by done.
  rewrite (bind_Ret _ _ _ _ _ (index_Some _ _ _ _ HL)).
  rewrite (bind_Ret _ _ _ _ _ (fixOdd_full L m)).
  unfold set_level, bind, get, store.
  rewrite decide_True by (by eapply lookup_lt_Some). done.
Qed.

Lemma levels_from_cons config k L lvs :
  levels_from config k L = Some lvs ->
  exists r, lvs = L :: r /\ length r = k.
Proof.
  revert L lvs. induction k as [|k IH]; intros L lvs; simpl.
  - intros [= <-]. by exists [].
  - destruct (hash_level config L) as [hs|]; simpl; [|done].
    destruct (levels_from config k (dup_last hs)) as [lvs'|] eqn:Hl;
      simpl; [|done].
    intros [= <-]. destruct (IH _ _ Hl) as (r & -> & Hr).
    eexists. split; [done|]. simpl. by rewrite Hr.
Qed.

Lemma length_hash_level config L hs :
  hash_level config L = Some hs -> length hs = length L / 2.
Proof.
  unfold hash_level. intros H%length_mapM. by rewrite length_seq in H.
Qed.

(** The loop over the levels, for any body that hashes level [i] into
    level [i + 1] and balances it. *)
Lemma levels_loop config (body : nat -> nat -> M MerkleTree nat) :
  (forall i m L,
     nodes m !! i = Some L -> cfg m = config ->
     length L mod 2 = 0 -> 0 < length L -> i + 1 < length (nodes m) ->
     succ (body i (length L) m)
     = (λ hs, (length (dup_last hs),
               set_nodes (<[i + 1 := dup_last hs]> (nodes m)) m))
         <$> hash_level config L) ->
  forall k i0 m L,
    nodes m !! i0 = Some L -> cfg m = config ->
    length L mod 2 = 0 -> 0 < length L -> i0 + k < length (nodes m) ->
    succ (for_each (seq i0 k) body (length L) m)
    = (λ lvs, (length (default [] (last lvs)),
               set_nodes (take i0 (nodes m) ++ lvs
                          ++ drop (i0 + k + 1) (nodes m)) m))
        <$> levels_from config k L.
Proof.
  intros Hbody. induction k as [|k IH]; intros i0 m L HL Hcfg He Hpos Hlen.
  - simpl. do 2 f_equal. rewrite <- (set_nodes_id m) at 1. f_equal.
    replace (i0 + 0 + 1) with (S i0) by lia.
    by rewrite take_drop_middle.
  - simpl. rewrite succ_bind, Hbody by (done || lia).
    destruct (hash_level config L) as [hs|] eqn:Hhs; simpl; [|done].
    apply length_hash_level in Hhs.
    replace (S i0) with (i0 + 1) by lia.
    erewrite IH; cycle 1.
    + simpl. apply list_lookup_insert_eq. lia.
    + done.
    + apply dup_last_even.
    + rewrite length_dup_last. lia.
    + simpl. rewrite length_insert. lia.
    + destruct (levels_from config k (dup_last hs)) as [lvs|] eqn:Hl;
        simpl; [|done].
      destruct (levels_from_cons _ _ _ _ Hl) as (r & -> & Hr).
      simpl. rewrite set_nodes_twice. do 3 f_equal.
      rewrite take_insert_ge by lia.
      rewrite drop_insert_lt by lia.
      replace (i0 + 1) with (S i0) by lia.
      erewrite take_S_r by done. rewrite <- app_assoc. simpl.
      do 5 f_equal. lia.
Qed.

Lemma treeBuild_step_spec config i m L :
  nodes m !! i = Some L -> cfg m = config ->
  length L mod 2 = 0 -> 0 < length L -> i + 1 < length (nodes m) ->
  succ ((set_level (i + 1) (make [] (length L >> 1)) ;;;
         for_ (strided 0 (length L) 2) (fun j =>
             l <- node i j ;;
             r <- node i (j + 1) ;;
             h <- hashPair config l r ;;
             set_node (i + 1) (j >> 1) h) ;;;
         fixOdd_level (i + 1)) m)
  = (λ hs, (length (dup_last hs),
            set_nodes (<[i + 1 := dup_last hs]> (nodes m)) m))
      <$> hash_level config L.
Proof.
  intros HL Hcfg He Hpos Hlen.
  rewrite succ_bind, succ_set_level, decide_True by done. simpl.
  rewrite succ_bind.
  assert (strided 0 (length L) 2 = strided 0 (2 * (length L / 2)) 2) as ->
    by (f_equal; lia).
  erewrite (for_ext _ _ (treeBuild_pair (λ _, config) i)); [|done].
  rewrite shr1. unfold make.
  erewrite (treeBuild_level_seq (λ _, config) i); cycle 1.
  - done.
  - simpl. rewrite list_lookup_insert_ne by lia. done.
  - simpl. apply list_lookup_insert_eq. done.
  - by rewrite length_replicate.
  - fold (hash_level config L).
    destruct (hash_level config L) as [hs|] eqn:Hhs; simpl; [|done].
    apply length_hash_level in Hhs.
    rewrite drop_ge, app_nil_r by (rewrite length_replicate; lia).
    rewrite set_nodes_twice, list_insert_insert_eq.
    erewrite fixOdd_level_spec; cycle 1.
    { simpl. apply list_lookup_insert_eq. done. }
    simpl. by rewrite set_nodes_twice, list_insert_insert_eq.
Qed.

Lemma for_on_mt_const {I} (l : list I) (c : I -> M MerkleTree unit)
    (sh : poolShared) :
  for_ l (λ i, on_mt (c i)) sh = on_mt (for_ l c) sh.
Proof.
  revert sh. induction l as [|i l IH]; intros sh.
  - rewrite for_nil. unfold on_mt. rewrite for_nil. by destruct sh.
  - rewrite for_cons. unfold on_mt in *. rewrite for_cons.
    unfold bind.
    destruct (c i (mt sh)) as [[] m1| |]; [|done..].
    rewrite IH. done.
Qed.

Lemma succ_on_mt {A} (c : M MerkleTree A) sh :
  succ (on_mt c sh) = (λ '(a, m), (a, set_mt m sh)) <$> succ (c (mt sh)).
Proof. unfold on_mt. by destruct (c (mt sh)). Qed.

Lemma computeTreeNodeParallel_step_spec config (NR : Z) i m L :
  (1 <= NR)%Z ->
  nodes m !! i = Some L -> cfg m = config ->
  length L mod 2 = 0 -> 0 < length L -> i + 1 < length (nodes m) ->
  succ ((set_level (i + 1) (make [] (length L >> 1)) ;;;
         let numRoutines := Z.to_nat NR in
         let numRoutines :=
           if decide (length L < numRoutines) then length L
           else numRoutines in
         let argList :=
           (fun j => mkArgs (B := B) [] (j << 1) (length L)
                       (Z.to_nat NR) i 0)
             <$> seq 0 numRoutines in
         let* (errList, _, _) <-
           in_pool [] [] (pool_Map treeBuildHandler argList) ;;
         range_errList errList ;;;
         fixOdd_level (i + 1)) m)
  = (λ hs, (length (dup_last hs),
            set_nodes (<[i + 1 := dup_last hs]> (nodes m)) m))
      <$> hash_level config L.
Proof.
  intros HNR HL Hcfg He Hpos Hlen.
  rewrite succ_bind, succ_set_level, decide_True by done. simpl.
  set (W' := if decide (length L < Z.to_nat NR) then length L
             else Z.to_nat NR).
  set (m1 := set_nodes _ m).
  etrans; [apply (in_pool_range _ _ _ _ (λ _ _, fixOdd_level (i + 1)))|].
  rewrite for_fmap. unfold treeBuildHandler. simpl.
  erewrite for_ext; cycle 1.
  { intros j s _. rewrite !shl1. fold (treeBuild_pair cfg i).
    rewrite for_on_mt_const. reflexivity. }
  rewrite for_on_mt_const, succ_on_mt. simpl.
  rewrite (treeBuild_level_workers cfg i);
    [|done|lia|unfold W'; case_decide; lia|unfold W'; case_decide; lia].
  assert (strided 0 (length L) 2 = strided 0 (2 * (length L / 2)) 2) as ->
    by (f_equal; lia).
  unfold m1. rewrite shr1. unfold make.
  erewrite (treeBuild_level_seq cfg i); cycle 1.
  - done.
  - simpl. rewrite list_lookup_insert_ne by lia. done.
  - simpl. apply list_lookup_insert_eq. done.
  - by rewrite length_replicate.
  - simpl. rewrite Hcfg. fold (hash_level config L).
    destruct (hash_level config L) as [hs|] eqn:Hhs; simpl; [|done].
    apply length_hash_level in Hhs.
    rewrite drop_ge, app_nil_r by (rewrite length_replicate; lia).
    rewrite list_insert_insert_eq.
    erewrite fixOdd_level_spec; cycle 1.
    { simpl. apply list_lookup_insert_eq. done. }
    simpl. by rewrite set_nodes_twice, list_insert_insert_eq.
Qed.

(** *** Leaf generation *)

Lemma copy_make {A} (x : A) (l : list A) : copy (make x (length l)) l = l.
Proof.
  unfold copy, make. rewrite length_replicate, firstn_all.
  rewrite drop_ge by (by rewrite length_replicate). apply app_nil_r.
Qed.

Lemma succ_leafFromBlock {S} block config (s : S) :
  succ (leafFromBlock block config s)
  = (λ d, (d, s)) <$> leaf_digest config block.
Proof.
  unfold leafFromBlock, leaf_digest. destruct block as [b|]; simpl; [|done].
  destruct (Serialize b) as [e|x]; simpl; [done|].
  destruct (DisableLeafHashing config).
  - by rewrite copy_make.
  - unfold call_HashFunc. destruct (HashFunc config) as [h|]; simpl; [|done].
    by destruct (h x).
Qed.

Lemma mapM_seq_lookup {A C} (f : A -> option C) (l : list A) :
  mapM (λ i, l !! i ≫= f) (seq 0 (length l)) = mapM f l.
Proof.
  induction l as [|x l IH] using rev_ind; [done|].
  rewrite length_app. simpl. rewrite Nat.add_1_r, seq_S, !mapM_snoc. simpl.
  rewrite <- IH.
  erewrite (mapM_ext_elem _ (λ i, l !! i ≫= f)); cycle 1.
  { intros i Hi%elem_of_seq. by rewrite lookup_app_l by lia. }
  destruct (mapM _ (seq 0 (length l))); simpl; [|done].
  by rewrite list_lookup_middle.
Qed.

Lemma leafGen_spec (blocks : list (option B)) m :
  NumLeaves m = length blocks ->
  succ (leafGen blocks m) = (λ ls, (ls, m)) <$> leaves_of (cfg m) blocks.
Proof.
  intros Hn. unfold leafGen, leaves_of. rewrite succ_bind. simpl.
  rewrite Hn, <- mapM_seq_lookup.
  assert (forall k, k <= length blocks ->
    succ (for_each (seq 0 k) (fun i leaves =>
             block <- index blocks i ;;
             leaf <- leafFromBlock block (cfg m) ;;
             store leaves i leaf) (make [] (length blocks)) m)
    = (λ hs, (hs ++ drop k (make [] (length blocks)), m))
        <$> mapM (λ i, blocks !! i ≫= leaf_digest (cfg m)) (seq 0 k)) as Hk.
  { induction k as [|k IH]; intros Hk.
    - simpl. by rewrite drop_0.
    - rewrite seq_S, for_each_app, succ_bind, IH by lia.
      rewrite mapM_snoc. simpl.
      destruct (mapM _ (seq 0 k)) as [hs|] eqn:Hhs; simpl; [|done].
      assert (length hs = k) as Hlen.
      { apply length_mapM in Hhs. by rewrite length_seq in Hhs. }
      rewrite !succ_bind, succ_index.
      destruct (blocks !! k) as [block|]; simpl; [|done].
      rewrite succ_bind, succ_leafFromBlock.
      destruct (leaf_digest (cfg m) block) as [h|]; simpl; [|done].
      unfold make.
      rewrite store_lt
        by (rewrite length_app, length_drop, length_replicate; lia).
      simpl. do 2 f_equal.
      unfold bytes in *.
      rewrite insert_app_r_alt by lia. rewrite Hlen, Nat.sub_diag.
      rewrite <- app_assoc. f_equal.
      rewrite !drop_replicate.
      replace (length blocks - k) with (S (length blocks - S k)) by lia.
      done. }
  rewrite Hk by done.
  destruct (mapM _ (seq 0 (length blocks))) as [hs|]; simpl; [|done].
  unfold make. rewrite drop_replicate, Nat.sub_diag. simpl.
  by rewrite app_nil_r.
Qed.

Lemma strided_one n : strided 0 n 1 = (λ t, 1 * t) <$> seq 0 n.
Proof.
  rewrite strided_seq, Nat.sub_0_r. rewrite <- (list_fmap_id (seq 0 n)) at 1.
  apply list_fmap_ext. intros. simpl. lia.
Qed.

Lemma leafGen_slot_spec (blocks : list (option B)) t sh :
  succ (leafGen_slot blocks (1 * t) sh)
  = dst ← Some (byteField1 sh);
    h ← blocks !! t ≫= leaf_digest (cfg (mt sh));
    if decide (t < length dst)
    then Some (tt, set_byteField1 (<[t := h]> dst) sh) else None.
Proof.
  rewrite Nat.mul_1_l. unfold leafGen_slot. rewrite succ_bind. simpl.
  rewrite succ_bind, succ_index.
  destruct (blocks !! t) as [block|]; simpl; [|done].
  rewrite succ_bind, succ_leafFromBlock.
  destruct (leaf_digest (cfg (mt sh)) block) as [h|]; simpl; [|done].
  unfold bind, store. by case_decide.
Qed.

Lemma leafGenParallel_spec (blocks : list (option B)) m :
  (1 <= NumRoutines (cfg m))%Z -> 0 < length blocks ->
  succ (leafGenParallel blocks m)
  = (λ ls, (ls, m)) <$> leaves_of (cfg m) blocks.
Proof.
  intros HNR Hpos. unfold leafGenParallel, leaves_of.
  rewrite succ_bind. simpl.
  set (W := if decide (length blocks < Z.to_nat (NumRoutines (cfg m)))
            then length blocks else Z.to_nat (NumRoutines (cfg m))).
  assert (0 < W) as HW by (unfold W; case_decide; lia).
  etrans; [apply (in_pool_range _ _ _ _ (λ leaves _, ret leaves))|].
  rewrite for_fmap. unfold leafGenHandler. simpl.
  fold (leafGen_slot blocks).
  erewrite for_ext; cycle 1.
  { intros i s _.
    rewrite <- (Nat.mul_1_l i) at 1. rewrite <- (Nat.mul_1_l W).
    reflexivity. }
  rewrite (slot_loop_workers 1 (λ sh, Some (byteField1 sh)) set_byteField1
             (λ sh t, blocks !! t ≫= leaf_digest (cfg (mt sh))));
    try done; try lia;
    [| by intros d [] ?; simplify_eq | apply leafGen_slot_spec ].
  rewrite strided_one.
  rewrite (slot_loop_seq 1 (λ sh, Some (byteField1 sh)) set_byteField1
             (λ sh t, blocks !! t ≫= leaf_digest (cfg (mt sh)))
             (leafGen_slot blocks))
    with (dst := make [] (length blocks));
    try done; try lia;
    [| by intros d [] ?; simplify_eq | apply leafGen_slot_spec
     | unfold make; by rewrite length_replicate].
  simpl. rewrite mapM_seq_lookup.
  destruct (mapM _ blocks) as [hs|] eqn:Hhs; simpl; [|done].
  apply length_mapM in Hhs.
  unfold make. rewrite drop_replicate, Hhs, Nat.sub_diag. simpl.
  by rewrite app_nil_r.
Qed.

(** *** Proof records *)

Lemma initProofs_spec m :
  initProofs m
  = Ret tt (set_Proofs (replicate (NumLeaves m) (mkProof [] 0)) m).
Proof.
  unfold initProofs. rewrite (bind_Ret get _ m m m) by done.
  unfold put at 1. unfold bind at 1.
  rewrite (for_range_update _ (λ _, mkProof [] 0)).
  - simpl. rewrite set_Proofs_twice. do 2 f_equal.
    apply list_eq. intros i. rewrite list_lookup_imap.
    unfold make. destruct (replicate _ _ !! i) as [p|] eqn:Hp; simpl; [|done].
    apply lookup_replicate in Hp as [-> ?]. by case_decide.
  - intros i m0 p Hp. rewrite (bind_Ret get _ m0 m0 m0) by done.
    rewrite (bind_Ret _ _ _ _ _
               (store_lt _ _ _ _ (lookup_lt_Some _ _ _ Hp))).
    done.
  - simpl. unfold make. rewrite length_replicate. lia.
Qed.

Lemma lookup_record step lvs ps i :
  record step lvs ps !! i = walk step lvs i <$> ps !! i.
Proof.
  revert step ps. induction lvs as [|L lvs IH]; intros step ps; simpl.
  - by destruct (ps !! i).
  - rewrite IH, list_lookup_imap. by destruct (ps !! i).
Qed.

Lemma length_record step lvs ps : length (record step lvs ps) = length ps.
Proof.
  revert step ps. induction lvs as [|L lvs IH]; intros step ps; simpl;
    [done|]. by rewrite IH, length_imap.
Qed.

Lemma record_proofs_of lvs n :
  record 0 lvs (replicate n (mkProof [] 0)) = proofs_of lvs n.
Proof.
  apply list_eq. intros i. unfold proofs_of, proof_of.
  rewrite lookup_record, list_lookup_fmap.
  destruct (decide (i < n)) as [Hi|Hi].
  - rewrite lookup_replicate_2 by done. rewrite lookup_seq_lt by done. done.
  - rewrite (proj1 (lookup_replicate_None _ _ _)) by lia.
    rewrite lookup_seq_ge by lia. done.
Qed.

Lemma record_app step lvs1 lvs2 ps :
  record step (lvs1 ++ lvs2) ps
  = record (step + length lvs1) lvs2 (record step lvs1 ps).
Proof.
  revert step ps. induction lvs1 as [|L lvs1 IH]; intros step ps; simpl.
  - by rewrite Nat.add_0_r.
  - rewrite IH. f_equal. lia.
Qed.

(** Only the nodes of the level proper are read: what a buffer holds
    beyond them does not matter. *)
Lemma add_sibling_take step buf len ps :
  len mod 2 = 0 -> length ps <= len * 2 ^ step ->
  imap (add_sibling step buf) ps = imap (add_sibling step (take len buf)) ps.
Proof.
  intros He Hcov. apply list_eq. intros i. rewrite !list_lookup_imap.
  destruct (ps !! i) as [p|] eqn:Hp; simpl; [|done].
  apply lookup_lt_Some in Hp. f_equal. unfold add_sibling. simpl.
  assert (i / 2 ^ step < len)
    by (apply Nat.Div0.div_lt_upper_bound; lia).
  rewrite !list_lookup_total_alt.
  case_decide; rewrite lookup_take_lt by lia; done.
Qed.

(** *** The leaf index *)

Lemma leafMap_loop (idxs : list nat) m :
  (forall i, i ∈ idxs -> i < length (Leaves m)) ->
  for_ idxs (fun i =>
      m <- get ;;
      leaf <- index (Leaves m) i ;;
      put (set_leafMap (<[leaf := i]> (leafMap m)) m)) m
  = Ret tt (set_leafMap
              (foldl (λ mp i, <[Leaves m !!! i := i]> mp) (leafMap m) idxs) m).
Proof.
  revert m. induction idxs as [|i idxs IH]; intros m Hin.
  - rewrite for_nil. simpl. by destruct m.
  - rewrite for_cons.
    destruct (lookup_lt_is_Some_2 (Leaves m) i) as [leaf Hl];
      [apply Hin; left|].
    erewrite bind_Ret; cycle 1.
    { rewrite (bind_Ret get _ m m m) by done.
      rewrite (bind_Ret _ _ _ _ _ (index_Some _ _ _ _ Hl)). done. }
    rewrite IH by (intros; apply Hin; by right).
    simpl. by rewrite (list_lookup_total_correct _ _ _ Hl).
Qed.

(** *** [treeBuild] *)

Lemma setRoot_spec level m :
  succ (setRoot level m)
  = (l ← level !! 0; r ← level !! 1; pair_digest (cfg m) l r)
    ≫= λ root, Some (tt, set_Root root m).
Proof.
  unfold setRoot. rewrite succ_bind. simpl. rewrite succ_bind, succ_index.
  destruct (level !! 0) as [l|]; simpl; [|done].
  rewrite succ_bind, succ_index.
  destruct (level !! 1) as [r|]; simpl; [|done].
  rewrite succ_bind, succ_hashPair.
  by destruct (pair_digest (cfg m) l r).
Qed.

Lemma levels_loop_all config (body : nat -> nat -> M MerkleTree nat) m L :
  (forall i m L,
     nodes m !! i = Some L -> cfg m = config ->
     length L mod 2 = 0 -> 0 < length L -> i + 1 < length (nodes m) ->
     succ (body i (length L) m)
     = (λ hs, (length (dup_last hs),
               set_nodes (<[i + 1 := dup_last hs]> (nodes m)) m))
         <$> hash_level config L) ->
  nodes m !! 0 = Some L -> cfg m = config ->
  length L mod 2 = 0 -> 0 < length L -> length (nodes m) = Depth m ->
  succ (for_each (seq 0 (Depth m - 1)) body (length L) m)
  = (λ lvs, (length (default [] (last lvs)), set_nodes lvs m))
      <$> levels_from config (Depth m - 1) L.
Proof.
  intros Hbody HL Hcfg He Hpos Hlen.
  assert (0 < length (nodes m)) by (by eapply lookup_lt_Some).
  rewrite (levels_loop config body Hbody) by (done || lia).
  destruct (levels_from config (Depth m - 1) L); simpl; [|done].
  rewrite drop_ge by lia. by rewrite app_nil_r.
Qed.

Lemma computeTreeNodeParallel_spec m L :
  (1 <= NumRoutines (cfg m))%Z ->
  nodes m !! 0 = Some L ->
  length L mod 2 = 0 -> 0 < length L -> length (nodes m) = Depth m ->
  succ (computeTreeNodeParallel (B := B) (length L) m)
  = (λ lvs, (tt, set_nodes lvs m)) <$> levels_from (cfg m) (Depth m - 1) L.
Proof.
  intros HNR HL He Hpos Hlen. unfold computeTreeNodeParallel.
  rewrite succ_bind. simpl. rewrite succ_bind.
  rewrite (levels_loop_all (cfg m)); try done.
  - by destruct (levels_from (cfg m) (Depth m - 1) L).
  - intros i m' L' ? ? ? ? ?.
    by apply computeTreeNodeParallel_step_spec.
Qed.

Lemma treeBuild_spec m :
  NumLeaves m = length (Leaves m) -> 0 < NumLeaves m -> 0 < Depth m ->
  leafMap m = ∅ ->
  (RunInParallel (cfg m) = true -> (1 <= NumRoutines (cfg m))%Z) ->
  succ (treeBuild (B := B) m)
  = lv ← tree_levels (cfg m) (Depth m) (Leaves m);
    root ← tree_root (cfg m) lv;
    Some (tt, set_Root root
                (set_nodes lv (set_leafMap (leaf_index (Leaves m)) m))).
Proof.
  intros Hn Hpos HD Hmap HNR. unfold treeBuild.
  rewrite (bind_Ret get _ m m m) by done.
  erewrite bind_Ret; cycle 1.
  { apply leafMap_loop. intros i Hi%elem_of_seq. lia. }
  rewrite Hmap, Hn. fold (leaf_index (Leaves m)).
  set (m1 := set_leafMap _ m).
  unfold modify at 1. unfold bind at 1. unfold make.
  rewrite succ_bind, succ_set_level. simpl.
  rewrite length_replicate, decide_True by done. simpl.
  rewrite succ_bind, succ_set_level. simpl.
  rewrite length_insert, length_replicate, decide_True by done. simpl.
  rewrite list_insert_insert_eq.
  replace (copy _ (Leaves m)) with (Leaves m)
    by (symmetry; apply (copy_make [] (Leaves m))).
  rewrite succ_bind, succ_bind. simpl.
  rewrite succ_index. simpl.
  rewrite list_lookup_insert_eq by (by rewrite length_replicate).
  simpl. rewrite succ_bind, fixOdd_full. simpl.
  rewrite succ_bind, succ_set_level. simpl.
  rewrite length_insert, length_replicate, decide_True by done. simpl.
  rewrite list_insert_insert_eq, !set_nodes_twice.
  set (L0 := dup_last (Leaves m)).
  set (m2 := set_nodes _ m1).
  assert (nodes m2 !! 0 = Some L0) as HL0.
  { simpl. apply list_lookup_insert_eq. by rewrite length_replicate. }
  assert (length (nodes m2) = Depth m2) as Hlen2.
  { simpl. by rewrite length_insert, length_replicate. }
  assert (length L0 mod 2 = 0) as He0 by apply dup_last_even.
  assert (0 < length L0) as Hp0
    by (unfold L0; rewrite length_dup_last; lia).
  assert (forall m' : MerkleTree,
    nodes m' !! 0 = Some L0 -> cfg m' = cfg m -> Depth m' = Depth m ->
    length (nodes m') = Depth m' ->
    succ ((_ <- for_each (seq 0 (Depth m - 1)) (fun i prevLen =>
               set_level (i + 1) (make [] (prevLen >> 1)) ;;;
               for_ (strided 0 prevLen 2) (fun j =>
                   l <- node i j ;;
                   r <- node i (j + 1) ;;
                   h <- hashPair (cfg m) l r ;;
                   set_node (i + 1) (j >> 1) h) ;;;
               fixOdd_level (i + 1)) (length L0) ;;
           level <- (m0 <- get ;; index (nodes m0) (Depth m0 - 1)) ;;
           setRoot level) m')
    = lv ← levels_from (cfg m) (Depth m - 1) L0;
      root ← tree_root (cfg m) lv;
      Some (tt, set_Root root (set_nodes lv m'))) as Hseq.
  { intros m' HL' Hc' HD' Hlen'. rewrite succ_bind. rewrite <- HD'.
    rewrite (levels_loop_all (cfg m)); try done; cycle 1.
    { intros i m0 L ? ? ? ? ?. by apply treeBuild_step_spec. }
    rewrite HD'.
    destruct (levels_from (cfg m) (Depth m - 1) L0) as [lv|] eqn:Hlv;
      simpl; [|done].
    destruct (levels_from_cons _ _ _ _ Hlv) as (r & -> & Hr).
    rewrite succ_bind, succ_bind. simpl.
    rewrite succ_index. unfold tree_root.
    rewrite last_lookup_length. simpl. rewrite Hr, HD', Nat.sub_0_r.
    destruct ((L0 :: r) !! (Depth m - 1)) as [top|]; simpl; [|done].
    rewrite setRoot_spec. simpl. rewrite Hc'. done. }
  unfold tree_levels. fold L0.
  destruct (RunInParallel (cfg m)) eqn:Hpar.
  - rewrite succ_bind, computeTreeNodeParallel_spec by auto.
    simpl. change (Depth m2) with (Depth m).
    destruct (levels_from (cfg m) (Depth m - 1) L0) as [lv|] eqn:Hlv;
      simpl; [|done].
    destruct (levels_from_cons _ _ _ _ Hlv) as (r & -> & Hr).
    rewrite Hseq; simpl; try done.
    rewrite Hr. lia.
  - rewrite succ_bind. simpl. rewrite Hseq by done. done.
Qed.

(** *** The streamed construction ([proofGen]) *)

(** The loop over the steps, for any loop state [St] that holds the current
    level in the first [lenOf] slots of the buffer [bufOf], and any body
    that hashes the level, balances the result and records it. *)
Section streamed.

Context {St : Type} (bufOf : St -> list bytes) (lenOf : St -> nat).
Context (Inv : St -> Prop).
Context (config : Config) (body : nat -> St -> M MerkleTree St).

Hypothesis body_ok : forall step st m L,
  Inv st -> take (lenOf st) (bufOf st) = L -> lenOf st = length L ->
  length L mod 2 = 0 -> 0 < length L -> cfg m = config ->
  length (Proofs m) <= length L * 2 ^ step ->
  match hash_level config L with
  | Some hs =>
      exists st',
        succ (body (S step) st m)
        = Some (st', set_Proofs
                       (imap (add_sibling (S step) (dup_last hs)) (Proofs m))
                       m)
        /\ Inv st'
        /\ take (lenOf st') (bufOf st') = dup_last hs
        /\ lenOf st' = length (dup_last hs)
  | None => succ (body (S step) st m) = None
  end.

Lemma streamed_loop k : forall c st m L,
  Inv st -> take (lenOf st) (bufOf st) = L -> lenOf st = length L ->
  length L mod 2 = 0 -> 0 < length L -> cfg m = config ->
  length (Proofs m) <= length L * 2 ^ c ->
  match levels_from config k L with
  | Some lvs =>
      exists st',
        succ (for_each (seq (S c) k) body st m)
        = Some (st', set_Proofs (record (S c) (tail lvs) (Proofs m)) m)
        /\ take (lenOf st') (bufOf st') = default [] (last lvs)
        /\ lenOf st' = length (default [] (last lvs))
        /\ lenOf st' mod 2 = 0 /\ 0 < lenOf st'
  | None => succ (for_each (seq (S c) k) body st m) = None
  end.
Proof using body_ok.
  induction k as [|k IH]; intros c st m L HI Ht Hl He Hp Hc Hcov.
  - simpl. exists st. rewrite set_Proofs_id. split_and!; (done || lia).
  - simpl. rewrite succ_bind.
    pose proof (body_ok c st m L HI Ht Hl He Hp Hc Hcov) as Hb.
    destruct (hash_level config L) as [hs|] eqn:Hhs; simpl;
      [|by rewrite Hb].
    destruct Hb as (st1 & Hb & HI1 & Ht1 & Hl1).
    rewrite Hb. simpl.
    apply length_hash_level in Hhs.
    set (m1 := set_Proofs _ m).
    assert (length (Proofs m1) <= length (dup_last hs) * 2 ^ S c) as Hcov1.
    { simpl. rewrite length_imap, length_dup_last, Nat.pow_succ_r'. nia. }
    pose proof (IH (S c) st1 m1 (dup_last hs) HI1 Ht1 Hl1
                  (dup_last_even hs)
                  ltac:(rewrite length_dup_last; lia) Hc Hcov1) as Hr.
    destruct (levels_from config k (dup_last hs)) as [lvs|] eqn:Hlv;
      simpl; [|done].
    destruct Hr as (st' & Hr & ?). exists st'. split; [|].
    + rewrite Hr. destruct (levels_from_cons _ _ _ _ Hlv) as (r & -> & _).
      done.
    + destruct (levels_from_cons _ _ _ _ Hlv) as (r & -> & _). done.
Qed.

End streamed.

Lemma hash_level_take config buf prevLen :
  prevLen <= length buf ->
  mapM (pair_at config buf) (seq 0 (prevLen / 2))
  = hash_level config (take prevLen buf).
Proof.
  intros Hle. unfold hash_level. rewrite length_take_le by done.
  apply mapM_ext_elem. intros j Hj%elem_of_seq.
  symmetry. apply pair_at_take. lia.
Qed.

Lemma take_length_le {A} (l k : list A) n :
  take n l = k -> n = length k -> n <= length l.
Proof. intros <- Hn. rewrite length_take in Hn. lia. Qed.

(** After a level has been hashed and balanced in a buffer, recording it:
    the common end of the sequential and the parallel step. *)
Lemma record_step {St} (fin : list bytes -> nat -> St)
    (update : list bytes -> nat -> nat -> M MerkleTree unit)
    buf1 hs step m (L : list bytes) :
  (forall buf bufLen,
     0 < bufLen -> bufLen + bufLen mod 2 <= length buf ->
     length (Proofs m) <= (bufLen + bufLen mod 2) * 2 ^ S step ->
     update buf bufLen (S step) m
     = Ret tt (set_Proofs (imap (add_sibling (S step) buf) (Proofs m)) m)) ->
  take (length hs) buf1 = hs -> length hs <= length buf1 ->
  length hs = length L / 2 -> length L mod 2 = 0 -> 0 < length L ->
  length (Proofs m) <= length L * 2 ^ step ->
  exists buf2,
    succ ((let* (buf, prevLen) <- fixOdd buf1 (length hs) ;;
           update buf prevLen (S step) ;;;
           ret (fin buf prevLen)) m)
    = Some (fin buf2 (length (dup_last hs)),
            set_Proofs (imap (add_sibling (S step) (dup_last hs)) (Proofs m))
              m)
    /\ take (length (dup_last hs)) buf2 = dup_last hs
    /\ length buf1 <= length buf2.
Proof.
  intros Hupd Ht Hle Hhs He Hp Hcov.
  destruct (fixOdd_prefix buf1 (length hs) m Hle) as (buf2 & Hf & Ht2 & Hl2).
  rewrite Ht in *. exists buf2. split; [|done].
  rewrite succ_bind, Hf. simpl.
  pose proof (dup_last_even hs) as He2.
  pose proof (length_dup_last hs) as Hd.
  pose proof (take_length_le _ _ _ Ht2 eq_refl) as Hle2.
  rewrite succ_bind, Hupd; [| lia | lia |]; cycle 1.
  { rewrite Nat.pow_succ_r'. nia. }
  simpl. do 3 f_equal.
  rewrite (add_sibling_take _ buf2 (length (dup_last hs))); [by rewrite Ht2|done|].
  rewrite Nat.pow_succ_r'. nia.
Qed.

Lemma proofGen_body_ok config step (st : list bytes * nat) m L :
  take st.2 st.1 = L -> st.2 = length L ->
  length L mod 2 = 0 -> 0 < length L -> cfg m = config ->
  length (Proofs m) <= length L * 2 ^ step ->
  match hash_level config L with
  | Some hs =>
      exists st',
        succ ((fun step '(buf, prevLen) =>
                 buf <- for_each (strided 0 prevLen 2) (fun idx buf =>
                          l <- index buf idx ;;
                          r <- index buf (idx + 1) ;;
                          h <- hashPair config l r ;;
                          store buf (idx >> 1) h) buf ;;
                 let prevLen := prevLen >> 1 in
                 let* (buf, prevLen) <- fixOdd buf prevLen ;;
                 updateProofs buf prevLen step ;;;
                 ret (buf, prevLen)) (S step) st m)
        = Some (st', set_Proofs
                       (imap (add_sibling (S step) (dup_last hs)) (Proofs m))
                       m)
        /\ True
        /\ take st'.2 st'.1 = dup_last hs
        /\ st'.2 = length (dup_last hs)
  | None =>
      succ ((fun step '(buf, prevLen) =>
               buf <- for_each (strided 0 prevLen 2) (fun idx buf =>
                        l <- index buf idx ;;
                        r <- index buf (idx + 1) ;;
                        h <- hashPair config l r ;;
                        store buf (idx >> 1) h) buf ;;
               let prevLen := prevLen >> 1 in
               let* (buf, prevLen) <- fixOdd buf prevLen ;;
               updateProofs buf prevLen step ;;;
               ret (buf, prevLen)) (S step) st m) = None
  end.
Proof.
  destruct st as [buf prevLen]. simpl. intros Ht Hl He Hp Hc Hcov.
  pose proof (take_length_le _ _ _ Ht Hl) as Hle.
  rewrite succ_bind.
  assert (strided 0 prevLen 2 = strided 0 (2 * (prevLen / 2)) 2) as ->
    by (f_equal; lia).
  rewrite hash_inplace by lia.
  rewrite hash_level_take, Ht by done.
  destruct (hash_level config L) as [hs|] eqn:Hhs; simpl; [|done].
  apply length_hash_level in Hhs.
  rewrite shr1, Hl, <- Hhs.
  destruct (record_step pair updateProofs (hs ++ drop (length hs) buf)
              hs step m L)
    as (buf2 & Hr & Ht2 & _); try done.
  - intros. by apply updateProofs_spec.
  - by rewrite take_app_length.
  - rewrite length_app. lia.
  - exists (buf2, length (dup_last hs)). simpl. by rewrite Hr.
Qed.

Lemma proofGenParallel_body_ok config step
    (st : list bytes * list bytes * nat * nat) m L :
  (1 <= NumRoutines config)%Z ->
  (st.1.2 / 2 <= length st.1.1.2 /\ 0 < st.2) ->
  take st.1.2 st.1.1.1 = L -> st.1.2 = length L ->
  length L mod 2 = 0 -> 0 < length L -> cfg m = config ->
  length (Proofs m) <= length L * 2 ^ step ->
  match hash_level config L with
  | Some hs =>
      exists st',
        succ ((fun step '(buf, buff, prevLen, numRoutines) =>
                 let numRoutines :=
                   if decide (prevLen < numRoutines) then prevLen
                   else numRoutines in
                 let argList :=
                   (fun i => mkArgs (B := B) [] (i << 1) prevLen numRoutines
                               0 0)
                     <$> seq 0 numRoutines in
                 let* (errList, buf, buff) <-
                   in_pool buf buff (pool_Map proofGenHandler argList) ;;
                 range_errList errList ;;;
                 let '(buf, buff) := (buff, buf) in
                 let prevLen := prevLen >> 1 in
                 let* (buf, prevLen) <- fixOdd buf prevLen ;;
                 updateProofsParallel (B := B) buf prevLen step ;;;
                 ret (buf, buff, prevLen, numRoutines)) (S step) st m)
        = Some (st', set_Proofs
                       (imap (add_sibling (S step) (dup_last hs)) (Proofs m))
                       m)
        /\ (st'.1.2 / 2 <= length st'.1.1.2 /\ 0 < st'.2)
        /\ take st'.1.2 st'.1.1.1 = dup_last hs
        /\ st'.1.2 = length (dup_last hs)
  | None =>
      succ ((fun step '(buf, buff, prevLen, numRoutines) =>
               let numRoutines :=
                 if decide (prevLen < numRoutines) then prevLen
                 else numRoutines in
               let argList :=
                 (fun i => mkArgs (B := B) [] (i << 1) prevLen numRoutines
                             0 0)
                   <$> seq 0 numRoutines in
               let* (errList, buf, buff) <-
                 in_pool buf buff (pool_Map proofGenHandler argList) ;;
               range_errList errList ;;;
               let '(buf, buff) := (buff, buf) in
               let prevLen := prevLen >> 1 in
               let* (buf, prevLen) <- fixOdd buf prevLen ;;
               updateProofsParallel (B := B) buf prevLen step ;;;
               ret (buf, buff, prevLen, numRoutines)) (S step) st m) = None
  end.
Proof.
  destruct st as [[[bufA buffA] pl] W0]. simpl.
  intros HNR [Hbuff HW0] Ht Hl He Hp Hc Hcov.
  pose proof (take_length_le _ _ _ Ht Hl) as Hle.
  assert (exists k', pl = 2 * k') as [k' ->] by (exists (pl / 2); lia).
  assert (2 * k' / 2 = k') as Hk by lia.
  set (W := if decide (2 * k' < W0) then 2 * k' else W0).
  assert (0 < W) as HW by (unfold W; case_decide; lia).
  set (k := λ b1 b2 : list bytes,
         let* (buf, prevLen) <- fixOdd b2 ((2 * k') >> 1) ;;
         updateProofsParallel (B := B) buf prevLen (S step) ;;;
         ret (buf, b1, prevLen, W)).
  assert (succ (for_ ((λ i, mkArgs (B := B) [] (i << 1) (2 * k') W 0 0)
                        <$> seq 0 W) proofGenHandler (mkShared m bufA buffA))
          = (λ hs, (tt, mkShared m bufA (hs ++ drop k' buffA)))
              <$> hash_level config L) as Hpool.
  { rewrite <- Ht, <- hash_level_take, <- Hc, Hk by done.
    apply proofGen_pool_spec; lia. }
  destruct (hash_level config L) as [hs|] eqn:Hhs; simpl in *.
  - apply length_hash_level in Hhs.
    assert (length hs = k') as Hhk by lia.
    destruct (record_step (λ b p, (b, bufA, p, W))
                (updateProofsParallel (B := B))
                (hs ++ drop (length hs) buffA) hs step m L)
      as (buf2 & Hr & Ht2 & Hl2); try done.
    + intros. apply updateProofsParallel_spec; (done || by rewrite Hc).
    + by rewrite take_app_length.
    + rewrite length_app. lia.
    + exists (buf2, bufA, length (dup_last hs), W). simpl.
      split_and!; try done.
      * etrans; [apply (in_pool_range _ _ _ _ k)|].
        rewrite Hpool. simpl. unfold k. rewrite shr1, Hk, <- Hhk. apply Hr.
      * pose proof (length_dup_last hs). lia.
  - etrans; [apply (in_pool_range _ _ _ _ k)|]. by rewrite Hpool.
Qed.

Lemma setRoot_take buf len top m :
  take len buf = top -> len = length top -> len mod 2 = 0 -> 0 < len ->
  succ (setRoot buf m)
  = (l ← top !! 0; r ← top !! 1; pair_digest (cfg m) l r)
    ≫= λ root, Some (tt, set_Root root m).
Proof.
  intros <- Hlen He Hp. rewrite setRoot_spec.
  by rewrite !lookup_take_lt by lia.
Qed.

Lemma tree_root_last config lvs top :
  last lvs = Some top ->
  tree_root config lvs = (l ← top !! 0; r ← top !! 1; pair_digest config l r).
Proof. unfold tree_root. by intros ->. Qed.

Lemma proofGen_spec m :
  NumLeaves m = length (Leaves m) -> 0 < NumLeaves m -> 0 < Depth m ->
  (RunInParallel (cfg m) = true -> (1 <= NumRoutines (cfg m))%Z) ->
  succ (proofGen (B := B) m)
  = lv ← tree_levels (cfg m) (Depth m) (Leaves m);
    root ← tree_root (cfg m) lv;
    Some (tt, set_Root root (set_Proofs (proofs_of lv (NumLeaves m)) m)).
Proof.
  intros Hn Hpos HD HNR. unfold proofGen.
  rewrite (bind_Ret _ _ _ _ _ (initProofs_spec m)).
  set (ps0 := replicate (NumLeaves m) (mkProof [] 0)).
  set (m0 := set_Proofs ps0 m).
  rewrite (bind_Ret get _ m0 m0 m0) by done.
  change (NumLeaves m0) with (NumLeaves m).
  change (Leaves m0) with (Leaves m).
  change (cfg m0) with (cfg m).
  change (Depth m0) with (Depth m).
  cbv zeta.
  replace (copy (make [] (NumLeaves m)) (Leaves m)) with (Leaves m)
    by (rewrite Hn; symmetry; apply copy_make).
  assert (fixOdd (S := MerkleTree) (Leaves m) (NumLeaves m) m0
          = Ret (dup_last (Leaves m), length (dup_last (Leaves m))) m0)
    as Hfix by (rewrite Hn; apply fixOdd_full).
  rewrite (bind_Ret _ _ _ _ _ Hfix). clear Hfix.
  set (L0 := dup_last (Leaves m)).
  assert (length L0 mod 2 = 0) as He0 by apply dup_last_even.
  assert (length L0 = NumLeaves m + NumLeaves m mod 2) as HlL0
    by (unfold L0; rewrite length_dup_last; lia).
  assert (length ps0 = NumLeaves m) as Hps0
    by (unfold ps0; by rewrite length_replicate).
  unfold tree_levels. fold L0.
  set (m1 := set_Proofs (imap (add_sibling 0 L0) ps0) m).
  assert (forall {St} (bufOf : St -> list bytes) (lenOf : St -> nat)
            (loop : M MerkleTree St) (k : St -> M MerkleTree unit),
    (forall st m', k st m' = setRoot (bufOf st) m') ->
    match levels_from (cfg m) (Depth m - 1) L0 with
    | Some lvs =>
        exists st',
          succ (loop m1)
          = Some (st', set_Proofs (record 1 (tail lvs) (Proofs m1)) m1)
          /\ take (lenOf st') (bufOf st') = default [] (last lvs)
          /\ lenOf st' = length (default [] (last lvs))
          /\ lenOf st' mod 2 = 0 /\ 0 < lenOf st'
    | None => succ (loop m1) = None
    end ->
    succ (bind loop k m1)
    = lv ← levels_from (cfg m) (Depth m - 1) L0;
      root ← tree_root (cfg m) lv;
      Some (tt, set_Root root (set_Proofs (proofs_of lv (NumLeaves m)) m)))
    as Hend.
  { intros St bufOf lenOf loop k Hk Hloop. rewrite succ_bind.
    destruct (levels_from (cfg m) (Depth m - 1) L0) as [lvs|] eqn:Hlv;
      simpl; [|by rewrite Hloop].
    destruct Hloop as (st' & -> & Ht & Hl & He & Hp). simpl.
    destruct (levels_from_cons _ _ _ _ Hlv) as (r & -> & Hr).
    assert (last (L0 :: r) = Some (default [] (last (L0 :: r)))) as Hlast.
    { rewrite last_lookup_length. simpl. rewrite Nat.sub_0_r.
      destruct (lookup_lt_is_Some_2 (L0 :: r) (length r)) as [x Hx];
        [simpl; lia|]. by rewrite Hx. }
    rewrite Hk, (setRoot_take _ _ _ _ Ht Hl He Hp).
    rewrite (tree_root_last _ _ _ Hlast). simpl.
    unfold m1. rewrite <- (record_proofs_of (L0 :: r)). done. }
  destruct (RunInParallel (cfg m)) eqn:Hpar.
  - unfold proofGenParallel.
    rewrite (bind_Ret get _ m0 m0 m0) by done.
    change (NumLeaves m0) with (NumLeaves m).
    change (cfg m0) with (cfg m).
    change (Depth m0) with (Depth m).
    cbv zeta.
    rewrite (bind_Ret _ _ _ _ _
               (updateProofsParallel_spec L0 (NumLeaves m) 0 m0
                  (HNR eq_refl) Hpos ltac:(lia)
                  ltac:(simpl; rewrite Hps0; lia))).
    fold m1.
    apply (Hend _ (λ st, st.1.1.1) (λ st, st.1.2));
      [by intros [[[??]?]?] ?|].
    apply (streamed_loop (λ st, st.1.1.1) (λ st, st.1.2)
             (λ st, st.1.2 / 2 <= length st.1.1.2 /\ 0 < st.2) (cfg m));
      simpl; try done.
    + intros. apply proofGenParallel_body_ok; auto.
    + unfold make. rewrite length_replicate, shr1. split; [done|].
      specialize (HNR eq_refl). lia.
    + by rewrite firstn_all.
    + lia.
    + rewrite length_imap, Hps0. lia.
  - rewrite (bind_Ret _ _ _ _ _
               (updateProofs_spec L0 (NumLeaves m) 0 m0
                  ltac:(lia) ltac:(simpl; rewrite Hps0; lia))).
    fold m1.
    apply (Hend _ fst snd); [by intros [??] ?|].
    apply (streamed_loop fst snd (λ _, True) (cfg m)); simpl; try done.
    + intros. apply proofGen_body_ok; auto.
    + by rewrite firstn_all.
    + lia.
    + rewrite length_imap, Hps0. lia.
Qed.

(** *** Recording the levels of a retained tree *)

Lemma levels_cover config n k : forall c L lvs,
  levels_from config k L = Some lvs ->
  length L mod 2 = 0 -> 0 < length L -> n <= length L * 2 ^ c ->
  forall j L', lvs !! j = Some L' ->
    length L' mod 2 = 0 /\ 0 < length L' /\ n <= length L' * 2 ^ (c + j).
Proof.
  induction k as [|k IH]; intros c L lvs Hlv He Hp Hcov j L' Hj; simpl in Hlv.
  - simplify_eq. destruct j as [|j]; simpl in Hj; [|done]. simplify_eq.
    by rewrite Nat.add_0_r.
  - destruct (hash_level config L) as [hs|] eqn:Hhs; simpl in Hlv; [|done].
    destruct (levels_from config k (dup_last hs)) as [lvs'|] eqn:Hl;
      simpl in Hlv; [|done].
    simplify_eq. apply length_hash_level in Hhs.
    destruct j as [|j]; simpl in Hj.
    + simplify_eq. by rewrite Nat.add_0_r.
    + replace (c + S j) with (S c + j) by lia.
      eapply (IH (S c)); try done.
      * apply dup_last_even.
      * rewrite length_dup_last. lia.
      * rewrite length_dup_last, Nat.pow_succ_r'. nia.
Qed.

Lemma record_loop (update : list bytes -> nat -> nat -> M MerkleTree unit)
    (all : list (list bytes)) n config :
  (forall m buf step,
     cfg m = config -> length (Proofs m) = n ->
     length buf mod 2 = 0 -> 0 < length buf ->
     n <= length buf * 2 ^ step ->
     update buf (length buf) step m
     = Ret tt (set_Proofs (imap (add_sibling step buf) (Proofs m)) m)) ->
  forall lvs pre m,
    all = pre ++ lvs -> cfg m = config -> length (Proofs m) = n ->
    (forall j L, lvs !! j = Some L ->
       length L mod 2 = 0 /\ 0 < length L
       /\ n <= length L * 2 ^ (length pre + j)) ->
    for_ (seq (length pre) (length lvs)) (fun i =>
        level <- index all i ;;
        update level (length level) i) m
    = Ret tt (set_Proofs (record (length pre) lvs (Proofs m)) m).
Proof.
  intros Hupd. induction lvs as [|L lvs IH]; intros pre m Hall Hc Hn Hlv.
  - simpl. rewrite for_nil. by rewrite set_Proofs_id.
  - simpl. rewrite for_cons.
    destruct (Hlv 0 L eq_refl) as (He & Hp & Hcov).
    rewrite Nat.add_0_r in Hcov.
    erewrite bind_Ret; cycle 1.
    { erewrite bind_Ret; [by apply Hupd|].
      apply index_Some. rewrite Hall. by apply list_lookup_middle. }
    specialize (IH (pre ++ [L]) (set_Proofs
                     (imap (add_sibling (length pre) L) (Proofs m)) m)).
    rewrite length_app in IH. simpl in IH.
    rewrite Nat.add_1_r in IH. rewrite IH.
    + by rewrite set_Proofs_twice.
    + by rewrite <- app_assoc.
    + done.
    + by rewrite length_imap.
    + intros j L' Hj. specialize (Hlv (S j) L' Hj).
      by replace (length pre + S j) with (S (length pre + j)) in Hlv by lia.
Qed.

End Parallel.

(** ** [New]: what a successful construction returns *)

Section New.

Context {B : Type} `{!DataBlock B}.
Context (DefaultHashFunc DefaultHashFuncParallel : TypeHashFunc).
Context (runtime_NumCPU : positive).

#[local] Abbreviation New' :=
  (New DefaultHashFunc DefaultHashFuncParallel runtime_NumCPU).
#[local] Abbreviation normalize' :=
  (normalize DefaultHashFunc DefaultHashFuncParallel runtime_NumCPU).

Lemma bits_Len_pos x : 0 < x -> 0 < bits_Len x.
Proof.
  intros Hx. unfold bits_Len. destruct (N.of_nat x) as [|p] eqn:Hp; [lia|].
  simpl. destruct p; simpl; lia.
Qed.

Lemma normalize_NumRoutines config :
  RunInParallel (normalize' config) = true ->
  (1 <= NumRoutines (normalize' config))%Z.
Proof.
  unfold normalize.
  destruct (default new_Config config) as [cf hf nr md par ssp dlh].
  destruct cf, hf, par; simpl; try done; case_decide; simpl; lia.
Qed.

(** [New] up to the point where the leaves are generated. *)
Lemma New_unfold config (blocks : list (option B)) :
  New' config blocks
  = if decide (length blocks <= 1)
    then Returned (None, Some (errors_New ErrInvalidNumOfDataBlocks))
    else
      let m := mkMerkleTree (normalize' config) ∅ [] [] [] []
                 (bits_Len (length blocks - 1)) (length blocks) in
      match (if RunInParallel (cfg m)
             then leafGenParallel blocks else leafGen blocks) m with
      | Panic => Panicked
      | Fail e _ => Returned (None, Some e)
      | Ret leaves m =>
          let m := set_Leaves leaves m in
          if decide (Mode (cfg m) = ModeProofGen)
          then named_results (proofGen (B := B)) m
          else
            let m := set_leafMap ∅ m in
            if decide (Mode (cfg m) = ModeTreeBuild)
            then named_results (treeBuild (B := B)) m
            else if decide (Mode (cfg m) = ModeProofGenAndTreeBuild)
            then
              named_results
                (treeBuild (B := B) ;;;
                 initProofs ;;;
                 m <- get ;;
                 if RunInParallel (cfg m)
                 then for_ (seq 0 (length (nodes m))) (fun i =>
                          level <- index (nodes m) i ;;
                          updateProofsParallel (B := B) level
                            (length level) i)
                 else for_ (seq 0 (length (nodes m))) (fun i =>
                          level <- index (nodes m) i ;;
                          updateProofs level (length level) i))
                m
            else Returned (None, Some (errors_New ErrInvalidConfigMode))
      end.
Proof.
  unfold New, normalize.
  case_decide; [done|].
  destruct (default new_Config config) as [cf hf nr md par ssp dlh].
  assert (forall (m : MerkleTree),
            (if decide (Mode (cfg m) = 0%Z)
             then set_cfg (set_Mode ModeProofGen (cfg m)) m else m) = m)
    as Hmode.
  { intros [[] ? ? ? ? ? ? ?]. simpl. case_decide; [|done].
    simpl in *. by subst. }
  destruct cf, hf, par, ssp; simpl; repeat case_decide;
    unfold set_cfg, set_HashFunc, set_concatFunc, set_NumRoutines; simpl;
    try lia;
    match goal with
    | |- context [match ?X with Ret _ _ => _ | _ => _ end] =>
        destruct X as [leaves [[] ? ? ? ? ? ? ?]| |]; [|done..]
    end;
    unfold set_cfg, set_Mode, set_Leaves, set_leafMap; simpl;
    repeat case_decide; simpl in *; subst; try done.
Qed.

Lemma built_named_results (c : M MerkleTree unit) m :
  built (named_results c m) = snd <$> succ (c m).
Proof. unfold named_results. by destruct (c m). Qed.

Lemma leaves_of_length config (blocks : list (option B)) leaves :
  leaves_of config blocks = Some leaves -> length leaves = length blocks.
Proof. unfold leaves_of. intros H%length_mapM. done. Qed.

(** The refinement theorem: [New] returns a tree and no error exactly when
    the construction described by [tree_of] exists, and then returns that
    tree. *)
Theorem New_built config (blocks : list (option B)) :
  built (New' config blocks) = tree_of (normalize' config) blocks.
Proof.
  rewrite New_unfold. unfold tree_of. case_decide as Hn; [done|].
  cbv zeta. set (c := normalize' config).
  set (D := bits_Len (length blocks - 1)).
  set (m0 := mkMerkleTree c ∅ [] [] [] [] D (length blocks)).
  assert (0 < D) as HD by (apply bits_Len_pos; lia).
  assert (RunInParallel c = true -> (1 <= NumRoutines c)%Z) as HNR
    by apply normalize_NumRoutines.
  assert (succ ((if RunInParallel (cfg m0)
                 then leafGenParallel blocks else leafGen blocks) m0)
          = (λ ls, (ls, m0)) <$> leaves_of c blocks) as Hleaf.
  { simpl. destruct (RunInParallel c) eqn:Hpar.
    - apply leafGenParallel_spec; [by apply HNR | lia].
    - by apply leafGen_spec. }
  destruct ((if RunInParallel (cfg m0)
             then leafGenParallel blocks else leafGen blocks) m0)
    as [leaves m'| |]; simpl in Hleaf;
    destruct (leaves_of c blocks) as [ls|] eqn:Hls; simpl in *;
    try done.
  simplify_eq. apply leaves_of_length in Hls.
  set (m2 := set_Leaves ls m0).
  assert (NumLeaves m2 = length (Leaves m2)) as Hnl by done.
  case_decide as Hm0; [|case_decide as Hm1; [|case_decide as Hm2]].
  - rewrite built_named_results, proofGen_spec; simpl; try done; try lia.
    fold c D. destruct (tree_levels c D ls) as [lv|]; simpl; [|done].
    destruct (tree_root c lv) as [root|]; simpl; [|done].
    by rewrite decide_True.
  - rewrite built_named_results, treeBuild_spec; simpl; try done; try lia.
    fold c D. destruct (tree_levels c D ls) as [lv|]; simpl; [|done].
    destruct (tree_root c lv) as [root|]; simpl; [|done].
    rewrite decide_False, decide_True by done. done.
  - rewrite built_named_results, succ_bind, treeBuild_spec;
      simpl; try done; try lia.
    fold c D. destruct (tree_levels c D ls) as [lv|] eqn:Hlv; simpl; [|done].
    destruct (tree_root c lv) as [root|]; simpl; [|done].
    rewrite decide_False, decide_False, decide_True by done.
    rewrite succ_bind, initProofs_spec. simpl.
    rewrite succ_bind. simpl.
    set (m3 := set_Proofs _ _).
    assert (for_ (seq 0 (length lv)) (fun i =>
                level <- index lv i ;;
                (if RunInParallel c
                 then updateProofsParallel (B := B)
                 else updateProofs) level (length level) i) m3
            = Ret tt (set_Proofs (record 0 lv (Proofs m3)) m3)) as Hrec.
    { apply (record_loop
               (if RunInParallel c
                then updateProofsParallel (B := B) else updateProofs)
               lv (length blocks) c) with (pre := []); try done.
      - intros m buf step Hc Hps He Hp Hcov.
        destruct (RunInParallel c) eqn:Hpar.
        + apply updateProofsParallel_spec; try (rewrite Hc; auto); lia.
        + apply updateProofs_spec; lia.
      - simpl. by rewrite length_replicate.
      - simpl. intros j L HL. unfold tree_levels in Hlv.
        eapply (levels_cover c (length blocks) _ 0); try done.
        + apply dup_last_even.
        + rewrite length_dup_last. lia.
        + rewrite length_dup_last. lia. }
    destruct (RunInParallel c) eqn:Hpar; rewrite Hrec; simpl;
      by rewrite record_proofs_of.
  - destruct (tree_levels c D ls) as [lv|]; simpl; [|done].
    destruct (tree_root c lv); simpl; [|done].
    by rewrite !decide_False.
Qed.

End New.

(** ** The shape of the tree *)

Lemma pos_size_nat_bounds p :
  2 ^ (Pos.size_nat p - 1) <= Pos.to_nat p < 2 ^ Pos.size_nat p.
Proof.
  induction p as [p IH|p IH|]; cbn [Pos.size_nat].
  - rewrite Pos2Nat.inj_xI, Nat.sub_succ, Nat.sub_0_r, Nat.pow_succ_r'.
    destruct (Pos.size_nat p) as [|s] eqn:Hs; [by destruct p|].
    rewrite Nat.sub_succ, Nat.sub_0_r in IH.
    rewrite Nat.pow_succ_r' in *. lia.
  - rewrite Pos2Nat.inj_xO, Nat.sub_succ, Nat.sub_0_r, Nat.pow_succ_r'.
    destruct (Pos.size_nat p) as [|s] eqn:Hs; [by destruct p|].
    rewrite Nat.sub_succ, Nat.sub_0_r in IH.
    rewrite Nat.pow_succ_r' in *. lia.
  - rewrite Nat.sub_diag, Nat.pow_0_r, Nat.pow_1_r.
    change (Pos.to_nat 1) with 1. lia.
Qed.

Lemma bits_Len_bounds x :
  0 < x -> 2 ^ (bits_Len x - 1) <= x < 2 ^ bits_Len x.
Proof.
  intros Hx. unfold bits_Len.
  destruct (N.of_nat x) as [|p] eqn:Hp; [lia|].
  assert (x = Pos.to_nat p) as -> by lia.
  apply pos_size_nat_bounds.
Qed.

(** For [n >= 2] leaves, [D = bits.Len(n - 1)] satisfies
    [2^(D-1) < n <= 2^D]. *)
Lemma depth_bounds n :
  2 <= n ->
  2 ^ (bits_Len (n - 1) - 1) < n <= 2 ^ bits_Len (n - 1).
Proof. intros Hn. pose proof (bits_Len_bounds (n - 1)). lia. Qed.

Lemma levels_from_length config k L lvs :
  levels_from config k L = Some lvs -> length lvs = S k.
Proof.
  intros H. destruct (levels_from_cons _ _ _ _ H) as (r & -> & Hr).
  simpl. by rewrite Hr.
Qed.

(** No level is wider than needed: it is the smallest even cover of the
    leaves. *)
Lemma levels_tight config n k : forall c L lvs,
  levels_from config k L = Some lvs ->
  length L mod 2 = 0 -> (length L - 2) * 2 ^ c < n ->
  forall j L', lvs !! j = Some L' -> (length L' - 2) * 2 ^ (c + j) < n.
Proof.
  induction k as [|k IH]; intros c L lvs Hlv He Ht j L' Hj; simpl in Hlv.
  - simplify_eq. destruct j as [|j]; simpl in Hj; [|done]. simplify_eq.
    by rewrite Nat.add_0_r.
  - destruct (hash_level config L) as [hs|] eqn:Hhs; simpl in Hlv; [|done].
    destruct (levels_from config k (dup_last hs)) as [lvs'|] eqn:Hl;
      simpl in Hlv; [|done].
    simplify_eq. apply length_hash_level in Hhs.
    destruct j as [|j]; simpl in Hj.
    + simplify_eq. by rewrite Nat.add_0_r.
    + replace (c + S j) with (S c + j) by lia.
      eapply (IH (S c)); try done.
      * apply dup_last_even.
      * rewrite length_dup_last, Nat.pow_succ_r'. nia.
Qed.

(** The levels of a tree over [n >= 2] leaves: there are [D] of them, each
    of even length, and the last one has exactly two nodes. *)
Lemma tree_levels_shape config leaves lv :
  2 <= length leaves ->
  tree_levels config (bits_Len (length leaves - 1)) leaves = Some lv ->
  length lv = bits_Len (length leaves - 1)
  /\ (forall j L, lv !! j = Some L ->
        length L mod 2 = 0 /\ 0 < length L
        /\ length leaves <= length L * 2 ^ j)
  /\ (exists top, last lv = Some top /\ length top = 2).
Proof.
  intros Hn Hlv. unfold tree_levels in Hlv.
  set (n := length leaves) in *.
  pose proof (depth_bounds n Hn) as [HD1 HD2].
  pose proof (bits_Len_pos (n - 1) ltac:(lia)) as HD.
  pose proof (levels_from_length _ _ _ _ Hlv) as Hlen.
  pose proof (length_dup_last leaves) as HL0. fold n in HL0.
  assert (forall j L, lv !! j = Some L ->
            length L mod 2 = 0 /\ 0 < length L /\ n <= length L * 2 ^ j)
    as Hcov.
  { intros j L Hj.
    eapply (levels_cover config n _ 0) in Hj; try done.
    - apply dup_last_even.
    - lia.
    - lia. }
  split_and!; [lia | done |].
  destruct (lookup_lt_is_Some_2 lv (bits_Len (n - 1) - 1)) as [top Htop];
    [lia|].
  exists top. split.
  { rewrite last_lookup_length, Hlen.
    by replace (S (bits_Len (n - 1) - 1) - 1) with (bits_Len (n - 1) - 1)
      by lia. }
  destruct (Hcov _ _ Htop) as (He & Hp & Hc).
  assert ((length top - 2) * 2 ^ (bits_Len (n - 1) - 1) < n) as Ht.
  { eapply (levels_tight config n _ 0) in Htop; try done.
    - apply dup_last_even.
    - lia. }
  assert (2 ^ bits_Len (n - 1) = 2 * 2 ^ (bits_Len (n - 1) - 1)) as Hpow.
  { rewrite <- Nat.pow_succ_r'. f_equal. lia. }
  destruct (decide (length top < 4)) as [|Hge]; [lia|]. exfalso.
  assert (2 * 2 ^ (bits_Len (n - 1) - 1)
          <= (length top - 2) * 2 ^ (bits_Len (n - 1) - 1)); [|lia].
  apply Nat.mul_le_mono_r. lia.
Qed.

(** Consecutive levels: the upper one is the balanced hash of the lower. *)
Lemma levels_from_step config k L lvs j Lj Lj' :
  levels_from config k L = Some lvs ->
  lvs !! j = Some Lj -> lvs !! S j = Some Lj' ->
  exists hs, hash_level config Lj = Some hs /\ Lj' = dup_last hs.
Proof.
  revert L lvs j. induction k as [|k IH]; intros L lvs j Hlv Hj Hj';
    simpl in Hlv.
  - by simplify_eq.
  - destruct (hash_level config L) as [hs|] eqn:Hhs; simpl in Hlv; [|done].
    destruct (levels_from config k (dup_last hs)) as [lvs'|] eqn:Hl;
      simpl in Hlv; [|done].
    simplify_eq. destruct j as [|j]; simpl in *.
    + simplify_eq. exists hs. split; [done|].
      destruct (levels_from_cons _ _ _ _ Hl) as (r & -> & _).
      simpl in Hj'. by simplify_eq.
    + by eapply IH.
Qed.

(** ** Proofs: siblings and path bits *)

Lemma N_testbit_high (x : N) (s k : nat) :
  (x < 2 ^ N.of_nat s)%N -> s <= k -> N.testbit x (N.of_nat k) = false.
Proof.
  intros Hx Hk. destruct (decide (x = 0%N)) as [->|Hx0]; [apply N.bits_0|].
  apply N.bits_above_log2.
  apply N.lt_le_trans with (N.of_nat s); [|lia].
  apply N.log2_lt_pow2; [lia | done].
Qed.

(** Setting bit [s] of a 32-bit path that has no bit at or above [s]. *)
Lemma add32_bit (x : N) (s : nat) :
  (x < 2 ^ N.of_nat s)%N -> s < 32 ->
  (add32 x (shl32 1 s) < 2 ^ N.of_nat (S s))%N
  /\ forall k, N.testbit (add32 x (shl32 1 s)) (N.of_nat k)
               = if decide (k = s) then true else N.testbit x (N.of_nat k).
Proof.
  intros Hx Hs.
  assert (2 ^ N.of_nat (S s) = 2 * 2 ^ N.of_nat s)%N as Hpow.
  { rewrite Nat2N.inj_succ. apply N.pow_succ_r'. }
  assert (2 ^ N.of_nat (S s) <= 2 ^ 32)%N as Hle.
  { apply N.pow_le_mono_r; lia. }
  assert (shl32 1 s = 2 ^ N.of_nat s)%N as ->.
  { unfold shl32, uint32. rewrite N.shiftl_1_l.
    apply N.mod_small. lia. }
  assert (add32 x (2 ^ N.of_nat s) = x + 2 ^ N.of_nat s)%N as ->.
  { unfold add32, uint32. apply N.mod_small. lia. }
  split; [lia|]. intros k.
  assert (N.land x (2 ^ N.of_nat s) = 0)%N as Hland.
  { apply N.bits_inj. intros j. rewrite N.land_spec, N.bits_0.
    rewrite N.pow2_bits_eqb.
    destruct (N.eqb_spec (N.of_nat s) j) as [<-|];
      [|apply andb_false_r].
    by rewrite (N_testbit_high x s s). }
  rewrite (N.add_nocarry_lxor _ _ Hland), N.lxor_spec, N.pow2_bits_eqb.
  case_decide as Hk.
  - subst k. rewrite (N_testbit_high x s s), N.eqb_refl by done. done.
  - destruct (N.eqb_spec (N.of_nat s) (N.of_nat k)); [lia|].
    apply xorb_false_r.
Qed.

Lemma add_sibling_Siblings step L i p :
  Siblings (add_sibling step L i p) = Siblings p ++ [sibling L (i / 2 ^ step)].
Proof. unfold add_sibling, sibling. by case_decide. Qed.

Lemma walk_Siblings lv i : forall step p,
  Siblings (walk step lv i p)
  = Siblings p ++ imap (λ j L, sibling L (i / 2 ^ (step + j))) lv.
Proof.
  induction lv as [|L lv IH]; intros step p; simpl.
  - by rewrite app_nil_r.
  - rewrite IH, add_sibling_Siblings, <- app_assoc, Nat.add_0_r. simpl.
    do 2 f_equal. apply imap_ext. intros j Lj _. simpl.
    by replace (step + S j) with (S (step + j)) by lia.
Qed.

(** The path of a proof has bit [k] set exactly when the node above the
    leaf at level [k] is a left child, as long as the level numbers fit the
    32 bits of the path. *)
Lemma walk_Path lv i : forall step p,
  (Path p < 2 ^ N.of_nat step)%N -> step + length lv <= 32 ->
  (Path (walk step lv i p) < 2 ^ N.of_nat (step + length lv))%N
  /\ forall k, N.testbit (Path (walk step lv i p)) (N.of_nat k)
       = if decide (k < step) then N.testbit (Path p) (N.of_nat k)
         else bool_decide (k < step + length lv) && path_bit (i / 2 ^ k).
Proof.
  induction lv as [|L lv IH]; intros step p Hp Hlen; simpl in *.
  - rewrite Nat.add_0_r. split; [done|]. intros k. case_decide; [done|].
    rewrite bool_decide_false by done. simpl.
    apply (N_testbit_high _ step); [done | lia].
  - destruct (add32_bit (Path p) step Hp ltac:(lia)) as [Hlt Hbits].
    assert ((Path (add_sibling step L i p) < 2 ^ N.of_nat (S step))%N
            /\ forall k, N.testbit (Path (add_sibling step L i p)) (N.of_nat k)
                 = if decide (k = step) then path_bit (i / 2 ^ step)
                   else N.testbit (Path p) (N.of_nat k)) as [Hlt' Hbits'].
    { unfold add_sibling, path_bit. case_decide as He; simpl.
      - rewrite bool_decide_true by done. done.
      - rewrite bool_decide_false by done. split.
        + apply N.lt_le_trans with (2 ^ N.of_nat step)%N; [done|].
          apply N.pow_le_mono_r; lia.
        + intros k. case_decide; [|done]. subst k.
          by apply (N_testbit_high _ step). }
    destruct (IH (S step) _ Hlt' ltac:(lia)) as [Hb Ht].
    replace (step + S (length lv)) with (S step + length lv) by lia.
    split; [done|]. intros k. rewrite Ht, Hbits'.
    destruct (decide (k < S step)), (decide (k = step)), (decide (k < step));
      try lia; try done.
    subst k. rewrite bool_decide_true by lia. done.
Qed.

Lemma land_1_testbit (x : N) :
  N.land x 1 = 1%N <-> N.testbit x 0 = true.
Proof.
  rewrite N.bit0_odd. change 1%N with (N.ones 1) at 1.
  rewrite N.land_ones, N.pow_1_r.
  destruct (N.odd x) eqn:Ho.
  - apply N.odd_spec in Ho as [k ->]. split; [done|]. intros _.
    rewrite N.add_comm, N.mul_comm, N.Div0.mod_add. done.
  - split; [|done]. intros Hm.
    assert (N.odd x = true); [|congruence].
    apply N.odd_spec. exists (x / 2)%N.
    pose proof (N.div_mod x 2). lia.
Qed.

Lemma testbit_shiftr1 (x : N) (k : nat) :
  N.testbit (N.shiftr x 1) (N.of_nat k) = N.testbit x (N.of_nat (S k)).
Proof. rewrite N.shiftr_spec by lia. f_equal. lia. Qed.

(** Replaying the siblings of a leaf position along the levels gives the
    root. *)
Lemma replay_levels config k : forall L lvs pos path,
  levels_from config k L = Some lvs ->
  length L mod 2 = 0 -> pos < length L ->
  (forall top, last lvs = Some top -> length top = 2) ->
  (forall j, j < length lvs ->
     N.testbit path (N.of_nat j) = path_bit (pos / 2 ^ j)) ->
  replay config (imap (λ j Lj, sibling Lj (pos / 2 ^ j)) lvs)
    (L !!! pos) path
  = tree_root config lvs.
Proof.
  induction k as [|k IH]; intros L lvs pos path Hlv He Hpos Htop Hbits;
    simpl in Hlv.
  - simplify_eq. simpl. specialize (Htop L eq_refl).
    specialize (Hbits 0 ltac:(simpl; lia)).
    change (N.of_nat 0) with 0%N in Hbits.
    rewrite Nat.pow_0_r, Nat.div_1_r in *. unfold tree_root. simpl.
    destruct L as [|l [|r [|]]]; simplify_eq/=.
    unfold sibling, path_bit in *.
    destruct pos as [|[|]]; [| |lia]; simpl.
    + rewrite bool_decide_true in Hbits by done.
      apply land_1_testbit in Hbits.
      rewrite decide_True by done. simpl.
      by destruct (pair_digest config l r).
    + rewrite bool_decide_false in Hbits by done.
      rewrite decide_False; cycle 1.
      { intros Hl%land_1_testbit. simpl in *. congruence. }
      simpl. by destruct (pair_digest config l r).
  - destruct (hash_level config L) as [hs|] eqn:Hhs; simpl in Hlv; [|done].
    destruct (levels_from config k (dup_last hs)) as [lvs'|] eqn:Hl;
      simpl in Hlv; [|done].
    simplify_eq. pose proof (length_hash_level _ _ _ Hhs) as Hlen.
    destruct (levels_from_cons _ _ _ _ Hl) as (rest & Hrest & _).
    assert (pos / 2 < length hs) as Hpos2.
    { rewrite Hlen. apply Nat.Div0.div_lt_upper_bound. lia. }
    assert (hs !! (pos / 2) = pair_at config L (pos / 2)) as Hh.
    { eapply mapM_lookup; [exact Hhs|].
      apply lookup_seq. split; [done | lia]. }
    destruct (lookup_lt_is_Some_2 hs (pos / 2) Hpos2) as [h Hhh].
    rewrite Hhh in Hh. symmetry in Hh.
    cbn [imap replay]. rewrite Nat.pow_0_r, Nat.div_1_r.
    pose proof (Hbits 0 ltac:(simpl; lia)) as Hb0.
    rewrite Nat.pow_0_r, Nat.div_1_r in Hb0.
    change (N.of_nat 0) with 0%N in Hb0.
    assert ((if decide (N.land path 1 = 1%N)
             then pair_digest config (L !!! pos) (sibling L pos)
             else pair_digest config (sibling L pos) (L !!! pos)) = Some h)
      as ->.
    { unfold pair_at in Hh. unfold sibling, path_bit in *.
      destruct (L !! (2 * (pos / 2))) as [l|] eqn:Hl0; simpl in Hh; [|done].
      destruct (L !! (2 * (pos / 2) + 1)) as [r|] eqn:Hr0; simpl in Hh;
        [|done].
      case_decide as Hpar.
      - rewrite bool_decide_true in Hb0 by done.
        apply land_1_testbit in Hb0. rewrite decide_True by done.
        replace (2 * (pos / 2)) with pos in * by lia.
        by rewrite (list_lookup_total_correct _ _ _ Hl0),
          (list_lookup_total_correct _ _ _ Hr0).
      - rewrite bool_decide_false in Hb0 by done.
        rewrite decide_False; cycle 1.
        { intros Hx%land_1_testbit. simpl in *. congruence. }
        replace (2 * (pos / 2)) with (pos - 1) in * by lia.
        replace (pos - 1 + 1) with pos in * by lia.
        by rewrite (list_lookup_total_correct _ _ _ Hl0),
          (list_lookup_total_correct _ _ _ Hr0). }
    simpl.
    assert (h = dup_last hs !!! (pos / 2)) as ->.
    { symmetry. apply list_lookup_total_correct.
      by rewrite dup_last_lookup. }
    erewrite (imap_ext _ (λ j Lj, sibling Lj (pos / 2 / 2 ^ j))); cycle 1.
    { intros j Lj _. simpl.
      by rewrite Nat.Div0.div_div, <- Nat.pow_succ_r'. }
    rewrite (IH (dup_last hs) lvs' (pos / 2) (N.shiftr path 1)); try done.
    + unfold tree_root. by rewrite Hrest.
    + apply dup_last_even.
    + rewrite length_dup_last. lia.
    + intros top Ht. apply Htop. by rewrite Hrest in *.
    + intros j Hj. rewrite testbit_shiftr1, Hbits by (simpl in *; lia).
      by rewrite Nat.Div0.div_div, <- Nat.pow_succ_r'.
Qed.

(** ** Verification *)

Lemma Verify_loop {S} config sibs : forall r pth (s : S),
  succ (for_each sibs (fun sib '(result, path) =>
            result <- (if decide (N.land path 1 = 1%N)
                       then hashPair config result sib
                       else hashPair config sib result) ;;
            ret (result, N.shiftr path 1))
          (r, pth) s)
  = r' ← replay config sibs r pth;
    Some ((r', N.shiftr pth (N.of_nat (length sibs))), s).
Proof.
  induction sibs as [|sib sibs IH]; intros r pth s.
  - simpl. by rewrite N.shiftr_0_r.
  - cbn [for_each replay length]. rewrite succ_bind, succ_bind.
    assert (forall l r', succ (hashPair config l r' s)
              = (λ d, (d, s)) <$> pair_digest config l r') as Hh
      by (intros; apply succ_hashPair).
    case_decide; rewrite Hh;
      (destruct (pair_digest config _ _) as [d|]; simpl; [|done]);
      rewrite IH; (destruct (replay config sibs d _); simpl; [|done]);
      rewrite N.shiftr_shiftr, Nat2N.inj_succ, <- N.add_1_l; done.
Qed.

(** Errors of the loop of [Verify] come from the digest function. *)
Lemma Verify_loop_Fail {S} config sibs : forall a (s s' : S) e,
  for_each sibs (fun sib '(result, path) =>
      result <- (if decide (N.land path 1 = 1%N)
                 then hashPair config result sib
                 else hashPair config sib result) ;;
      ret (result, N.shiftr path 1)) a s = Fail e s' ->
  s' = s /\ exists msg, e = HashError msg.
Proof.
  assert (forall l r (s s' : S) e, hashPair config l r s = Fail e s' ->
            s' = s /\ exists msg, e = HashError msg) as Hh.
  { intros l r s s' e. unfold hashPair, call_HashFunc.
    destruct (concatFunc config), (HashFunc config) as [h|]; try done.
    destruct (h _) as [msg|]; [|done].
    intros [= <- <-]. eauto. }
  induction sibs as [|sib sibs IH]; intros [r pth] s s' e; [done|].
  cbn [for_each]. unfold bind at 1. unfold bind at 1.
  case_decide.
  - destruct (hashPair config r sib s) as [d s1| |] eqn:Hp; try done.
    + pose proof (proj2 (succ_Some _ _ _) Hp) as Hs.
      rewrite succ_hashPair in Hs.
      destruct (pair_digest config r sib); simplify_eq/=. apply IH.
    + intros [= <- <-]. by eapply Hh.
  - destruct (hashPair config sib r s) as [d s1| |] eqn:Hp; try done.
    + pose proof (proj2 (succ_Some _ _ _) Hp) as Hs.
      rewrite succ_hashPair in Hs.
      destruct (pair_digest config sib r); simplify_eq/=. apply IH.
    + intros [= <- <-]. by eapply Hh.
Qed.

Section Verify.

Context {B : Type} `{!DataBlock B}.
Context (DefaultHashFunc : TypeHashFunc).

#[local] Abbreviation Verify_on' := (Verify_on (B := B) DefaultHashFunc).

Lemma Verify_on_unfold b proof root c :
  Verify_on' b proof root c
  = (leaf <- leafFromBlock b (verify_config DefaultHashFunc c) ;;
     let* (result, _) <-
       for_each (Siblings proof) (fun sib '(result, path) =>
           result <- (if decide (N.land path 1 = 1%N)
                      then hashPair (verify_config DefaultHashFunc c) result sib
                      else hashPair (verify_config DefaultHashFunc c) sib result) ;;
           ret (result, N.shiftr path 1))
         (copy (make Byte.x00 (length leaf)) leaf, Path proof) ;;
     ret (bytes_Equal result root)) (verify_config DefaultHashFunc c).
Proof.
  unfold Verify_on, verify_config.
  destruct c as [[cf|] [h|] ? ? ? ? ?]; reflexivity.
Qed.

(** A successful run of [Verify] on a present block and proof: the leaf
    digest, the replay of the siblings, and the comparison with the root. *)
Lemma succ_Verify_on b proof root c :
  succ (Verify_on' b proof root c)
  = leaf ← leaf_digest (verify_config DefaultHashFunc c) b;
    r ← replay (verify_config DefaultHashFunc c) (Siblings proof) leaf
          (Path proof);
    Some (bytes_Equal r root, verify_config DefaultHashFunc c).
Proof.
  rewrite Verify_on_unfold, succ_bind, succ_leafFromBlock.
  destruct (leaf_digest _ b) as [leaf|]; simpl; [|done].
  rewrite succ_bind, copy_make, Verify_loop.
  by destruct (replay _ _ leaf _).
Qed.

Lemma Verify_on_Fail b proof root c e c' :
  Verify_on' b proof root c = Fail e c' ->
  c' = verify_config DefaultHashFunc c
  /\ ((exists msg, e = SerializeError msg) \/ (exists msg, e = HashError msg)).
Proof.
  rewrite Verify_on_unfold. unfold bind at 1.
  destruct (leafFromBlock b _ _) as [leaf s| |] eqn:Hl; try done.
  - pose proof (proj2 (succ_Some _ _ _) Hl) as Hs.
    rewrite succ_leafFromBlock in Hs.
    destruct (leaf_digest _ b); simplify_eq/=.
    unfold bind at 1.
    destruct (for_each _ _ _ _) as [[r pth] s| |] eqn:Hloop; try done.
    intros [= <- <-]. apply Verify_loop_Fail in Hloop as [-> ?]. eauto.
  - intros [= <- <-]. unfold leafFromBlock in Hl.
    destruct b as [b|]; [|done].
    destruct (Serialize b) as [msg|x];
      [unfold fail in Hl; simplify_eq; eauto|].
    destruct (DisableLeafHashing _); [done|].
    unfold call_HashFunc in Hl.
    destruct (HashFunc _) as [h|]; [|done].
    destruct (h x) as [msg|]; [|done].
    unfold fail in Hl. simplify_eq. eauto.
Qed.

End Verify.

(** ** The leaf index *)

Lemma foldl_ext_elem {A I} (f g : A -> I -> A) (l : list I) a :
  (forall a x, x ∈ l -> f a x = g a x) -> foldl f a l = foldl g a l.
Proof.
  revert a. induction l as [|x l IH]; intros a Hfg; simpl; [done|].
  rewrite Hfg by left. apply IH. intros. apply Hfg. by right.
Qed.

Lemma leaf_index_snoc leaves y :
  leaf_index (leaves ++ [y]) = <[y := length leaves]> (leaf_index leaves).
Proof.
  unfold leaf_index. rewrite length_app. simpl.
  rewrite Nat.add_1_r, seq_S, foldl_app. simpl.
  rewrite (list_lookup_total_middle leaves [] y (length leaves)) by done.
  f_equal. apply foldl_ext_elem. intros mp i Hi%elem_of_seq.
  by rewrite lookup_total_app_l by lia.
Qed.

(** The index maps a digest to the last leaf position that holds it. *)
Lemma leaf_index_lookup leaves x idx :
  leaf_index leaves !! x = Some idx
  <-> leaves !! idx = Some x /\ forall j, idx < j -> leaves !! j <> Some x.
Proof.
  revert idx. induction leaves as [|y l IH] using rev_ind; intros idx.
  - unfold leaf_index. simpl. rewrite lookup_empty. split; [done|].
    by intros [? _].
  - rewrite leaf_index_snoc. destruct (decide (x = y)) as [->|Hxy].
    + rewrite lookup_insert_eq. split.
      * intros [= <-]. split; [by rewrite list_lookup_middle|].
        intros j Hj. rewrite lookup_ge_None_2; [done|].
        rewrite length_app. simpl. lia.
      * intros [Hi Hlast]. f_equal.
        pose proof (lookup_lt_Some _ _ _ Hi) as Hlt.
        rewrite length_app in Hlt. simpl in Hlt.
        destruct (decide (idx = length l)) as [|Hne]; [done|].
        destruct (Hlast (length l)); [lia|]. by rewrite list_lookup_middle.
    + rewrite lookup_insert_ne by done. rewrite IH. split.
      * intros [Hi Hlast]. pose proof (lookup_lt_Some _ _ _ Hi).
        split; [by rewrite lookup_app_l by lia|].
        intros j Hj. destruct (decide (j < length l)).
        -- rewrite lookup_app_l by lia. by apply Hlast.
        -- destruct (decide (j = length l)) as [->|].
           ++ rewrite list_lookup_middle by done. congruence.
           ++ rewrite lookup_ge_None_2; [done|].
              rewrite length_app. simpl. lia.
      * intros [Hi Hlast].
        assert (idx < length l).
        { pose proof (lookup_lt_Some _ _ _ Hi) as Hlt.
          rewrite length_app in Hlt. simpl in Hlt.
          destruct (decide (idx = length l)) as [->|]; [|lia].
          rewrite list_lookup_middle in Hi by done. congruence. }
        rewrite lookup_app_l in Hi by lia. split; [done|].
        intros j Hj Hl. apply (Hlast j Hj).
        pose proof (lookup_lt_Some _ _ _ Hl).
        by rewrite lookup_app_l by lia.
Qed.

Lemma leaf_index_is_Some leaves i x :
  leaves !! i = Some x ->
  exists idx, leaf_index leaves !! x = Some idx /\ i <= idx.
Proof.
  revert i. induction leaves as [|y l IH] using rev_ind; intros i Hi;
    [done|].
  rewrite leaf_index_snoc.
  pose proof (lookup_lt_Some _ _ _ Hi) as Hlt.
  rewrite length_app in Hlt. simpl in Hlt.
  destruct (decide (x = y)) as [->|Hxy].
  - exists (length l). rewrite lookup_insert_eq. split; [done | lia].
  - assert (i < length l).
    { destruct (decide (i = length l)) as [->|]; [|lia].
      rewrite list_lookup_middle in Hi by done. congruence. }
    rewrite lookup_app_l in Hi by lia.
    destruct (IH _ Hi) as (idx & Hidx & Hle).
    exists idx. by rewrite lookup_insert_ne.
Qed.

(** ** On-demand proofs *)

Lemma walk_app l1 l2 i : forall step p,
  walk step (l1 ++ l2) i p = walk (step + length l1) l2 i (walk step l1 i p).
Proof.
  induction l1 as [|L l1 IH]; intros step p; simpl.
  - by rewrite Nat.add_0_r.
  - rewrite IH. f_equal. lia.
Qed.

Lemma walk_Siblings_length lv i step p :
  length (Siblings (walk step lv i p)) = length (Siblings p) + length lv.
Proof. by rewrite walk_Siblings, length_app, length_imap. Qed.

Section OnDemand.

Context {B : Type} `{!DataBlock B}.

(** The loop of [Proof] over the first [k] levels. *)
Lemma Proof_loop m idx n k :
  (forall j L, nodes m !! j = Some L ->
     length L mod 2 = 0 /\ n <= length L * 2 ^ j) ->
  idx < n -> k <= length (nodes m) -> k <= Depth m ->
  succ (for_each (seq 0 k) (fun i '(idx, path, siblings) =>
            if decide (Nat.land idx 1 = 1)
            then
              sib <- node i (idx - 1) ;;
              siblings <- store siblings i sib ;;
              ret (idx >> 1, path, siblings)
            else
              let path := add32 path (shl32 1 i) in
              sib <- node i (idx + 1) ;;
              siblings <- store siblings i sib ;;
              ret (idx >> 1, path, siblings))
          (idx, 0%N, make [] (Depth m)) m)
  = Some ((idx / 2 ^ k,
           Path (walk 0 (take k (nodes m)) idx (mkProof [] 0)),
           Siblings (walk 0 (take k (nodes m)) idx (mkProof [] 0))
             ++ replicate (Depth m - k) []), m).
Proof.
  intros Hshape Hidx. induction k as [|k IH]; intros Hk HkD.
  - simpl. by rewrite Nat.pow_0_r, Nat.div_1_r, Nat.sub_0_r.
  - rewrite seq_S, for_each_app, succ_bind, IH by lia. simpl.
    destruct (lookup_lt_is_Some_2 (nodes m) k ltac:(lia)) as [L HL].
    destruct (Hshape _ _ HL) as [He Hcov].
    assert (idx / 2 ^ k < length L) as Hpos.
    { apply Nat.Div0.div_lt_upper_bound. lia. }
    rewrite (take_S_r _ _ _ HL), walk_app. simpl.
    rewrite length_take_le by lia.
    set (p := walk 0 (take k (nodes m)) idx (mkProof [] 0)).
    assert (length (Siblings p) = k) as Hlen.
    { unfold p. rewrite walk_Siblings_length, length_take_le by lia. done. }
    assert (forall x, <[k := x]> (Siblings p ++ replicate (Depth m - k) [])
              = (Siblings p ++ [x]) ++ replicate (Depth m - S k) []) as Hins.
    { intros x. replace (Depth m - k) with (S (Depth m - S k)) by lia.
      rewrite insert_app_r_alt by lia. rewrite Hlen, Nat.sub_diag. simpl.
      by rewrite <- app_assoc. }
    assert (k < length (Siblings p ++ replicate (Depth m - k) [])) as Hlt.
    { rewrite length_app, length_replicate. lia. }
    unfold add_sibling. rewrite land1, shr1.
    assert (idx / 2 ^ S k = idx / 2 ^ k / 2) as ->.
    { by rewrite Nat.Div0.div_div, Nat.pow_succ_r', Nat.mul_comm. }
    destruct (decide (idx / 2 ^ k mod 2 = 1)) as [Ho|Ho].
    + rewrite decide_False by lia.
      destruct (lookup_lt_is_Some_2 L (idx / 2 ^ k - 1) ltac:(lia))
        as [sib Hsib].
      rewrite 2!succ_bind, succ_node, HL. simpl. rewrite Hsib. simpl.
      rewrite succ_bind, (store_lt _ _ _ _ Hlt). simpl.
      by rewrite (list_lookup_total_correct _ _ _ Hsib), Hins.
    + rewrite decide_True by lia.
      destruct (lookup_lt_is_Some_2 L (idx / 2 ^ k + 1) ltac:(lia))
        as [sib Hsib].
      rewrite 2!succ_bind, succ_node, HL. simpl. rewrite Hsib. simpl.
      rewrite succ_bind, (store_lt _ _ _ _ Hlt). simpl.
      by rewrite (list_lookup_total_correct _ _ _ Hsib), Hins.
Qed.

(** [Proof] on a tree that retains its levels: the proof of the position
    the leaf index gives for the digest of the block. *)
Lemma succ_MerkleTree_Proof m n b :
  (Mode (cfg m) = ModeTreeBuild \/ Mode (cfg m) = ModeProofGenAndTreeBuild) ->
  Depth m = length (nodes m) ->
  (forall j L, nodes m !! j = Some L ->
     length L mod 2 = 0 /\ n <= length L * 2 ^ j) ->
  (forall x idx, leafMap m !! x = Some idx -> idx < n) ->
  succ (MerkleTree_Proof (B := B) b m)
  = leaf ← leaf_digest (cfg m) b;
    idx ← leafMap m !! leaf;
    Some (proof_of (nodes m) idx, m).
Proof.
  intros Hmode HD Hshape Hidx. unfold MerkleTree_Proof.
  rewrite succ_bind. simpl. rewrite decide_False by tauto.
  rewrite succ_bind, succ_leafFromBlock.
  destruct (leaf_digest (cfg m) b) as [leaf|]; simpl; [|done].
  destruct (leafMap m !! leaf) as [idx|] eqn:Hl; simpl; [|done].
  rewrite succ_bind, (Proof_loop m idx n) by (try lia; eauto).
  simpl. rewrite HD, firstn_all, Nat.sub_diag, app_nil_r.
  unfold proof_of. by destruct (walk 0 _ _ _).
Qed.

End OnDemand.

(** ** The pure construction and its configuration *)

Lemma hash_level_ext c1 c2 L :
  (forall l r, pair_digest c1 l r = pair_digest c2 l r) ->
  hash_level c1 L = hash_level c2 L.
Proof.
  intros Hp. unfold hash_level. apply mapM_ext_elem. intros j _.
  unfold pair_at. destruct (L !! (2 * j)); simpl; [|done].
  destruct (L !! (2 * j + 1)); simpl; [|done]. apply Hp.
Qed.

Lemma levels_from_ext c1 c2 k : forall L,
  (forall l r, pair_digest c1 l r = pair_digest c2 l r) ->
  levels_from c1 k L = levels_from c2 k L.
Proof.
  induction k as [|k IH]; intros L Hp; simpl; [done|].
  rewrite (hash_level_ext c1 c2) by done.
  destruct (hash_level c2 L); simpl; [|done]. by rewrite IH.
Qed.

Lemma tree_root_ext c1 c2 lv :
  (forall l r, pair_digest c1 l r = pair_digest c2 l r) ->
  tree_root c1 lv = tree_root c2 lv.
Proof.
  intros Hp. unfold tree_root. destruct (last lv) as [top|]; simpl; [|done].
  destruct (top !! 0); simpl; [|done]. destruct (top !! 1); simpl; [|done].
  apply Hp.
Qed.

Section TreeOf.

Context {B : Type} `{!DataBlock B}.

Lemma tree_of_inv c (blocks : list (option B)) m :
  tree_of c blocks = Some m ->
  exists leaves lv,
    2 <= length blocks
    /\ leaves_of c blocks = Some leaves
    /\ tree_levels c (bits_Len (length blocks - 1)) leaves = Some lv
    /\ tree_root c lv = Some (Root m)
    /\ cfg m = c /\ Leaves m = leaves
    /\ Depth m = bits_Len (length blocks - 1)
    /\ NumLeaves m = length blocks
    /\ Proofs m = (if decide (Mode c = ModeTreeBuild) then []
                   else proofs_of lv (length blocks))
    /\ nodes m = (if decide (Mode c = ModeProofGen) then [] else lv)
    /\ leafMap m = (if decide (Mode c = ModeProofGen) then ∅
                    else leaf_index leaves)
    /\ (Mode c = ModeProofGen \/ Mode c = ModeTreeBuild
        \/ Mode c = ModeProofGenAndTreeBuild).
Proof.
  unfold tree_of. case_decide as Hn; [done|].
  destruct (leaves_of c blocks) as [leaves|]; simpl; [|done].
  destruct (tree_levels c _ leaves) as [lv|] eqn:Hlv; simpl; [|done].
  destruct (tree_root c lv) as [root|] eqn:Hroot; simpl; [|done].
  unfold ModeProofGen, ModeTreeBuild, ModeProofGenAndTreeBuild.
  intros Hm. exists leaves, lv.
  repeat case_decide; simplify_eq/=;
    split_and!; try done; try lia; try case_decide; try done; try lia;
    eauto.
Qed.

Lemma tree_of_intro c (blocks : list (option B)) leaves lv root :
  2 <= length blocks ->
  leaves_of c blocks = Some leaves ->
  tree_levels c (bits_Len (length blocks - 1)) leaves = Some lv ->
  tree_root c lv = Some root ->
  (Mode c = ModeProofGen \/ Mode c = ModeTreeBuild
   \/ Mode c = ModeProofGenAndTreeBuild) ->
  exists m, tree_of c blocks = Some m.
Proof.
  intros Hn Hl Hlv Hr Hmode. unfold tree_of.
  rewrite decide_False by lia. rewrite Hl. simpl. rewrite Hlv. simpl.
  rewrite Hr. simpl. repeat case_decide; eauto. exfalso. tauto.
Qed.

Lemma leaves_of_ext c1 c2 (blocks : list (option B)) :
  (forall b : option B, leaf_digest c1 b = leaf_digest c2 b) ->
  leaves_of c1 blocks = leaves_of c2 blocks.
Proof. intros Hl. unfold leaves_of. by apply mapM_ext_elem. Qed.

Lemma leaves_of_lookup c (blocks : list (option B)) leaves i b :
  leaves_of c blocks = Some leaves -> blocks !! i = Some b ->
  leaves !! i = leaf_digest c b.
Proof. apply mapM_lookup. Qed.

End TreeOf.

Section TreeOfAgree.

Context {B : Type} `{!DataBlock B}.

(** Two configurations with the same digests give trees with the same
    content. *)
Lemma tree_of_agree c1 c2 (blocks : list (option B)) m1 :
  (forall l r, pair_digest c1 l r = pair_digest c2 l r) ->
  (forall b : option B, leaf_digest c1 b = leaf_digest c2 b) ->
  (Mode c2 = ModeProofGen \/ Mode c2 = ModeTreeBuild
   \/ Mode c2 = ModeProofGenAndTreeBuild) ->
  tree_of c1 blocks = Some m1 ->
  exists m2, tree_of c2 blocks = Some m2
    /\ Root m2 = Root m1 /\ Leaves m2 = Leaves m1
    /\ Depth m2 = Depth m1 /\ NumLeaves m2 = NumLeaves m1
    /\ (Mode c1 = Mode c2 ->
        Proofs m2 = Proofs m1 /\ nodes m2 = nodes m1
        /\ leafMap m2 = leafMap m1).
Proof.
  intros Hp Hl Hmode H1.
  destruct (tree_of_inv _ _ _ H1)
    as (leaves & lv & Hn & Hleaves & Hlv & Hroot & _ & HL & HD & HN & HP
        & Hnodes & Hmap & _).
  rewrite (leaves_of_ext c1 c2) in Hleaves by done.
  unfold tree_levels in *. rewrite (levels_from_ext c1 c2) in Hlv by done.
  rewrite (tree_root_ext c1 c2) in Hroot by done.
  destruct (tree_of_intro c2 blocks leaves lv (Root m1)) as [m2 H2];
    try done.
  exists m2. split; [done|].
  destruct (tree_of_inv _ _ _ H2)
    as (leaves' & lv' & _ & Hleaves' & Hlv' & Hroot' & _ & HL' & HD' & HN'
        & HP' & Hnodes' & Hmap' & _).
  unfold tree_levels in *. rewrite Hleaves in Hleaves'.
  injection Hleaves' as <-. rewrite Hlv in Hlv'.
  injection Hlv' as <-.
  split_and!; try congruence.
  intros Heq. by rewrite HP, HP', Hnodes, Hnodes', Hmap, Hmap', Heq.
Qed.

End TreeOfAgree.

(** ** The proof of a leaf *)

(** Levels from 32 upwards leave the 32-bit path as it is. *)
Lemma walk_Path_high lv i : forall step p,
  32 <= step -> (Path p < 2 ^ 32)%N -> Path (walk step lv i p) = Path p.
Proof.
  induction lv as [|L lv IH]; intros step p Hs Hp; simpl; [done|].
  assert (Path (add_sibling step L i p) = Path p) as Hadd.
  { unfold add_sibling. case_decide; simpl; [|done].
    unfold add32, shl32, uint32. rewrite N.shiftl_1_l.
    assert (2 ^ N.of_nat step = 2 ^ (N.of_nat step - 32) * 2 ^ 32)%N as ->.
    { rewrite <- N.pow_add_r. f_equal. lia. }
    rewrite N.Div0.mod_mul, N.add_0_r. by apply N.mod_small. }
  rewrite IH by (rewrite ?Hadd; done || lia). done.
Qed.

Lemma proof_of_Path_bits lv i k :
  N.testbit (Path (proof_of lv i)) (N.of_nat k)
  = bool_decide (k < length lv /\ k < 32) && path_bit (i / 2 ^ k).
Proof.
  unfold proof_of. rewrite <- (take_drop 32 lv) at 1. rewrite walk_app.
  simpl.
  destruct (walk_Path (take 32 lv) i 0 (mkProof [] 0)) as [Hlt Hbits].
  { simpl. lia. }
  { rewrite length_take. lia. }
  assert (Path (walk (length (take 32 lv)) (drop 32 lv) i
                   (walk 0 (take 32 lv) i (mkProof [] 0)))
          = Path (walk 0 (take 32 lv) i (mkProof [] 0))) as ->.
  { destruct (decide (length lv <= 32)) as [Hle|Hgt].
    - by rewrite drop_ge by done.
    - apply walk_Path_high.
      + rewrite length_take. lia.
      + rewrite length_take in Hlt.
        replace (0 + 32 `min` length lv) with 32 in Hlt by lia.
        exact Hlt. }
  rewrite Hbits. rewrite decide_False by lia. simpl.
  rewrite length_take. f_equal. apply bool_decide_ext. lia.
Qed.

Lemma proof_of_Siblings lv i :
  Siblings (proof_of lv i) = imap (λ j L, sibling L (i / 2 ^ j)) lv.
Proof. unfold proof_of. by rewrite walk_Siblings. Qed.

Lemma depth_le_32 n : 2 <= n -> n <= 2 ^ 32 -> bits_Len (n - 1) <= 32.
Proof.
  intros Hn Hle. destruct (depth_bounds n Hn) as [Hlo _].
  destruct (decide (bits_Len (n - 1) <= 32)); [done|]. exfalso.
  assert (2 ^ 32 <= 2 ^ (bits_Len (n - 1) - 1)); [|lia].
  apply Nat.pow_le_mono_r; lia.
Qed.

(** Replaying the proof of leaf [i] from its digest gives the root, in a
    tree of at most [2^32] leaves. *)
Lemma replay_proof_of config leaves lv i :
  2 <= length leaves -> length leaves <= 2 ^ 32 -> i < length leaves ->
  tree_levels config (bits_Len (length leaves - 1)) leaves = Some lv ->
  replay config (Siblings (proof_of lv i)) (leaves !!! i)
    (Path (proof_of lv i))
  = tree_root config lv.
Proof.
  intros Hn Hcap Hi Hlv.
  destruct (tree_levels_shape _ _ _ Hn Hlv) as (Hlen & _ & top & Htop & Ht2).
  pose proof (depth_le_32 _ Hn Hcap) as HD.
  rewrite proof_of_Siblings.
  assert (leaves !!! i = dup_last leaves !!! i) as ->.
  { destruct (lookup_lt_is_Some_2 leaves i Hi) as [x Hx].
    rewrite (list_lookup_total_correct _ _ _ Hx). symmetry.
    apply list_lookup_total_correct. by rewrite dup_last_lookup. }
  eapply replay_levels; [exact Hlv | apply dup_last_even | | |].
  - rewrite length_dup_last. lia.
  - intros top' Htop'. congruence.
  - intros j Hj. rewrite proof_of_Path_bits.
    rewrite bool_decide_true by lia. done.
Qed.

(** ** What the construction steps leave alone *)

Section keeps.

Context {S X : Type} (F : S -> X) (x0 : X).

Lemma keeps_ret {A} (a : A) : keeps F x0 (ret a).
Proof. by intros s Hs. Qed.

Lemma keeps_fail {A} e : keeps F x0 (fail (A := A) e).
Proof. by intros s Hs. Qed.

Lemma keeps_panic {A} : keeps F x0 (panic (A := A)).
Proof. by intros s Hs. Qed.

Lemma keeps_bind {A C} (c : M S A) (k : A -> M S C) :
  keeps F x0 c -> (forall a, keeps F x0 (k a)) -> keeps F x0 (bind c k).
Proof.
  intros Hc Hk s Hs. unfold bind. specialize (Hc s Hs).
  destruct (c s) as [a s'| |]; [|done..]. by apply Hk.
Qed.

Lemma keeps_bind_get {C} (k : S -> M S C) :
  (forall s, F s = x0 -> keeps F x0 (k s)) -> keeps F x0 (bind get k).
Proof. intros Hk s Hs. unfold bind, get. by apply Hk. Qed.

Lemma keeps_put (s : S) : F s = x0 -> keeps F x0 (put s).
Proof. by intros Hs s' _. Qed.

Lemma keeps_modify (f : S -> S) :
  (forall s, F (f s) = F s) -> keeps F x0 (modify f).
Proof. intros Hf s Hs. unfold modify. by rewrite Hf. Qed.

Lemma keeps_index {A} (buf : list A) i : keeps F x0 (index buf i).
Proof. intros s Hs. unfold index. by destruct (buf !! i). Qed.

Lemma keeps_store {A} (buf : list A) i x : keeps F x0 (store buf i x).
Proof. intros s Hs. unfold store. by case_decide. Qed.

Lemma keeps_hashPair config l r : keeps F x0 (hashPair config l r).
Proof.
  intros s Hs. unfold hashPair, call_HashFunc.
  destruct (concatFunc config); [|done].
  destruct (HashFunc config) as [h|]; [|done]. by destruct (h _).
Qed.

Lemma keeps_fixOdd buf prevLen : keeps F x0 (fixOdd buf prevLen).
Proof.
  intros s Hs. unfold fixOdd. case_decide; [done|].
  unfold bind, index. destruct (buf !! _); [|done].
  case_decide; [done|]. unfold store. by case_decide.
Qed.

Lemma keeps_range_errList errList : keeps F x0 (range_errList errList).
Proof.
  intros s Hs. induction errList as [|[e|] errList IH]; done.
Qed.

Lemma keeps_for_each {A I} (l : list I) (body : I -> A -> M S A) a :
  (forall i a, keeps F x0 (body i a)) -> keeps F x0 (for_each l body a).
Proof.
  intros Hb. revert a. induction l as [|i l IH]; intros a; simpl.
  - apply keeps_ret.
  - apply keeps_bind; [apply Hb | apply IH].
Qed.

Lemma keeps_for {I} (l : list I) (body : I -> M S unit) :
  (forall i, keeps F x0 (body i)) -> keeps F x0 (for_ l body).
Proof. intros Hb. unfold for_. by apply keeps_for_each. Qed.

Lemma keeps_pool_Map {A} (handler : A -> M S unit) argList :
  (forall arg, keeps F x0 (handler arg)) ->
  keeps F x0 (pool_Map handler argList).
Proof.
  intros Hh. induction argList as [|arg rest IH]; simpl.
  - apply keeps_ret.
  - intros s Hs. specialize (Hh arg s Hs).
    destruct (handler arg s) as [[] s'|e s'|]; [| |done].
    + apply (keeps_bind _ _ IH (λ errs, keeps_ret _) s' Hh).
    + apply (keeps_bind _ _ IH (λ errs, keeps_ret _) s' Hh).
Qed.

End keeps.

Lemma keeps_in_pool {X A} (F : MerkleTree -> X) x0 buf1 buf2
    (c : M poolShared A) :
  keeps (λ sh, F (mt sh)) x0 c -> keeps F x0 (in_pool buf1 buf2 c).
Proof.
  intros Hc m Hm. unfold in_pool.
  specialize (Hc (mkShared m buf1 buf2) Hm). by destruct (c _).
Qed.

Lemma keeps_on_mt {X A} (F : MerkleTree -> X) x0 (c : M MerkleTree A) :
  keeps F x0 c -> keeps (λ sh, F (mt sh)) x0 (on_mt c).
Proof.
  intros Hc sh Hsh. unfold on_mt. specialize (Hc (mt sh) Hsh).
  by destruct (c _).
Qed.

(** One step of a proof that a procedure keeps a part of the state. *)
Ltac keeps_step :=
  lazymatch goal with
  | |- keeps _ _ (bind get _) => apply keeps_bind_get; intros ? ?
  | |- keeps _ _ (bind _ _) => apply keeps_bind; [|intros ?]
  | |- keeps _ _ (ret _) => apply keeps_ret
  | |- keeps _ _ (fail _) => apply keeps_fail
  | |- keeps _ _ panic => apply keeps_panic
  | |- keeps _ _ (put _) => apply keeps_put; assumption
  | |- keeps _ _ (modify _) => apply keeps_modify; intros ?; reflexivity
  | |- keeps _ _ (index _ _) => apply keeps_index
  | |- keeps _ _ (store _ _ _) => apply keeps_store
  | |- keeps _ _ (hashPair _ _ _) => apply keeps_hashPair
  | |- keeps _ _ (fixOdd _ _) => apply keeps_fixOdd
  | |- keeps _ _ (range_errList _) => apply keeps_range_errList
  | |- keeps _ _ (for_each _ _ _) => apply keeps_for_each; intros ? ?
  | |- keeps _ _ (for_ _ _) => apply keeps_for; intros ?
  | |- keeps _ _ (pool_Map _ _) => apply keeps_pool_Map; intros ?
  | |- keeps _ _ (in_pool _ _ _) => apply keeps_in_pool
  | |- keeps _ _ (on_mt _) => apply (keeps_on_mt inputs)
  | |- keeps _ _ (if ?b then _ else _) => destruct b
  | |- keeps _ _ (match ?x with _ => _ end) => destruct x
  end.

Section KeepsInputs.

Context {B : Type} `{!DataBlock B}.
Context (x0 : Config * list bytes * nat * nat).

Lemma keeps_updatePairProofs buf idx batch step :
  keeps inputs x0 (updatePairProofs buf idx batch step).
Proof. unfold updatePairProofs. repeat keeps_step. Qed.

Lemma keeps_updateProofs buf bufLen step :
  keeps inputs x0 (updateProofs buf bufLen step).
Proof.
  unfold updateProofs. repeat keeps_step. apply keeps_updatePairProofs.
Qed.

Lemma keeps_updateProofsParallel buf bufLen step :
  keeps inputs x0 (updateProofsParallel (B := B) buf bufLen step).
Proof.
  unfold updateProofsParallel, updateProofHandler. repeat keeps_step.
  apply keeps_updatePairProofs.
Qed.

Lemma keeps_initProofs : keeps inputs x0 initProofs.
Proof. unfold initProofs. repeat keeps_step. Qed.

Lemma keeps_setRoot buf : keeps inputs x0 (setRoot buf).
Proof. unfold setRoot. repeat keeps_step. Qed.

Lemma keeps_proofGen : keeps inputs x0 (proofGen (B := B)).
Proof.
  unfold proofGen, proofGenParallel, proofGenHandler.
  repeat first
    [ apply keeps_initProofs | apply keeps_setRoot
    | apply keeps_updateProofs | apply keeps_updateProofsParallel
    | keeps_step ].
Qed.

Lemma keeps_set_level i level : keeps inputs x0 (set_level i level).
Proof. unfold set_level. repeat keeps_step. Qed.

Lemma keeps_node i j : keeps inputs x0 (node i j).
Proof. unfold node. repeat keeps_step. Qed.

Lemma keeps_set_node i j x : keeps inputs x0 (set_node i j x).
Proof.
  unfold set_node. repeat first [apply keeps_set_level | keeps_step].
Qed.

Lemma keeps_fixOdd_level i : keeps inputs x0 (fixOdd_level i).
Proof.
  unfold fixOdd_level. repeat first [apply keeps_set_level | keeps_step].
Qed.

Lemma keeps_treeBuild : keeps inputs x0 (treeBuild (B := B)).
Proof.
  unfold treeBuild, computeTreeNodeParallel, treeBuildHandler.
  repeat first
    [ apply keeps_setRoot | apply keeps_set_level | apply keeps_node
    | apply keeps_set_node | apply keeps_fixOdd_level | keeps_step ].
Qed.

End KeepsInputs.

(** * The claims of the specification *)

Section Claims.

Context {B : Type} `{!DataBlock B}.
Context (DefaultHashFunc DefaultHashFuncParallel : TypeHashFunc).
Context (runtime_NumCPU : positive).

#[local] Abbreviation New' :=
  (New (B := B) DefaultHashFunc DefaultHashFuncParallel runtime_NumCPU).
#[local] Abbreviation normalize' :=
  (normalize DefaultHashFunc DefaultHashFuncParallel runtime_NumCPU).

Lemma normalize_set_Mode md c :
  normalize' (Some (set_Mode md c)) = set_Mode md (normalize' (Some c)).
Proof.
  unfold normalize. destruct c as [[cf|] [h|] nr mo [] [] dl]; simpl;
    unfold set_Mode; simpl; repeat case_decide; done.
Qed.

Lemma normalize_funcs config :
  exists h cf, HashFunc (normalize' config) = Some h
               /\ concatFunc (normalize' config) = Some cf.
Proof.
  unfold normalize.
  destruct (default new_Config config) as [[cf|] [h|] nr mo [] [] dl];
    simpl; repeat case_decide; simpl; eauto.
Qed.

Lemma verify_config_normalize config :
  verify_config DefaultHashFunc (normalize' config) = normalize' config.
Proof.
  destruct (normalize_funcs config) as (h & cf & Hh & Hc).
  unfold verify_config. by rewrite Hh, Hc.
Qed.

Lemma built_tree_of config (blocks : list (option B)) m :
  built (New' config blocks) = Some m ->
  tree_of (normalize' config) blocks = Some m.
Proof. by rewrite New_built. Qed.

Lemma named_results_keeps (c : M MerkleTree unit) m0 m e :
  keeps inputs (inputs m0) c ->
  named_results c m0 = Returned (Some m, e) -> inputs m = inputs m0.
Proof.
  intros Hc. unfold named_results. specialize (Hc m0 eq_refl).
  destruct (c m0) as [[] m'|e' m'|]; by intros [= <- <-].
Qed.

(** Whenever [New] returns a tree, with or without an error, the tree holds
    the normalised configuration, the leaf digests of the blocks, and the
    depth and number of leaves computed from the number of blocks. *)
Lemma New_returned config (blocks : list (option B)) m e :
  New' config blocks = Returned (Some m, e) ->
  2 <= length blocks
  /\ cfg m = normalize' config
  /\ leaves_of (normalize' config) blocks = Some (Leaves m)
  /\ Depth m = bits_Len (length blocks - 1)
  /\ NumLeaves m = length blocks.
Proof.
  rewrite New_unfold. case_decide as Hn; [done|]. cbv zeta.
  set (c := normalize' config).
  set (D := bits_Len (length blocks - 1)).
  set (m0 := mkMerkleTree c ∅ [] [] [] [] D (length blocks)).
  assert (succ ((if RunInParallel (cfg m0)
                 then leafGenParallel blocks else leafGen blocks) m0)
          = (λ ls, (ls, m0)) <$> leaves_of c blocks) as Hleaf.
  { simpl. destruct (RunInParallel c) eqn:Hpar.
    - apply leafGenParallel_spec; [|lia].
      by apply normalize_NumRoutines.
    - by apply leafGen_spec. }
  destruct ((if RunInParallel (cfg m0)
             then leafGenParallel blocks else leafGen blocks) m0)
    as [leaves m'| |]; [|done..].
  simpl in Hleaf. destruct (leaves_of c blocks) as [ls|]; [|done].
  simpl in Hleaf. injection Hleaf as -> ->. rename ls into leaves.
  assert (forall m2 (k : M MerkleTree unit),
            inputs m2 = (c, leaves, D, length blocks) ->
            keeps inputs (inputs m2) k ->
            named_results k m2 = Returned (Some m, e) ->
            2 <= length blocks /\ cfg m = c /\ Some leaves = Some (Leaves m)
            /\ Depth m = D /\ NumLeaves m = length blocks) as Hfin.
  { intros m2 k Hm2 Hk Hr. apply (named_results_keeps _ _ _ _ Hk) in Hr.
    rewrite Hm2 in Hr. unfold inputs in Hr. injection Hr as -> -> -> ->.
    split_and!; try done. lia. }
  repeat case_decide; try done; apply Hfin; try done.
  - apply keeps_proofGen.
  - apply keeps_treeBuild.
  - repeat first
      [ apply keeps_treeBuild | apply keeps_initProofs
      | apply keeps_updateProofs | apply keeps_updateProofsParallel
      | keeps_step ].
Qed.

(** C9: a tree [New] returns for [n >= 2] blocks stores [n] as its number
    of leaves and the bit length of [n - 1] as its depth, and that depth is
    the smallest [d] with [2^d >= n]. *)
Theorem C9_depth_is_least_power config (blocks : list (option B)) m e :
  New' config blocks = Returned (Some m, e) ->
  2 <= length blocks
  /\ NumLeaves m = length blocks
  /\ Depth m = bits_Len (length blocks - 1)
  /\ length blocks <= 2 ^ Depth m
  /\ forall d, length blocks <= 2 ^ d -> Depth m <= d.
Proof.
  intros (Hn & _ & _ & HD & HN)%New_returned.
  destruct (depth_bounds _ Hn) as [Hlo Hhi]. rewrite HD.
  split_and!; try done.
  intros d Hd. destruct (decide (bits_Len (length blocks - 1) <= d));
    [done|]. exfalso.
  assert (2 ^ d <= 2 ^ (bits_Len (length blocks - 1) - 1)); [|lia].
  apply Nat.pow_le_mono_r; lia.
Qed.

(** C10: in a tree [New] returns, in every mode and even next to an error,
    [Leaves] has one digest per input block, in input order, and no
    balancing duplicate; after a construction without error in a mode that
    retains the tree, the duplicate is in level 0 of the nodes only. *)
Theorem C10_leaves_untouched config (blocks : list (option B)) m e :
  New' config blocks = Returned (Some m, e) ->
  length (Leaves m) = NumLeaves m
  /\ NumLeaves m = length blocks
  /\ (forall i b, blocks !! i = Some b ->
        Leaves m !! i = leaf_digest (cfg m) b)
  /\ (e = None -> Mode (cfg m) <> ModeProofGen ->
        nodes m !! 0 = Some (dup_last (Leaves m))).
Proof.
  intros Hnew.
  destruct (New_returned _ _ _ _ Hnew) as (Hn & Hc & Hl & HD & HN).
  rewrite HN, Hc. split_and!; try done.
  - by apply leaves_of_length in Hl.
  - intros i b Hi. by eapply leaves_of_lookup.
  - intros -> Hmode.
    assert (built (New' config blocks) = Some m) as Hb by (by rewrite Hnew).
    apply built_tree_of in Hb.
    destruct (tree_of_inv _ _ _ Hb)
      as (leaves & lv & _ & _ & Hlv & _ & _ & HL & _ & _ & _ & Hnodes & _).
    rewrite Hnodes, decide_False, HL by done.
    unfold tree_levels in Hlv.
    by destruct (levels_from_cons _ _ _ _ Hlv) as (r & -> & _).
Qed.

(** C2: for a fixed configuration and block sequence, the proof-only mode
    and either tree-retained mode succeed on the same inputs and return the
    same root. *)
Theorem C2_modes_same_root (c : Config) (blocks : list (option B)) mode :
  mode = ModeTreeBuild \/ mode = ModeProofGenAndTreeBuild ->
  match built (New' (Some (set_Mode ModeProofGen c)) blocks),
        built (New' (Some (set_Mode mode c)) blocks) with
  | Some m0, Some m1 => Root m0 = Root m1
  | None, None => True
  | _, _ => False
  end.
Proof.
  intros Hmode. rewrite !New_built, !normalize_set_Mode.
  set (c' := normalize' (Some c)).
  destruct (tree_of (set_Mode ModeProofGen c') blocks) as [m0|] eqn:H0.
  - destruct (tree_of_agree (set_Mode ModeProofGen c') (set_Mode mode c')
                blocks m0) as (m1 & -> & Hr & _); try done.
    simpl. tauto.
  - destruct (tree_of (set_Mode mode c') blocks) as [m1|] eqn:H1; [|done].
    destruct (tree_of_agree (set_Mode mode c') (set_Mode ModeProofGen c')
                blocks m1) as (m0 & H0' & _); try done.
    + simpl. tauto.
    + congruence.
Qed.


Lemma normalize_RunInParallel_digests (c : Config) :
  (HashFunc c = None -> forall x, DefaultHashFuncParallel x = DefaultHashFunc x) ->
  let cp := normalize' (Some (set_RunInParallel true c)) in
  let cs := normalize' (Some (set_RunInParallel false c)) in
  (forall l r, pair_digest cp l r = pair_digest cs l r)
  /\ (forall b : option B, leaf_digest cp b = leaf_digest cs b)
  /\ Mode cp = Mode cs.
Proof.
  intros Hdef. unfold normalize, pair_digest, leaf_digest.
  destruct c as [[cf|] [h|] nr mo par [] dl]; simpl in *;
    repeat case_decide; simpl; split_and!; try done;
    try (intros l r; by rewrite Hdef);
    intros [b|]; simpl; try done;
    destruct (Serialize b); try done; destruct dl; try done;
    by rewrite Hdef.
Qed.

(** C4: with the run-in-parallel flag set or cleared, construction succeeds
    on the same inputs and returns the same root, proofs, leaves, levels and
    leaf index; the default digest function of the parallel mode is assumed
    to compute the same digests as the sequential default.  The strided
    partition of the pair loop among [W] workers visits exactly the indices
    of the sequential loop. *)
Theorem C4_parallel_same_result (c : Config) (blocks : list (option B)) :
  (HashFunc c = None ->
   forall x, DefaultHashFuncParallel x = DefaultHashFunc x) ->
  match built (New' (Some (set_RunInParallel true c)) blocks),
        built (New' (Some (set_RunInParallel false c)) blocks) with
  | Some mp, Some ms =>
      Root mp = Root ms /\ Proofs mp = Proofs ms /\ Leaves mp = Leaves ms
      /\ nodes mp = nodes ms /\ leafMap mp = leafMap ms
      /\ Depth mp = Depth ms /\ NumLeaves mp = NumLeaves ms
  | None, None => True
  | _, _ => False
  end
  /\ forall W n, 0 < W ->
       seq 0 W ≫= (λ i, strided (2 * i) n (2 * W)) ≡ₚ strided 0 n 2.
Proof.
  intros Hdef. split.
  - rewrite !New_built.
    destruct (normalize_RunInParallel_digests c Hdef) as (Hp & Hl & Hm).
    set (cp := normalize' (Some (set_RunInParallel true c))) in *.
    set (cs := normalize' (Some (set_RunInParallel false c))) in *.
    destruct (tree_of cp blocks) as [mp|] eqn:Hmp.
    + destruct (tree_of_inv _ _ _ Hmp) as (? & ? & Hinv).
      destruct (tree_of_agree cp cs blocks mp) as (ms & -> & H); try done.
      * rewrite <- Hm. apply Hinv.
      * destruct H as (? & ? & ? & ? & Hrest).
        destruct (Hrest Hm) as (? & ? & ?). done.
    + destruct (tree_of cs blocks) as [ms|] eqn:Hms; [|done].
      destruct (tree_of_inv _ _ _ Hms) as (? & ? & Hinv).
      destruct (tree_of_agree cs cp blocks ms) as (mp & Hmp' & _);
        [done | done | rewrite Hm; apply Hinv | done | congruence].
  - intros W n HW. apply worker_indices_partition; lia.
Qed.

#[local] Abbreviation Verify' := (Verify (B := B) DefaultHashFunc).
#[local] Abbreviation MerkleTree_Verify' :=
  (MerkleTree_Verify (B := B) DefaultHashFunc).

(** C7 (amended): [Verify] returns one of the package's own errors exactly
    when the block or the proof is absent.  With both present, an error is
    the error of the block's [Serialize] or of the digest function, and a
    run without error returns whether the replayed digest equals the root:
    [false] is a normal result. *)
Theorem C7_verify_outcomes (b : option B) (p : option Proof) (root : bytes)
    (config : option Config) :
  ((exists msg s, Verify' b p root config = Fail (errors_New msg) s)
   <-> b = None \/ p = None)
  /\ (b = None ->
      Verify' b p root config = Fail (errors_New ErrDataBlockIsNil) config)
  /\ (b <> None -> p = None ->
      Verify' b p root config = Fail (errors_New ErrProofIsNil) config)
  /\ (forall e s, b <> None -> p <> None ->
        Verify' b p root config = Fail e s ->
        (exists msg, e = SerializeError msg) \/ (exists msg, e = HashError msg))
  /\ (forall p', b <> None -> p = Some p' ->
        let c := verify_config DefaultHashFunc (default new_Config config) in
        succ (Verify' b p root config)
        = leaf ← leaf_digest c b;
          r ← replay c (Siblings p') leaf (Path p');
          Some (bool_decide (r = root), (λ _, c) <$> config)).
Proof.
  assert (forall p', b <> None -> p = Some p' ->
            forall e s, Verify' b p root config = Fail e s ->
            (exists msg, e = SerializeError msg)
            \/ (exists msg, e = HashError msg)) as Herr.
  { intros p' Hb -> e s. destruct b as [b|]; [|done]. unfold Verify.
    destruct config as [c|].
    - destruct (Verify_on _ _ _ _ c) as [| e' c' |] eqn:Hv; try done.
      intros [= <- <-]. by apply Verify_on_Fail in Hv as [_ ?].
    - destruct (Verify_on _ _ _ _ new_Config) as [| e' c' |] eqn:Hv;
        try done.
      intros [= <- <-]. by apply Verify_on_Fail in Hv as [_ ?]. }
  split_and!.
  - split.
    + intros (msg & s & Hv). destruct b as [b|]; [|by left].
      destruct p as [p'|]; [|by right].
      destruct (Herr p' ltac:(done) eq_refl _ _ Hv) as [[? ?]|[? ?]]; done.
    + intros [-> | ->]; [by eauto|]. destruct b; simpl; eauto.
  - by intros ->.
  - intros Hb ->. by destruct b.
  - intros e s Hb Hp. destruct p as [p'|]; [|done]. by apply (Herr p').
  - intros p' Hb -> c. destruct b as [b|]; [|done]. unfold Verify.
    destruct config as [c0|].
    + transitivity ((λ '(ok, c'), (ok, Some c'))
                      <$> succ (Verify_on DefaultHashFunc (Some b) p' root c0)).
      { by destruct (Verify_on _ _ _ _ c0). }
      rewrite succ_Verify_on. subst c. cbn [default].
      destruct (leaf_digest _ (Some b)) as [leaf|]; [|done]. simpl.
      by destruct (replay _ _ leaf _).
    + transitivity ((λ '(ok, c'), (ok, @None Config))
                      <$> succ (Verify_on DefaultHashFunc (Some b) p' root
                                  new_Config)).
      { by destruct (Verify_on _ _ _ _ new_Config). }
      rewrite succ_Verify_on. subst c. cbn [default].
      destruct (leaf_digest _ (Some b)) as [leaf|]; [|done]. simpl.
      by destruct (replay _ _ leaf _).
Qed.

Lemma set_cfg_id m : set_cfg (cfg m) m = m.
Proof. by destruct m. Qed.

(** In the tree built from [blocks], a proof of the position [idx] verifies
    for every block whose digest is the leaf at [idx]. *)
Lemma proof_of_verifies config (blocks : list (option B)) m leaves lv idx b
    leaf :
  built (New' config blocks) = Some m ->
  length blocks <= 2 ^ 32 ->
  leaves_of (cfg m) blocks = Some leaves ->
  tree_levels (cfg m) (bits_Len (length blocks - 1)) leaves = Some lv ->
  leaves !! idx = Some leaf -> leaf_digest (cfg m) b = Some leaf ->
  MerkleTree_Verify' b (Some (proof_of lv idx)) m = Ret true m.
Proof.
  intros Hb%built_tree_of Hcap Hleaves Hlv Hidx Hleaf.
  destruct (tree_of_inv _ _ _ Hb)
    as (leaves' & lv' & Hn & _ & _ & Hroot & Hc & _).
  pose proof (leaves_of_length _ _ _ Hleaves) as Hlen.
  pose proof (lookup_lt_Some _ _ _ Hidx) as Hlt.
  assert (succ (Verify_on DefaultHashFunc b (proof_of lv idx) (Root m) (cfg m))
          = Some (true, cfg m)) as Hs.
  { rewrite succ_Verify_on, Hc, verify_config_normalize, <- Hc, Hleaf. simpl.
    rewrite <- (list_lookup_total_correct _ _ _ Hidx).
    rewrite <- Hlen in Hlv.
    rewrite (replay_proof_of (cfg m) leaves lv idx) by (done || lia).
    rewrite <- Hc in Hroot.
    assert (tree_root (cfg m) lv = Some (Root m)) as ->.
    { destruct (tree_of_inv _ _ _ Hb)
        as (l2 & lv2 & _ & Hl2 & Hlv2 & Hr2 & Hc2 & _).
      rewrite <- Hc2 in *. rewrite Hlen in Hlv. by simplify_eq. }
    simpl. unfold bytes_Equal. by rewrite bool_decide_true. }
  apply succ_Some in Hs. unfold MerkleTree_Verify, Verify.
  destruct b as [b|]; [|done]. rewrite Hs. simpl. by rewrite set_cfg_id.
Qed.

(** [Proof] on a tree built in a tree-retained mode, for a block of the
    input: the proof of the last position that holds the block's digest. *)
Lemma on_demand_proof config (blocks : list (option B)) m i b :
  built (New' config blocks) = Some m ->
  Mode (cfg m) <> ModeProofGen -> blocks !! i = Some b ->
  exists leaf idx,
    leaf_digest (cfg m) b = Some leaf
    /\ Leaves m !! i = Some leaf /\ Leaves m !! idx = Some leaf
    /\ i <= idx
    /\ (forall j, idx < j -> Leaves m !! j <> Some leaf)
    /\ MerkleTree_Proof b m = Ret (proof_of (nodes m) idx) m
    /\ leafMap m !! leaf = Some idx.
Proof.
  intros Hb%built_tree_of Hmode Hi.
  destruct (tree_of_inv _ _ _ Hb)
    as (leaves & lv & Hn & Hl & Hlv & Hroot & Hc & HL & HD & HN & _
        & Hnodes & Hmap & Hvalid).
  rewrite <- Hc in *. rewrite decide_False in Hnodes by done.
  rewrite decide_False in Hmap by done.
  pose proof (leaves_of_length _ _ _ Hl) as Hlen.
  pose proof (lookup_lt_Some _ _ _ Hi) as Hlt.
  destruct (lookup_lt_is_Some_2 leaves i ltac:(lia)) as [leaf Hleaf].
  pose proof (leaves_of_lookup _ _ _ _ _ Hl Hi) as Hd.
  rewrite Hleaf in Hd. symmetry in Hd.
  destruct (leaf_index_is_Some _ _ _ Hleaf) as (idx & Hidx & Hle).
  pose proof (proj1 (leaf_index_lookup _ _ _) Hidx) as [Hx Hlast].
  exists leaf, idx. rewrite HL. split_and!; try done; [|by rewrite Hmap].
  apply succ_Some.
  rewrite <- Hlen in Hlv.
  destruct (tree_levels_shape (cfg m) leaves lv ltac:(lia) Hlv)
    as (Hlvlen & Hshape & _).
  rewrite (succ_MerkleTree_Proof m (length leaves)).
  - rewrite Hd. simpl. rewrite Hmap, Hidx. done.
  - tauto.
  - rewrite Hnodes, HD, Hlvlen. by rewrite Hlen.
  - rewrite Hnodes. intros j L HjL. destruct (Hshape j L HjL) as (? & ? & ?).
    done.
  - rewrite Hmap. intros x k Hk.
    apply leaf_index_lookup in Hk as [Hk _]. by eapply lookup_lt_Some.
Qed.

(** C1 (amended): in a tree built from at most [2^32] blocks, every block
    verifies against the root with the proof recorded for its leaf (in the
    modes that record proofs, streamed or eager) and with the proof [Proof]
    returns for it (in the modes that retain the tree). *)
Theorem C1_own_proof_verifies config (blocks : list (option B)) m i b :
  built (New' config blocks) = Some m ->
  length blocks <= 2 ^ 32 ->
  blocks !! i = Some b ->
  (Mode (cfg m) <> ModeTreeBuild ->
   exists p, Proofs m !! i = Some p
             /\ MerkleTree_Verify' b (Some p) m = Ret true m)
  /\ (Mode (cfg m) <> ModeProofGen ->
      exists p, MerkleTree_Proof b m = Ret p m
                /\ MerkleTree_Verify' b (Some p) m = Ret true m).
Proof.
  intros Hb Hcap Hi. pose proof (built_tree_of _ _ _ Hb) as Ht.
  destruct (tree_of_inv _ _ _ Ht)
    as (leaves & lv & Hn & Hl & Hlv & Hroot & Hc & HL & HD & HN & HP
        & Hnodes & Hmap & Hvalid).
  rewrite <- Hc in *.
  pose proof (leaves_of_length _ _ _ Hl) as Hlen.
  pose proof (lookup_lt_Some _ _ _ Hi) as Hlt.
  split.
  - intros Hmode. rewrite decide_False in HP by done.
    exists (proof_of lv i). split.
    + rewrite HP. unfold proofs_of. rewrite list_lookup_fmap.
      by rewrite lookup_seq_lt.
    + destruct (lookup_lt_is_Some_2 leaves i ltac:(lia)) as [leaf Hleaf].
      pose proof (leaves_of_lookup _ _ _ _ _ Hl Hi) as Hd.
      rewrite Hleaf in Hd. by eapply proof_of_verifies.
  - intros Hmode.
    destruct (on_demand_proof _ _ _ _ _ Hb Hmode Hi)
      as (leaf & idx & Hd & _ & Hidx & _ & _ & Hproof & _).
    exists (proof_of (nodes m) idx). split; [done|].
    rewrite Hnodes, decide_False by done. rewrite HL in Hidx.
    by eapply proof_of_verifies.
Qed.

(** C3 (amended): in a tree that retains its levels, [Proof] returns for a
    block the proof recorded for the last leaf that holds the block's
    digest: the one a proof-only construction streams for that leaf and, in
    the mode that does both, the one recorded eagerly.  When the leaf
    digests are pairwise distinct this is the block's own leaf. *)
Theorem C3_on_demand_is_recorded (c : Config) (blocks : list (option B))
    mode m m0 i b :
  mode = ModeTreeBuild \/ mode = ModeProofGenAndTreeBuild ->
  built (New' (Some (set_Mode mode c)) blocks) = Some m ->
  built (New' (Some (set_Mode ModeProofGen c)) blocks) = Some m0 ->
  blocks !! i = Some b ->
  exists idx p,
    MerkleTree_Proof b m = Ret p m
    /\ Proofs m0 !! idx = Some p
    /\ (mode = ModeProofGenAndTreeBuild -> Proofs m !! idx = Some p)
    /\ i <= idx < length blocks
    /\ Leaves m !! idx = Leaves m !! i
    /\ (forall j, idx < j -> Leaves m !! j <> Leaves m !! i)
    /\ (NoDup (Leaves m) -> idx = i).
Proof.
  intros Hmode Hb Hb0 Hi.
  pose proof (built_tree_of _ _ _ Hb) as Ht.
  pose proof (built_tree_of _ _ _ Hb0) as Ht0.
  rewrite normalize_set_Mode in Ht, Ht0.
  set (c' := normalize' (Some c)) in *.
  destruct (tree_of_inv _ _ _ Ht)
    as (leaves & lv & Hn & Hl & Hlv & Hroot & Hc & HL & HD & HN & HP
        & Hnodes & Hmap & Hvalid).
  destruct (tree_of_agree (set_Mode mode c') (set_Mode ModeProofGen c')
              blocks m) as (m0' & Ht0' & _); try done.
  { simpl. tauto. }
  destruct (tree_of_inv _ _ _ Ht0)
    as (leaves0 & lv0 & _ & Hl0 & Hlv0 & _ & _ & _ & _ & _ & HP0 & _).
  assert (leaves0 = leaves) as ->.
  { rewrite (leaves_of_ext _ (set_Mode mode c')) in Hl0 by done. congruence. }
  assert (lv0 = lv) as ->.
  { unfold tree_levels in *.
    rewrite (levels_from_ext _ (set_Mode mode c')) in Hlv0 by done.
    congruence. }
  assert (Mode (cfg m) <> ModeProofGen) as Hmode'.
  { rewrite Hc. simpl. by destruct Hmode as [-> | ->]. }
  destruct (on_demand_proof _ _ _ _ _ Hb Hmode' Hi)
    as (leaf & idx & Hd & Hleaf & Hidx & Hle & Hlast & Hproof & _).
  pose proof (lookup_lt_Some _ _ _ Hidx) as Hlt.
  pose proof (leaves_of_length _ _ _ Hl) as Hlen.
  rewrite HL in Hlt.
  exists idx, (proof_of lv idx).
  assert (proofs_of lv (length blocks) !! idx = Some (proof_of lv idx))
    as Hrec.
  { unfold proofs_of. rewrite list_lookup_fmap.
    by rewrite lookup_seq_lt by lia. }
  split_and!.
  - rewrite Hproof, Hnodes. simpl. by destruct Hmode as [-> | ->].
  - rewrite HP0. simpl. done.
  - intros ->. rewrite HP. simpl. done.
  - done.
  - lia.
  - congruence.
  - intros j Hj. rewrite Hleaf. by apply Hlast.
  - intros Hnd. by eapply NoDup_lookup.
Qed.

(** C8 (amended): for a block of a tree that retains its levels, [Proof]
    starts at the position the leaf index holds for the block's digest and,
    at each level [k], with the position [pos = idx / 2^k]: when [pos] is
    odd the sibling is the node at [pos - 1] and bit [k] of the path is 0;
    when [pos] is even the sibling is the node at [pos + 1] and bit [k] of
    the path is 1 provided [k < 32], the width of the path. *)
Theorem C8_on_demand_walk config (blocks : list (option B)) m i b :
  built (New' config blocks) = Some m ->
  Mode (cfg m) <> ModeProofGen ->
  blocks !! i = Some b ->
  exists idx p,
    MerkleTree_Proof b m = Ret p m
    /\ Leaves m !! idx = Leaves m !! i
    /\ length (Siblings p) = Depth m
    /\ forall k L, nodes m !! k = Some L ->
         let pos := idx / 2 ^ k in
         (pos mod 2 = 1 ->
            Siblings p !! k = L !! (pos - 1) /\ is_Some (L !! (pos - 1))
            /\ N.testbit (Path p) (N.of_nat k) = false)
         /\ (pos mod 2 = 0 ->
            Siblings p !! k = L !! (pos + 1) /\ is_Some (L !! (pos + 1))
            /\ N.testbit (Path p) (N.of_nat k) = bool_decide (k < 32)).
Proof.
  intros Hb Hmode Hi.
  destruct (on_demand_proof _ _ _ _ _ Hb Hmode Hi)
    as (leaf & idx & Hd & Hleaf & Hidx & Hle & Hlast & Hproof & _).
  pose proof (built_tree_of _ _ _ Hb) as Ht.
  destruct (tree_of_inv _ _ _ Ht)
    as (leaves & lv & Hn & Hl & Hlv & Hroot & Hc & HL & HD & HN & HP
        & Hnodes & Hmap & Hvalid).
  rewrite <- Hc in *. rewrite decide_False in Hnodes by done.
  pose proof (leaves_of_length _ _ _ Hl) as Hlen.
  rewrite <- Hlen in Hlv.
  destruct (tree_levels_shape (cfg m) leaves lv ltac:(lia) Hlv)
    as (Hlvlen & Hshape & _).
  pose proof (lookup_lt_Some _ _ _ Hidx) as Hlt. rewrite HL in Hlt.
  exists idx, (proof_of (nodes m) idx). rewrite Hnodes.
  split_and!.
  - by rewrite <- Hnodes.
  - congruence.
  - rewrite proof_of_Siblings, length_imap, Hlvlen, HD. by rewrite Hlen.
  - intros k L HkL pos.
    destruct (Hshape _ _ HkL) as (He & Hpos & Hcov).
    assert (pos < length L).
    { apply Nat.Div0.div_lt_upper_bound. lia. }
    pose proof (lookup_lt_Some _ _ _ HkL) as Hk.
    rewrite proof_of_Siblings, list_lookup_imap, HkL, proof_of_Path_bits.
    simpl. fold pos. unfold sibling, path_bit. split; intros Hpar.
    + rewrite decide_False, (bool_decide_false (pos mod 2 = 0)) by lia.
      destruct (lookup_lt_is_Some_2 L (pos - 1) ltac:(lia)) as [x Hx].
      rewrite (list_lookup_total_correct _ _ _ Hx), Hx.
      split_and!; [done | eauto | apply andb_false_r].
    + rewrite decide_True, (bool_decide_true (pos mod 2 = 0)) by lia.
      destruct (lookup_lt_is_Some_2 L (pos + 1) ltac:(lia)) as [x Hx].
      rewrite (list_lookup_total_correct _ _ _ Hx), Hx.
      split_and!; [done | eauto |]. rewrite andb_true_r.
      apply bool_decide_ext. lia.
Qed.
End Claims.

(** * A tree deeper than the path is wide *)

Lemma bits_Len_pow2 k : bits_Len (2 ^ k) = S k.
Proof.
  assert (0 < 2 ^ k) as Hpos by (apply Nat.neq_0_lt_0, Nat.pow_nonzero; lia).
  destruct (bits_Len_bounds (2 ^ k) Hpos) as [Hlo Hhi].
  apply Nat.pow_le_mono_r_iff in Hlo; [|lia].
  apply Nat.pow_lt_mono_r_iff in Hhi; [|lia].
  lia.
Qed.

Lemma mapM_seq_Some {C} (f : nat -> option C) (ys : list C) :
  (forall j y, ys !! j = Some y -> f j = Some y) ->
  mapM f (seq 0 (length ys)) = Some ys.
Proof.
  induction ys as [|y ys IH] using rev_ind; intros Hf; [done|].
  rewrite length_app. simpl. rewrite Nat.add_1_r, seq_S, mapM_snoc. simpl.
  rewrite IH; cycle 1.
  { intros j z Hj. apply Hf. rewrite lookup_app_l; [done|].
    by eapply lookup_lt_Some. }
  simpl. rewrite (Hf (length ys) y); [done|].
  by rewrite list_lookup_middle.
Qed.

Section TwoDigests.

Context (c : Config).
Hypothesis pair_first_byte :
  forall l r, pair_digest c l r = Some (take 1 (l ++ r)).

#[local] Abbreviation dA := ([Byte.x01] : bytes).
#[local] Abbreviation dB := ([Byte.x02] : bytes).

Lemma two_digest_hash_level n :
  hash_level c (replicate (2 * n) dA ++ [dB; dB]) = Some (replicate n dA ++ [dB]).
Proof using Type*.
  unfold hash_level.
  assert (length (replicate (2 * n) dA ++ [dB; dB]) / 2
          = length (replicate n dA ++ [dB])) as ->.
  { rewrite !length_app, !length_replicate. simpl. lia. }
  apply mapM_seq_Some. intros j y Hj. unfold pair_at.
  destruct (decide (j < n)) as [Hlt|Hge].
  - rewrite lookup_app_l in Hj by (rewrite length_replicate; lia).
    apply lookup_replicate in Hj as [-> _].
    rewrite !lookup_app_l by (rewrite length_replicate; lia).
    rewrite !lookup_replicate_2 by lia. simpl. by rewrite pair_first_byte.
  - pose proof (lookup_lt_Some _ _ _ Hj) as Hlen.
    rewrite length_app, length_replicate in Hlen. simpl in Hlen.
    assert (j = n) as -> by lia.
    rewrite lookup_app_r in Hj by (rewrite length_replicate; lia).
    rewrite length_replicate, Nat.sub_diag in Hj. simpl in Hj.
    injection Hj as <-.
    rewrite !lookup_app_r by (rewrite length_replicate; lia).
    rewrite !length_replicate.
    replace (2 * n - 2 * n) with 0 by lia.
    replace (2 * n + 1 - 2 * n) with 1 by lia.
    simpl. by rewrite pair_first_byte.
Qed.

Lemma pow2_double j : 2 ^ S j = 2 * 2 ^ j.
Proof using Type*. apply Nat.pow_succ_r'. Qed.

Lemma two_digest_level_even j : length (two_digest_level j) mod 2 = 0.
Proof using Type*.
  destruct j as [|j]; [done|]. unfold two_digest_level.
  rewrite length_app, length_replicate, pow2_double. simpl. lia.
Qed.

Lemma two_digest_levels_from j :
  levels_from c j (two_digest_level j) = Some (two_digest_levels j).
Proof using Type*.
  induction j as [|j IH]; [done|].
  cbn [levels_from two_digest_levels].
  assert (hash_level c (two_digest_level (S j))
          = Some (replicate (2 ^ j) dA ++ [dB])) as ->.
  { unfold two_digest_level. rewrite pow2_double.
    apply two_digest_hash_level. }
  simpl.
  assert (dup_last (replicate (2 ^ j) dA ++ [dB]) = two_digest_level j)
    as ->.
  { destruct j as [|j].
    - rewrite Nat.pow_0_r. reflexivity.
    - unfold dup_last, two_digest_level.
      rewrite decide_False; cycle 1.
      { rewrite length_app, length_replicate, pow2_double. simpl. lia. }
      rewrite last_snoc. simpl. by rewrite <- app_assoc. }
  by rewrite IH.
Qed.

Lemma two_digest_levels_length j : length (two_digest_levels j) = S j.
Proof using Type*. induction j as [|j IH]; simpl; [done|]. by rewrite IH. Qed.

Lemma two_digest_levels_last j :
  last (two_digest_levels j) = Some [dA; dB].
Proof using Type*.
  induction j as [|j IH]; [done|].
  cbn [two_digest_levels]. destruct (two_digest_levels j) eqn:E; [done|].
  rewrite <- IH. done.
Qed.

Lemma two_digest_root j : tree_root c (two_digest_levels j) = Some dA.
Proof using Type*.
  unfold tree_root. rewrite two_digest_levels_last. simpl.
  by rewrite pair_first_byte.
Qed.

Lemma two_digest_dup_last k :
  0 < k -> dup_last (replicate (2 ^ k) dA ++ [dB]) = two_digest_level k.
Proof using Type*.
  intros Hk. destruct k as [|k]; [lia|]. unfold dup_last, two_digest_level.
  rewrite decide_False; cycle 1.
  { rewrite length_app, length_replicate, pow2_double. simpl. lia. }
  rewrite last_snoc. simpl. by rewrite <- app_assoc.
Qed.

(** The proof of leaf 0: the sibling is [0x01] at every level but the last,
    where it is [0x02]. *)
Lemma two_digest_siblings j :
  Siblings (proof_of (two_digest_levels j) 0) = replicate j dA ++ [dB].
Proof using Type*.
  rewrite proof_of_Siblings.
  rewrite (imap_ext _ (λ _ L, sibling L 0)); cycle 1.
  { intros i L _. by rewrite Nat.Div0.div_0_l. }
  induction j as [|j IH]; [done|].
  cbn [two_digest_levels imap replicate app]. f_equal; [|exact IH].
  unfold sibling, two_digest_level. simpl.
  assert (1 < 2 ^ S j) as Hlt.
  { rewrite pow2_double.
    assert (0 < 2 ^ j) by (apply Nat.neq_0_lt_0, Nat.pow_nonzero; lia).
    lia. }
  apply list_lookup_total_correct.
  rewrite lookup_app_l by (rewrite length_replicate; lia).
  by apply lookup_replicate_2.
Qed.

Lemma replay_two_digest n : forall path rest,
  replay c (replicate n dA ++ rest) dA path
  = replay c rest dA (N.shiftr path (N.of_nat n)).
Proof using Type*.
  induction n as [|n IH]; intros path rest.
  - simpl. by rewrite N.shiftr_0_r.
  - cbn [replicate app replay].
    assert ((if decide (N.land path 1 = 1%N)
             then pair_digest c dA dA else pair_digest c dA dA) = Some dA)
      as ->.
    { case_decide; by rewrite pair_first_byte. }
    simpl. rewrite IH, N.shiftr_shiftr. do 2 f_equal. lia.
Qed.

End TwoDigests.

Lemma mapM_replicate {A C} (f : A -> option C) x y n :
  f x = Some y -> mapM f (replicate n x) = Some (replicate n y).
Proof.
  intros Hf. induction n as [|n IH]; [done|].
  simpl. rewrite Hf. simpl. by rewrite IH.
Qed.

Lemma pow2_pos k : 0 < 2 ^ k.
Proof. apply Nat.neq_0_lt_0, Nat.pow_nonzero. lia. Qed.

Section DeepTree.

#[local] Abbreviation dA := ([Byte.x01] : bytes).
#[local] Abbreviation dB := ([Byte.x02] : bytes).
#[local] Abbreviation example_New mode :=
  (New first_byte_hash first_byte_hash 4 (Some (example_config mode false))).
#[local] Abbreviation example_normal mode :=
  (normalize first_byte_hash first_byte_hash 4
     (Some (example_config mode false))).

Lemma example_pair_digest mode l r :
  pair_digest (example_normal mode) l r = Some (take 1 (l ++ r)).
Proof. reflexivity. Qed.

Lemma two_digest_blocks_length k :
  length (two_digest_blocks k) = 2 ^ k + 1.
Proof.
  unfold two_digest_blocks. by rewrite length_app, length_replicate.
Qed.

Lemma two_digest_blocks_0 k :
  two_digest_blocks k !! 0 = Some (Some (Data dA)).
Proof.
  unfold two_digest_blocks. pose proof (pow2_pos k).
  rewrite lookup_app_l by (rewrite length_replicate; lia).
  by apply lookup_replicate_2.
Qed.

Lemma two_digest_leaves mode k :
  leaves_of (example_normal mode) (two_digest_blocks k)
  = Some (replicate (2 ^ k) dA ++ [dB]).
Proof.
  unfold leaves_of, two_digest_blocks. rewrite mapM_snoc.
  rewrite (mapM_replicate _ _ dA) by reflexivity. reflexivity.
Qed.

(** The tree [New] builds from the two-digest input. *)
Lemma two_digest_tree k mode :
  0 < k ->
  mode = ModeProofGen \/ mode = ModeTreeBuild
  \/ mode = ModeProofGenAndTreeBuild ->
  exists m,
    built (example_New mode (two_digest_blocks k)) = Some m
    /\ cfg m = example_normal mode
    /\ Root m = dA
    /\ Leaves m = replicate (2 ^ k) dA ++ [dB]
    /\ Depth m = S k
    /\ (mode <> ModeTreeBuild ->
        Proofs m = proofs_of (two_digest_levels k) (2 ^ k + 1))
    /\ (mode <> ModeProofGen -> nodes m = two_digest_levels k).
Proof.
  intros Hk Hmode. rewrite New_built.
  set (c := example_normal mode).
  pose proof (pow2_pos k) as Hpos.
  pose proof (two_digest_blocks_length k) as Hlen.
  assert (bits_Len (length (two_digest_blocks k) - 1) = S k) as HD.
  { rewrite Hlen, Nat.add_sub. apply bits_Len_pow2. }
  assert (tree_levels c (bits_Len (length (two_digest_blocks k) - 1))
            (replicate (2 ^ k) dA ++ [dB]) = Some (two_digest_levels k))
    as Hlv.
  { rewrite HD. unfold tree_levels.
    rewrite Nat.sub_succ, Nat.sub_0_r, two_digest_dup_last by done.
    apply two_digest_levels_from. apply example_pair_digest. }
  assert (tree_root c (two_digest_levels k) = Some dA) as Hroot.
  { apply two_digest_root. apply example_pair_digest. }
  destruct (tree_of_intro c (two_digest_blocks k) _ _ _
              ltac:(lia) (two_digest_leaves mode k) Hlv Hroot Hmode)
    as [m Hm].
  exists m. split; [done|].
  destruct (tree_of_inv _ _ _ Hm)
    as (leaves & lv & _ & Hl & Hlv' & Hroot' & Hc & HL & HD' & _ & HP
        & Hnodes & _).
  unfold c in Hl. rewrite two_digest_leaves in Hl. injection Hl as <-.
  fold c in Hlv'. rewrite Hlv in Hlv'. injection Hlv' as <-.
  rewrite Hroot in Hroot'. injection Hroot' as Hr.
  split_and!; try done.
  - by rewrite HD', HD.
  - intros Hne. rewrite HP, Hlen.
    change (Mode c) with mode. by rewrite decide_False.
  - intros Hne. rewrite Hnodes.
    change (Mode c) with mode. by rewrite decide_False.
Qed.

(** With more than [2^32] leaves, the recorded proof of the first block
    does not verify: the path has no bit for the last level. *)
Lemma two_digest_verify_fails k mode :
  32 <= k -> mode = ModeProofGen \/ mode = ModeProofGenAndTreeBuild ->
  exists m p,
    built (example_New mode (two_digest_blocks k)) = Some m
    /\ two_digest_blocks k !! 0 = Some (Some (Data dA))
    /\ Proofs m !! 0 = Some p
    /\ MerkleTree_Verify first_byte_hash (Some (Data dA)) (Some p) m
       = Ret false m.
Proof.
  intros Hk Hmode.
  destruct (two_digest_tree k mode) as (m & Hb & Hc & Hroot & _ & _ & HP & _);
    [lia | tauto |].
  exists m, (proof_of (two_digest_levels k) 0).
  split; [done|]. split; [apply two_digest_blocks_0|].
  pose proof (pow2_pos k) as Hpos. split.
  - rewrite HP by (by destruct Hmode as [-> | ->]).
    unfold proofs_of. rewrite list_lookup_fmap.
    by rewrite lookup_seq_lt by lia.
  - assert (succ (Verify_on first_byte_hash (Some (Data dA))
                    (proof_of (two_digest_levels k) 0) (Root m) (cfg m))
            = Some (false, cfg m)) as Hs.
    { rewrite succ_Verify_on, Hc, verify_config_normalize.
      change (leaf_digest (example_normal mode) (Some (Data dA)))
        with (Some dA).
      cbn [mbind option_bind].
      rewrite two_digest_siblings.
      rewrite (replay_two_digest _ (example_pair_digest mode)).
      cbn [replay].
      rewrite decide_False; cycle 1.
      { intros Hbit%land_1_testbit.
        rewrite N.shiftr_spec, N.add_0_l, proof_of_Path_bits in Hbit by lia.
        rewrite bool_decide_false in Hbit by lia. done. }
      rewrite example_pair_digest, Hroot. reflexivity. }
    apply succ_Some in Hs. unfold MerkleTree_Verify, Verify.
    rewrite Hs. simpl. by rewrite set_cfg_id.
Qed.

(** With more than [2^32] leaves, [Proof] meets an even position at the
    last level, and the bit of that level is not in the path. *)
Lemma two_digest_top_bit k :
  32 <= k ->
  exists m p idx,
    built (example_New ModeTreeBuild (two_digest_blocks k)) = Some m
    /\ two_digest_blocks k !! 0 = Some (Some (Data dA))
    /\ MerkleTree_Proof (Some (Data dA)) m = Ret p m
    /\ leafMap m !! dA = Some idx
    /\ is_Some (nodes m !! k)
    /\ (idx / 2 ^ k) mod 2 = 0
    /\ N.testbit (Path p) (N.of_nat k) = false.
Proof.
  intros Hk.
  destruct (two_digest_tree k ModeTreeBuild)
    as (m & Hb & Hc & Hroot & HL & HD & _ & Hnodes); [lia | tauto |].
  specialize (Hnodes ltac:(done)).
  destruct (on_demand_proof first_byte_hash first_byte_hash 4 _ _ m 0
              (Some (Data dA)) Hb)
    as (leaf & idx & Hd & _ & Hidx & _ & _ & Hproof & Hmap).
  { by rewrite Hc. }
  { apply two_digest_blocks_0. }
  rewrite Hc in Hd. injection Hd as <-.
  exists m, (proof_of (nodes m) idx), idx.
  split_and!; try done.
  - apply two_digest_blocks_0.
  - apply lookup_lt_is_Some_2.
    rewrite Hnodes, two_digest_levels_length. lia.
  - rewrite HL in Hidx. pose proof (lookup_lt_Some _ _ _ Hidx) as Hlt.
    rewrite length_app, length_replicate in Hlt. simpl in Hlt.
    assert (idx < 2 ^ k) as Hsmall.
    { destruct (decide (idx = 2 ^ k)) as [->|]; [|lia].
      rewrite lookup_app_r in Hidx by (by rewrite length_replicate).
      rewrite length_replicate, Nat.sub_diag in Hidx. done. }
    by rewrite Nat.div_small.
  - rewrite proof_of_Path_bits. rewrite bool_decide_false by lia. done.
Qed.

End DeepTree.

(** With [2^32 + 1] blocks, the proof recorded for the first block does not
    verify against the root. *)
Lemma C1_deep_tree_counterexample :
  exists m p,
    built (New first_byte_hash first_byte_hash 4
             (Some (example_config ModeProofGen false)) (two_digest_blocks 32))
    = Some m
    /\ two_digest_blocks 32 !! 0 = Some (Some (Data [Byte.x01]))
    /\ Proofs m !! 0 = Some p
    /\ MerkleTree_Verify first_byte_hash (Some (Data [Byte.x01])) (Some p) m
       = Ret false m.
Proof. apply (two_digest_verify_fails 32 ModeProofGen); [lia | by left]. Qed.

(** With [2^32 + 1] blocks, the walk of [Proof] is at an even position at
    level 32, and bit 32 of the path is not set. *)
Lemma C8_level_32_counterexample :
  exists m p idx,
    built (New first_byte_hash first_byte_hash 4
             (Some (example_config ModeTreeBuild false)) (two_digest_blocks 32))
    = Some m
    /\ two_digest_blocks 32 !! 0 = Some (Some (Data [Byte.x01]))
    /\ MerkleTree_Proof (Some (Data [Byte.x01])) m = Ret p m
    /\ leafMap m !! [Byte.x01] = Some idx
    /\ is_Some (nodes m !! 32)
    /\ (idx / 2 ^ 32) mod 2 = 0
    /\ N.testbit (Path p) (N.of_nat 32) = false.
Proof. apply (two_digest_top_bit 32). lia. Qed.

(** * The claims on example inputs *)

Lemma C9_depth_is_least_power_witness :
  exists m,
    New first_byte_hash first_byte_hash 4
      (Some (example_config ModeProofGen false)) example_blocks
    = Returned (Some m, None)
    /\ (2 <= length example_blocks
        /\ NumLeaves m = length example_blocks
        /\ Depth m = bits_Len (length example_blocks - 1)
        /\ length example_blocks <= 2 ^ Depth m
        /\ forall d, length example_blocks <= 2 ^ d -> Depth m <= d).
Proof.
  eexists. split; [vm_compute; reflexivity|].
  apply (C9_depth_is_least_power first_byte_hash first_byte_hash 4
           (Some (example_config ModeProofGen false)) example_blocks _ None).
  vm_compute. reflexivity.
Defined.

Lemma C10_leaves_untouched_witness :
  exists m,
    New first_byte_hash first_byte_hash 4
      (Some (example_config ModeTreeBuild true)) example_blocks
    = Returned (Some m, None)
    /\ (length (Leaves m) = NumLeaves m
        /\ NumLeaves m = length example_blocks
        /\ (forall i b, example_blocks !! i = Some b ->
              Leaves m !! i = leaf_digest (cfg m) b)
        /\ (@None error = None -> Mode (cfg m) <> ModeProofGen ->
              nodes m !! 0 = Some (dup_last (Leaves m)))).
Proof.
  eexists. split; [vm_compute; reflexivity|].
  apply (C10_leaves_untouched first_byte_hash first_byte_hash 4
           (Some (example_config ModeTreeBuild true)) example_blocks _ None).
  vm_compute. reflexivity.
Defined.

Lemma C2_modes_same_root_witness :
  (ModeTreeBuild = ModeTreeBuild \/ ModeTreeBuild = ModeProofGenAndTreeBuild)
  /\ match built (New first_byte_hash first_byte_hash 4
                    (Some (set_Mode ModeProofGen (example_config ModeProofGen false)))
                    example_blocks),
           built (New first_byte_hash first_byte_hash 4
                    (Some (set_Mode ModeTreeBuild (example_config ModeProofGen false)))
                    example_blocks) with
     | Some m0, Some m1 => Root m0 = Root m1
     | None, None => True
     | _, _ => False
     end.
Proof.
  split; [left; reflexivity|].
  apply (C2_modes_same_root first_byte_hash first_byte_hash 4
           (example_config ModeProofGen false) example_blocks ModeTreeBuild).
  left. reflexivity.
Defined.

Lemma C4_parallel_same_result_witness :
  match built (New first_byte_hash first_byte_hash 4
                 (Some (set_RunInParallel true
                          (mkConfig None None 2%Z ModeProofGenAndTreeBuild false false false)))
                 example_blocks),
        built (New first_byte_hash first_byte_hash 4
                 (Some (set_RunInParallel false
                          (mkConfig None None 2%Z ModeProofGenAndTreeBuild false false false)))
                 example_blocks) with
  | Some mp, Some ms =>
      Root mp = Root ms /\ Proofs mp = Proofs ms /\ Leaves mp = Leaves ms
      /\ nodes mp = nodes ms /\ leafMap mp = leafMap ms
      /\ Depth mp = Depth ms /\ NumLeaves mp = NumLeaves ms
  | None, None => True
  | _, _ => False
  end
  /\ forall W n, 0 < W ->
       seq 0 W ≫= (λ i, strided (2 * i) n (2 * W)) ≡ₚ strided 0 n 2.
Proof.
  apply (C4_parallel_same_result first_byte_hash first_byte_hash 4
           (mkConfig None None 2%Z ModeProofGenAndTreeBuild false false false) example_blocks).
  intros _ x. reflexivity.
Defined.

Lemma C1_own_proof_verifies_witness :
  exists m,
    built (New first_byte_hash first_byte_hash 4
             (Some (example_config ModeProofGenAndTreeBuild false))
             example_blocks)
    = Some m
    /\ length example_blocks <= 2 ^ 32
    /\ example_blocks !! 2 = Some (Some (Data [Byte.x03]))
    /\ ((Mode (cfg m) <> ModeTreeBuild ->
         exists p, Proofs m !! 2 = Some p
                   /\ MerkleTree_Verify first_byte_hash
                        (Some (Data [Byte.x03])) (Some p) m = Ret true m)
        /\ (Mode (cfg m) <> ModeProofGen ->
            exists p, MerkleTree_Proof (Some (Data [Byte.x03])) m = Ret p m
                      /\ MerkleTree_Verify first_byte_hash
                           (Some (Data [Byte.x03])) (Some p) m = Ret true m)).
Proof.
  eexists. split; [vm_compute; reflexivity|].
  assert (length example_blocks <= 2 ^ 32) as Hcap by (simpl; lia).
  split; [exact Hcap|]. split; [reflexivity|].
  apply (C1_own_proof_verifies first_byte_hash first_byte_hash 4
           (Some (example_config ModeProofGenAndTreeBuild false))
           example_blocks _ 2 (Some (Data [Byte.x03]))).
  - vm_compute. reflexivity.
  - exact Hcap.
  - reflexivity.
Defined.

Lemma C3_on_demand_is_recorded_witness :
  exists m m0,
    (ModeProofGenAndTreeBuild = ModeTreeBuild
     \/ ModeProofGenAndTreeBuild = ModeProofGenAndTreeBuild)
    /\ built (New first_byte_hash first_byte_hash 4
                (Some (set_Mode ModeProofGenAndTreeBuild
                         (example_config ModeProofGen false))) example_blocks)
       = Some m
    /\ built (New first_byte_hash first_byte_hash 4
                (Some (set_Mode ModeProofGen (example_config ModeProofGen false)))
                example_blocks)
       = Some m0
    /\ example_blocks !! 1 = Some (Some (Data [Byte.x02]))
    /\ exists idx p,
         MerkleTree_Proof (Some (Data [Byte.x02])) m = Ret p m
         /\ Proofs m0 !! idx = Some p
         /\ (ModeProofGenAndTreeBuild = ModeProofGenAndTreeBuild ->
             Proofs m !! idx = Some p)
         /\ 1 <= idx < length example_blocks
         /\ Leaves m !! idx = Leaves m !! 1
         /\ (forall j, idx < j -> Leaves m !! j <> Leaves m !! 1)
         /\ (NoDup (Leaves m) -> idx = 1).
Proof.
  eexists. eexists. split; [right; reflexivity|].
  split; [vm_compute; reflexivity|]. split; [vm_compute; reflexivity|].
  split; [reflexivity|].
  apply (C3_on_demand_is_recorded first_byte_hash first_byte_hash 4
           (example_config ModeProofGen false) example_blocks
           ModeProofGenAndTreeBuild _ _ 1 (Some (Data [Byte.x02]))).
  - right. reflexivity.
  - vm_compute. reflexivity.
  - vm_compute. reflexivity.
  - reflexivity.
Defined.

Lemma C8_on_demand_walk_witness :
  exists m,
    built (New first_byte_hash first_byte_hash 4
             (Some (example_config ModeTreeBuild false)) example_blocks)
    = Some m
    /\ Mode (cfg m) <> ModeProofGen
    /\ example_blocks !! 0 = Some (Some (Data [Byte.x01]))
    /\ exists idx p,
         MerkleTree_Proof (Some (Data [Byte.x01])) m = Ret p m
         /\ Leaves m !! idx = Leaves m !! 0
         /\ length (Siblings p) = Depth m
         /\ forall k L, nodes m !! k = Some L ->
              let pos := idx / 2 ^ k in
              (pos mod 2 = 1 ->
                 Siblings p !! k = L !! (pos - 1) /\ is_Some (L !! (pos - 1))
                 /\ N.testbit (Path p) (N.of_nat k) = false)
              /\ (pos mod 2 = 0 ->
                 Siblings p !! k = L !! (pos + 1) /\ is_Some (L !! (pos + 1))
                 /\ N.testbit (Path p) (N.of_nat k) = bool_decide (k < 32)).
Proof.
  eexists. split; [vm_compute; reflexivity|].
  assert (1%Z <> ModeProofGen) as Hmode by (vm_compute; discriminate).
  split; [exact Hmode|]. split; [reflexivity|].
  apply (C8_on_demand_walk first_byte_hash first_byte_hash 4
           (Some (example_config ModeTreeBuild false)) example_blocks
           _ 0 (Some (Data [Byte.x01]))).
  - vm_compute. reflexivity.
  - exact Hmode.
  - reflexivity.
Defined.

(** The proof recorded for the first of two equal blocks and the proof
    [Proof] returns for that block differ in their path. *)
Lemma C3_equal_blocks_counterexample :
  exists m p p0,
    built (New first_byte_hash first_byte_hash 4
             (Some (example_config ModeProofGenAndTreeBuild false))
             [Some (Data [Byte.x01]); Some (Data [Byte.x01])])
    = Some m
    /\ MerkleTree_Proof (Some (Data [Byte.x01])) m = Ret p m
    /\ Proofs m !! 0 = Some p0
    /\ Path p0 = 1%N /\ Path p = 0%N /\ p <> p0.
Proof.
  eexists. eexists. eexists.
  split; [vm_compute; reflexivity|].
  split; [vm_compute; reflexivity|].
  split; [vm_compute; reflexivity|].
  split; [reflexivity|]. split; [reflexivity|]. discriminate.
Qed.

(** A present block whose [Serialize] fails, with a present proof: the
    error [Verify] returns is that of [Serialize], neither a package error
    nor an error of the digest function. *)
Lemma C7_serialize_error_counterexample :
  Verify first_byte_hash (Some (Broken "bad block")) (Some (mkProof [] 0)) []
    (Some (example_config ModeProofGen false))
  = Fail (SerializeError "bad block")
      (Some (verify_config first_byte_hash (example_config ModeProofGen false)))
  /\ (forall msg, SerializeError "bad block" <> HashError msg)
  /\ (forall msg, SerializeError "bad block" <> errors_New msg).
Proof. split; [reflexivity|]. split; discriminate. Qed.

(** C5: a digest function that accepts the leaves and refuses the pair at
    the root.  [New] returns the error together with a tree that holds the
    leaves and the proofs recorded so far. *)
Theorem C5_error_with_partial_tree :
  exists m,
    New short_input_hash short_input_hash 4
      (Some (mkConfig None (Some short_input_hash) 0%Z ModeProofGen false
               false false))
      [Some (Data [Byte.x01]); Some (Data [Byte.x02])]
    = Returned (Some m, Some (HashError "input too long"))
    /\ Leaves m = [[Byte.x01]; [Byte.x02]]
    /\ Proofs m = [mkProof [[Byte.x02]] 1; mkProof [[Byte.x01]] 0].
Proof.
  eexists. split; [vm_compute; reflexivity|].
  split; reflexivity.
Qed.

(** C6: [Verify] called with a configuration record whose digest and
    concatenation functions are nil writes the defaults into the caller's
    record; a later [New] with that record no longer sorts sibling pairs. *)
Theorem C6_verify_writes_config :
  let c := mkConfig None None 0%Z ModeProofGen false true false in
  exists c',
    Verify first_byte_hash (Some (Data [Byte.x01])) (Some (mkProof [] 0))
      [Byte.x01] (Some c)
    = Ret true (Some c')
    /\ HashFunc c = None /\ HashFunc c' = Some first_byte_hash
    /\ concatFunc c = None /\ concatFunc c' = Some concatHash
    /\ concatFunc (normalize first_byte_hash first_byte_hash 4 (Some c))
       = Some concatSortHash
    /\ concatFunc (normalize first_byte_hash first_byte_hash 4 (Some c'))
       = Some concatHash.
Proof.
  eexists. split; [vm_compute; reflexivity|].
  repeat split; reflexivity.
Qed.

(** * Further properties of the package *)

(** ** The errors [New] can return *)

Section raises.

Context {S : Type} (P : error -> Prop).

Lemma raises_ret {A} (a : A) : raises (S := S) P (λ _, True) (ret a).
Proof. by intros s. Qed.

Lemma raises_panic {A} (Q : A -> Prop) : raises (S := S) P Q panic.
Proof. by intros s. Qed.

Lemma raises_fail {A} (Q : A -> Prop) e : P e -> raises (S := S) P Q (fail e).
Proof. by intros He s. Qed.

Lemma raises_get : raises (S := S) P (λ _, True) get.
Proof. by intros s. Qed.

Lemma raises_put (s : S) : raises P (λ _, True) (put s).
Proof. by intros s'. Qed.

Lemma raises_modify (f : S -> S) : raises P (λ _, True) (modify f).
Proof. by intros s'. Qed.

Lemma raises_bind {A C} (Q : A -> Prop) (R : C -> Prop) (c : M S A)
    (k : A -> M S C) :
  raises P Q c -> (forall a, Q a -> raises P R (k a)) ->
  raises P R (bind c k).
Proof.
  intros Hc Hk s. unfold bind. specialize (Hc s).
  destruct (c s) as [a s'| |]; [|done..]. by apply Hk.
Qed.

Lemma raises_weaken {A} (Q : A -> Prop) (c : M S A) :
  raises P Q c -> raises P (λ _, True) c.
Proof. intros Hc s. specialize (Hc s). by destruct (c s). Qed.

Lemma raises_index {A} (buf : list A) i :
  raises (S := S) P (λ _, True) (index buf i).
Proof. intros s. unfold index. by destruct (buf !! i). Qed.

Lemma raises_store {A} (buf : list A) i x :
  raises (S := S) P (λ _, True) (store buf i x).
Proof. intros s. unfold store. by case_decide. Qed.

Lemma raises_fixOdd buf prevLen :
  raises (S := S) P (λ _, True) (fixOdd buf prevLen).
Proof.
  intros s. unfold fixOdd. case_decide; [done|].
  unfold bind, index. destruct (buf !! _); [|done].
  case_decide; [done|]. unfold store. by case_decide.
Qed.

Lemma raises_for_each {A I} (l : list I) (body : I -> A -> M S A) a :
  (forall i a, raises P (λ _, True) (body i a)) ->
  raises P (λ _, True) (for_each l body a).
Proof.
  intros Hb. revert a. induction l as [|i l IH]; intros a; simpl.
  - apply raises_ret.
  - eapply raises_bind; [apply Hb|]. intros a' _. apply IH.
Qed.

Lemma raises_for {I} (l : list I) (body : I -> M S unit) :
  (forall i, raises P (λ _, True) (body i)) ->
  raises P (λ _, True) (for_ l body).
Proof. intros Hb. unfold for_. by apply raises_for_each. Qed.

(** The error list of [Map] holds errors of the handler only, and scanning
    it returns one of them. *)
Lemma raises_pool_Map {A} (handler : A -> M S unit) argList :
  (forall arg, raises P (λ _, True) (handler arg)) ->
  raises P (λ errList, forall e, Some e ∈ errList -> P e)
    (pool_Map handler argList).
Proof.
  intros Hh. induction argList as [|arg rest IH]; simpl.
  - intros s. simpl. intros e He. by apply elem_of_nil in He.
  - intros s. specialize (Hh arg s).
    destruct (handler arg s) as [[] s'|e s'|]; [| |done].
    + unfold bind. specialize (IH s').
      destruct (pool_Map handler rest s') as [errs s''| |]; [|done..].
      simpl. intros e He. apply elem_of_cons in He as [?|He]; [done|].
      by apply IH.
    + unfold bind. specialize (IH s').
      destruct (pool_Map handler rest s') as [errs s''| |]; [|done..].
      simpl. intros e' He. apply elem_of_cons in He as [[= ->]|He]; [done|].
      by apply IH.
Qed.

Lemma raises_range_errList errList :
  (forall e, Some e ∈ errList -> P e) ->
  raises (S := S) P (λ _, True) (range_errList errList).
Proof.
  intros He s. induction errList as [|[e|] errList IH]; simpl.
  - done.
  - apply He. left.
  - apply IH. intros e' ?. apply He. by right.
Qed.

End raises.

Lemma raises_hashPair {S} (P : error -> Prop) config l r :
  (forall e, is_HashError e -> P e) ->
  raises (S := S) P (λ _, True) (hashPair config l r).
Proof.
  intros HP s. unfold hashPair, call_HashFunc.
  destruct (concatFunc config); [|done].
  destruct (HashFunc config) as [h|]; [|done].
  destruct (h _) as [msg|]; [|done]. apply HP. by exists msg.
Qed.

Lemma raises_leafFromBlock {S B} `{!DataBlock B} (P : error -> Prop)
    (block : option B) config :
  (forall e, is_HashError e -> P e) -> (forall e, is_SerializeError e -> P e) ->
  raises (S := S) P (λ _, True) (leafFromBlock block config).
Proof.
  intros HH HS s. unfold leafFromBlock. destruct block as [b|]; [|done].
  destruct (Serialize b) as [msg|x]; [apply HS; by exists msg|].
  destruct (DisableLeafHashing config); [done|].
  unfold call_HashFunc. destruct (HashFunc config) as [h|]; [|done].
  destruct (h x) as [msg|]; [|done]. apply HH. by exists msg.
Qed.

Lemma raises_in_pool {A} (P : error -> Prop) (Q : A -> Prop) buf1 buf2
    (c : M poolShared A) :
  raises P Q c -> raises P (λ r, Q r.1.1) (in_pool buf1 buf2 c).
Proof.
  intros Hc m. unfold in_pool. specialize (Hc (mkShared m buf1 buf2)).
  by destruct (c _).
Qed.

Lemma raises_on_mt {A} (P : error -> Prop) (Q : A -> Prop)
    (c : M MerkleTree A) :
  raises P Q c -> raises P Q (on_mt c).
Proof.
  intros Hc sh. unfold on_mt. specialize (Hc (mt sh)). by destruct (c _).
Qed.

(** One step of a proof about the errors of a procedure. *)
Ltac raises_step :=
  lazymatch goal with
  | |- raises _ _ (bind (in_pool _ _ (pool_Map _ _)) _) =>
      eapply raises_bind;
      [apply raises_in_pool, raises_pool_Map; intros ?
      |intros [[? ?] ?] ?; simpl in *]
  | |- raises _ _ (bind _ _) =>
      eapply raises_bind; [|intros ? _]
  | |- raises _ _ (ret _) => apply raises_ret
  | |- raises _ _ get => apply raises_get
  | |- raises _ _ (put _) => apply raises_put
  | |- raises _ _ (modify _) => apply raises_modify
  | |- raises _ _ (index _ _) => apply raises_index
  | |- raises _ _ (store _ _ _) => apply raises_store
  | |- raises _ _ (fixOdd _ _) => apply raises_fixOdd
  | |- raises _ _ (range_errList _) => apply raises_range_errList; assumption
  | |- raises _ _ (for_each _ _ _) => apply raises_for_each; intros ? ?
  | |- raises _ _ (for_ _ _) => apply raises_for; intros ?
  | |- raises _ _ (on_mt _) => apply raises_on_mt
  | |- raises _ _ (hashPair _ _ _) => apply raises_hashPair; auto
  | |- raises _ _ (leafFromBlock _ _) => apply raises_leafFromBlock; auto
  | |- raises _ _ (if ?b then _ else _) => destruct b
  | |- raises _ _ (match ?x with _ => _ end) => destruct x
  end.

Section RaisesNew.

Context {B : Type} `{!DataBlock B}.
Context (P : error -> Prop).
Hypothesis P_hash : forall e, is_HashError e -> P e.

Lemma raises_updatePairProofs buf idx batch step :
  raises P (λ _, True) (updatePairProofs buf idx batch step).
Proof using Type. unfold updatePairProofs. repeat raises_step. Qed.

Lemma raises_updateProofs buf bufLen step :
  raises P (λ _, True) (updateProofs buf bufLen step).
Proof using Type.
  unfold updateProofs. repeat raises_step. apply raises_updatePairProofs.
Qed.

Lemma raises_updateProofsParallel buf bufLen step :
  raises P (λ _, True) (updateProofsParallel (B := B) buf bufLen step).
Proof using Type.
  unfold updateProofsParallel, updateProofHandler.
  repeat first [raises_step | apply raises_updatePairProofs].
Qed.

Lemma raises_initProofs : raises P (λ _, True) initProofs.
Proof using Type. unfold initProofs. repeat raises_step. Qed.

Lemma raises_setRoot buf : raises P (λ _, True) (setRoot buf).
Proof using Type*. unfold setRoot. repeat raises_step. Qed.

Lemma raises_proofGen : raises P (λ _, True) (proofGen (B := B)).
Proof using Type*.
  unfold proofGen, proofGenParallel, proofGenHandler.
  repeat first
    [ raises_step | apply raises_initProofs | apply raises_setRoot
    | apply raises_updateProofs | apply raises_updateProofsParallel ].
Qed.

Lemma raises_set_level i level : raises P (λ _, True) (set_level i level).
Proof using Type. unfold set_level. repeat raises_step. Qed.

Lemma raises_node i j : raises P (λ _, True) (node i j).
Proof using Type. unfold node. repeat raises_step. Qed.

Lemma raises_set_node i j x : raises P (λ _, True) (set_node i j x).
Proof using Type.
  unfold set_node. repeat first [raises_step | apply raises_set_level].
Qed.

Lemma raises_fixOdd_level i : raises P (λ _, True) (fixOdd_level i).
Proof using Type.
  unfold fixOdd_level. repeat first [raises_step | apply raises_set_level].
Qed.

Lemma raises_treeBuild : raises P (λ _, True) (treeBuild (B := B)).
Proof using Type*.
  unfold treeBuild, computeTreeNodeParallel, treeBuildHandler.
  repeat first
    [ raises_step | apply raises_setRoot | apply raises_set_level
    | apply raises_node | apply raises_set_node | apply raises_fixOdd_level ].
Qed.

Hypothesis P_serialize : forall e, is_SerializeError e -> P e.

Lemma raises_leafGen (blocks : list (option B)) :
  raises P (λ _, True) (leafGen blocks).
Proof using Type*. unfold leafGen. repeat raises_step. Qed.

Lemma raises_leafGenParallel (blocks : list (option B)) :
  raises P (λ _, True) (leafGenParallel blocks).
Proof using Type*.
  unfold leafGenParallel, leafGenHandler. repeat raises_step.
Qed.

End RaisesNew.

Section NewOutcomes.

Context {B : Type} `{!DataBlock B}.
Context (DefaultHashFunc DefaultHashFuncParallel : TypeHashFunc).
Context (runtime_NumCPU : positive).

#[local] Abbreviation New' :=
  (New (B := B) DefaultHashFunc DefaultHashFuncParallel runtime_NumCPU).
#[local] Abbreviation normalize' :=
  (normalize DefaultHashFunc DefaultHashFuncParallel runtime_NumCPU).

Lemma named_results_error (c : M MerkleTree unit) m0 om e :
  raises is_HashError (λ _, True) c ->
  named_results c m0 = Returned (om, Some e) ->
  (exists m, om = Some m) /\ is_HashError e.
Proof.
  intros Hc. unfold named_results. specialize (Hc m0).
  destruct (c m0) as [[] m'|e' m'|]; [done| |done].
  intros [= <- <-]. eauto.
Qed.

(** The generation of the leaves inside [New]: it returns the leaf digests
    and leaves the tree as it is, or stops with an error of [Serialize] or
    of the digest function, or panics. *)
Lemma New_leaves config (blocks : list (option B)) :
  2 <= length blocks ->
  let m0 := mkMerkleTree (normalize' config) ∅ [] [] [] []
              (bits_Len (length blocks - 1)) (length blocks) in
  match (if RunInParallel (cfg m0)
         then leafGenParallel blocks else leafGen blocks) m0 with
  | Ret leaves m => leaves_of (normalize' config) blocks = Some leaves /\ m = m0
  | Fail e _ =>
      leaves_of (normalize' config) blocks = None
      /\ (is_SerializeError e \/ is_HashError e)
  | Panic => leaves_of (normalize' config) blocks = None
  end.
Proof.
  intros Hn m0. subst m0. set (c := normalize' config).
  set (m0 := mkMerkleTree c ∅ [] [] [] [] (bits_Len (length blocks - 1))
               (length blocks)).
  assert (succ ((if RunInParallel (cfg m0)
                 then leafGenParallel blocks else leafGen blocks) m0)
          = (λ ls, (ls, m0)) <$> leaves_of c blocks) as Hleaf.
  { simpl. destruct (RunInParallel c) eqn:Hpar.
    - apply leafGenParallel_spec; [|simpl; lia].
      by apply normalize_NumRoutines.
    - by apply leafGen_spec. }
  assert (raises (λ e, is_SerializeError e \/ is_HashError e) (λ _, True)
            (if RunInParallel (cfg m0)
             then leafGenParallel blocks else leafGen blocks)) as Hr.
  { destruct (RunInParallel (cfg m0));
      [apply raises_leafGenParallel | apply raises_leafGen]; auto. }
  specialize (Hr m0).
  destruct ((if RunInParallel (cfg m0)
             then leafGenParallel blocks else leafGen blocks) m0)
    as [leaves m'|e m'|]; simpl in Hleaf;
    destruct (leaves_of c blocks) as [ls|]; simpl in Hleaf; try done.
  by injection Hleaf as -> ->.
Qed.

(** The four ways [New] returns an error. *)
Lemma New_error_cases config (blocks : list (option B)) om e :
  New' config blocks = Returned (om, Some e) ->
  (length blocks <= 1 /\ om = None
   /\ e = errors_New ErrInvalidNumOfDataBlocks)
  \/ (2 <= length blocks /\ om = None
      /\ (is_SerializeError e \/ is_HashError e)
      /\ leaves_of (normalize' config) blocks = None)
  \/ (2 <= length blocks /\ om = None
      /\ e = errors_New ErrInvalidConfigMode
      /\ is_Some (leaves_of (normalize' config) blocks)
      /\ Mode (normalize' config) <> ModeProofGen
      /\ Mode (normalize' config) <> ModeTreeBuild
      /\ Mode (normalize' config) <> ModeProofGenAndTreeBuild)
  \/ (2 <= length blocks /\ (exists m, om = Some m) /\ is_HashError e
      /\ is_Some (leaves_of (normalize' config) blocks)).
Proof.
  rewrite New_unfold. case_decide as Hn.
  { intros [= <- <-]. left. done. }
  intros Hr. right. pose proof (New_leaves config blocks ltac:(lia)) as Hl.
  cbv zeta in *.
  destruct ((if RunInParallel _ then leafGenParallel blocks
             else leafGen blocks) _) as [leaves m'|e' m'|]; [| |done].
  - destruct Hl as [Hl ->]. simpl in Hr.
    assert (forall k m2, raises is_HashError (λ _, True) k ->
              named_results k m2 = Returned (om, Some e) ->
              (exists m, om = Some m) /\ is_HashError e) as Hfin.
    { intros k m2 Hk Hk'. by eapply named_results_error. }
    repeat case_decide.
    + right. right. split; [lia|].
      destruct (Hfin _ _ (raises_proofGen _ (λ _ H, H)) Hr). by rewrite Hl.
    + right. right. split; [lia|].
      destruct (Hfin _ _ (raises_treeBuild _ (λ _ H, H)) Hr). by rewrite Hl.
    + right. right. split; [lia|].
      rewrite Hl. split_and!; [| |done]; eapply Hfin; try exact Hr.
      all: repeat first
        [ raises_step | apply raises_treeBuild | apply raises_initProofs
        | apply raises_updateProofs | apply raises_updateProofsParallel ];
        auto.
    + injection Hr as <- <-. right. left. rewrite Hl.
      split_and!; try done. lia.
  - destruct Hl as [Hl He]. injection Hr as <- <-. left.
    split_and!; try done. lia.
Qed.

(** X1: the errors of [New].  An error [New] returns is one of: the
    too-few-blocks error, with no tree; the invalid-mode error, with no
    tree; an error of a block's [Serialize], with no tree; an error of the
    digest function, with a tree when it occurred after the leaves. *)
Theorem New_error_kinds config (blocks : list (option B)) om e :
  New' config blocks = Returned (om, Some e) ->
  (e = errors_New ErrInvalidNumOfDataBlocks /\ om = None)
  \/ (e = errors_New ErrInvalidConfigMode /\ om = None)
  \/ (is_SerializeError e /\ om = None)
  \/ is_HashError e.
Proof.
  intros [H|[H|[H|H]]]%New_error_cases.
  - left. tauto.
  - destruct H as (_ & -> & [He|He] & _); [|tauto].
    right. right. left. done.
  - right. left. tauto.
  - right. right. right. tauto.
Qed.

(** X2: [New] returns the too-few-blocks error exactly when it is given
    fewer than two blocks, whatever the configuration and the blocks. *)
Theorem New_too_few_blocks config (blocks : list (option B)) :
  (exists om, New' config blocks
              = Returned (om, Some (errors_New ErrInvalidNumOfDataBlocks)))
  <-> length blocks <= 1.
Proof.
  split.
  - intros [om [H|[H|[H|H]]]%New_error_cases].
    + tauto.
    + destruct H as (_ & _ & [[? ?]|[? ?]] & _); done.
    + by destruct H as (_ & _ & ? & _).
    + by destruct H as (_ & _ & [? ?] & _).
  - intros Hn. exists None. unfold New. by rewrite decide_True.
Qed.

(** X3: [New] returns the invalid-mode error exactly when it is given at
    least two blocks, the leaves of all of them can be computed, and the
    mode is none of the three modes: the leaves are generated before the
    mode is looked at. *)
Theorem New_invalid_mode config (blocks : list (option B)) :
  (exists om, New' config blocks
              = Returned (om, Some (errors_New ErrInvalidConfigMode)))
  <-> 2 <= length blocks
      /\ is_Some (leaves_of (normalize' config) blocks)
      /\ Mode (default new_Config config) <> ModeProofGen
      /\ Mode (default new_Config config) <> ModeTreeBuild
      /\ Mode (default new_Config config) <> ModeProofGenAndTreeBuild.
Proof.
  assert (Mode (normalize' config) = Mode (default new_Config config)) as Hm.
  { unfold normalize.
    destruct (default new_Config config) as [[cf|] [h|] nr mo [] [] dl];
      simpl; repeat case_decide; done. }
  rewrite <- Hm. split.
  - intros [om [H|[H|[H|H]]]%New_error_cases].
    + by destruct H as (_ & _ & ?).
    + destruct H as (_ & _ & [[? ?]|[? ?]] & _); done.
    + tauto.
    + by destruct H as (_ & _ & [? ?] & _).
  - intros (Hn & [leaves Hl] & H0 & H1 & H2). exists None.
    rewrite New_unfold, decide_False by lia.
    pose proof (New_leaves config blocks Hn) as Hlv. cbv zeta in *.
    destruct ((if RunInParallel _ then leafGenParallel blocks
               else leafGen blocks) _) as [leaves' m'|e' m'|];
      [|destruct Hlv; congruence|congruence].
    destruct Hlv as [_ ->]. simpl.
    by rewrite !decide_False.
Qed.

End NewOutcomes.

(** ** When [New] succeeds *)

Lemma built_Some r m : built r = Some m -> r = Returned (Some m, None).
Proof. destruct r as [[[m'|] [e|]]|]; try done. by intros [= ->]. Qed.

Lemma hash_level_is_Some config L :
  (forall l r, is_Some (pair_digest config l r)) ->
  is_Some (hash_level config L).
Proof.
  intros Hp. unfold hash_level. apply mapM_is_Some_2, Forall_forall.
  intros j Hj%elem_of_seq. simpl. unfold pair_at.
  destruct (lookup_lt_is_Some_2 L (2 * j)) as [l ->]; [lia|].
  destruct (lookup_lt_is_Some_2 L (2 * j + 1)) as [r ->]; [lia|].
  apply Hp.
Qed.

Lemma levels_from_is_Some config k : forall L,
  (forall l r, is_Some (pair_digest config l r)) ->
  is_Some (levels_from config k L).
Proof.
  induction k as [|k IH]; intros L Hp; simpl; [done|].
  destruct (hash_level_is_Some config L Hp) as [hs ->]. simpl.
  destruct (IH (dup_last hs) Hp) as [lvs ->]. done.
Qed.

(** When the pairs of a tree over at least two leaves can all be digested,
    the tree has its levels and its root. *)
Lemma tree_root_is_Some config leaves :
  2 <= length leaves ->
  (forall l r, is_Some (pair_digest config l r)) ->
  exists lv root,
    tree_levels config (bits_Len (length leaves - 1)) leaves = Some lv
    /\ tree_root config lv = Some root.
Proof.
  intros Hn Hp.
  destruct (levels_from_is_Some config (bits_Len (length leaves - 1) - 1)
              (dup_last leaves) Hp) as [lv Hlv].
  fold (tree_levels config (bits_Len (length leaves - 1)) leaves) in Hlv.
  destruct (tree_levels_shape _ _ _ Hn Hlv) as (_ & _ & top & Htop & Hlen).
  exists lv. unfold tree_root. rewrite Htop. simpl.
  destruct top as [|l [|r [|]]]; try done. simpl.
  destruct (Hp l r) as [root ->]. by exists root.
Qed.

Section NewSucceeds.

Context {B : Type} `{!DataBlock B}.
Context (DefaultHashFunc DefaultHashFuncParallel : TypeHashFunc).
Context (runtime_NumCPU : positive).

#[local] Abbreviation New' :=
  (New (B := B) DefaultHashFunc DefaultHashFuncParallel runtime_NumCPU).
#[local] Abbreviation normalize' :=
  (normalize DefaultHashFunc DefaultHashFuncParallel runtime_NumCPU).

Lemma normalize_Mode config :
  Mode (normalize' config) = Mode (default new_Config config).
Proof.
  unfold normalize.
  destruct (default new_Config config) as [[cf|] [h|] nr mo [] [] dl];
    simpl; repeat case_decide; done.
Qed.

Lemma normalize_RunInParallel config :
  RunInParallel (normalize' config)
  = RunInParallel (default new_Config config).
Proof.
  unfold normalize.
  destruct (default new_Config config) as [[cf|] [h|] nr mo [] [] dl];
    simpl; repeat case_decide; done.
Qed.

Lemma normalize_DisableLeafHashing config :
  DisableLeafHashing (normalize' config)
  = DisableLeafHashing (default new_Config config).
Proof.
  unfold normalize.
  destruct (default new_Config config) as [[cf|] [h|] nr mo [] [] dl];
    simpl; repeat case_decide; done.
Qed.

(** X4: with at least two blocks, none of them nil, a valid mode, a
    [Serialize] that succeeds on every block and a digest function that
    never returns an error, [New] returns a tree and no error: it neither
    fails nor panics, whatever the number of blocks, the mode, the
    parallel flag and the number of routines. *)
Theorem New_succeeds config (blocks : list (option B)) :
  2 <= length blocks ->
  (Mode (default new_Config config) = ModeProofGen
   \/ Mode (default new_Config config) = ModeTreeBuild
   \/ Mode (default new_Config config) = ModeProofGenAndTreeBuild) ->
  (forall b, b ∈ blocks -> exists b' x, b = Some b' /\ Serialize b' = inr x) ->
  (forall h, HashFunc (normalize' config) = Some h ->
             forall x, exists d, h x = inr d) ->
  exists m, New' config blocks = Returned (Some m, None).
Proof.
  intros Hn Hmode Hser Hhash.
  destruct (normalize_funcs DefaultHashFunc DefaultHashFuncParallel
              runtime_NumCPU config) as (h & cf & Hh & Hc).
  set (c := normalize' config) in *.
  assert (forall l r, is_Some (pair_digest c l r)) as Hp.
  { intros l r. unfold pair_digest. rewrite Hc, Hh. simpl.
    destruct (Hhash h Hh (cf l r)) as [d ->]. by exists d. }
  assert (is_Some (leaves_of c blocks)) as [leaves Hl].
  { apply mapM_is_Some_2, Forall_forall. intros b Hb. simpl.
    destruct (Hser b Hb) as (b' & x & -> & Hx). unfold leaf_digest. simpl.
    rewrite Hx. destruct (DisableLeafHashing c); [by exists x|].
    rewrite Hh. simpl. destruct (Hhash h Hh x) as [d ->]. by exists d. }
  pose proof (leaves_of_length _ _ _ Hl) as Hlen.
  destruct (tree_root_is_Some c leaves ltac:(lia) Hp) as (lv & root & Hlv & Hr).
  rewrite Hlen in Hlv.
  destruct (tree_of_intro c blocks leaves lv root Hn Hl Hlv Hr) as [m Hm].
  { unfold c. by rewrite normalize_Mode. }
  exists m. apply built_Some. by rewrite New_built.
Qed.

End NewSucceeds.

(** ** The first block whose leaf cannot be computed *)

Lemma for_each_stops {S A I} (l1 l2 : list I) (i : I)
    (body : I -> A -> M S A) a s a1 s1 :
  for_each l1 body a s = Ret a1 s1 ->
  for_each (l1 ++ i :: l2) body a s
  = match body i a1 s1 with
    | Ret a2 s2 => for_each l2 body a2 s2
    | Fail e s2 => Fail e s2
    | Panic => Panic
    end.
Proof.
  intros H1. rewrite for_each_app. unfold bind at 1. rewrite H1. simpl.
  unfold bind. by destruct (body i a1 s1).
Qed.

(** The outcome of [leafFromBlock] does not depend on the state. *)
Lemma leafFromBlock_state {S T B} `{!DataBlock B} (block : option B) config
    (s : S) (t : T) :
  leafFromBlock block config s
  = match leafFromBlock block config t with
    | Ret d _ => Ret d s
    | Fail e _ => Fail e s
    | Panic => Panic
    end.
Proof.
  unfold leafFromBlock. destruct block as [b|]; [|done].
  destruct (Serialize b); [done|].
  destruct (DisableLeafHashing config); [done|].
  unfold call_HashFunc. destruct (HashFunc config) as [h|]; [|done].
  by destruct (h _).
Qed.

Section FirstBadBlock.

Context {B : Type} `{!DataBlock B}.
Context (DefaultHashFunc DefaultHashFuncParallel : TypeHashFunc).
Context (runtime_NumCPU : positive).

#[local] Abbreviation New' :=
  (New (B := B) DefaultHashFunc DefaultHashFuncParallel runtime_NumCPU).
#[local] Abbreviation normalize' :=
  (normalize DefaultHashFunc DefaultHashFuncParallel runtime_NumCPU).

(** The loop of [leafGen] over the first [k] blocks, all of which have a
    leaf. *)
Lemma leafGen_prefix (blocks : list (option B)) config (m : MerkleTree) n k :
  k <= n -> k <= length blocks ->
  (forall j bj, j < k -> blocks !! j = Some bj ->
     is_Some (leaf_digest config bj)) ->
  exists buf,
    for_each (seq 0 k) (fun i leaves =>
        block <- index blocks i ;;
        leaf <- leafFromBlock block config ;;
        store leaves i leaf) (make [] n) m
    = Ret buf m /\ length buf = n.
Proof.
  intros Hkn Hkb. induction k as [|k IH]; intros Hd.
  - exists (make [] n). split; [done|]. unfold make. apply length_replicate.
  - destruct IH as (buf & Hbuf & Hlen); [lia | lia | |].
    { intros j bj Hj. apply Hd. lia. }
    destruct (lookup_lt_is_Some_2 blocks k ltac:(lia)) as [bk Hbk].
    destruct (Hd k bk ltac:(lia) Hbk) as [d Hdk].
    exists (<[k := d]> buf). rewrite length_insert. split; [|done].
    rewrite seq_S, for_each_app. unfold bind at 1. rewrite Hbuf. simpl.
    assert (leafFromBlock bk config m = Ret d m) as Hleaf.
    { apply succ_Some. by rewrite succ_leafFromBlock, Hdk. }
    erewrite bind_Ret; [done|].
    rewrite (bind_Ret _ _ _ _ _ (index_Some _ _ _ _ Hbk)).
    rewrite (bind_Ret _ _ _ _ _ Hleaf).
    by rewrite store_lt by lia.
Qed.

(** X5: without parallelism, [New] stops at the first block whose leaf
    cannot be computed: it returns no tree and the error of that block's
    [Serialize] or digest, and it panics when that block is nil. *)
Theorem New_first_bad_block config (blocks : list (option B)) k b :
  RunInParallel (default new_Config config) = false ->
  2 <= length blocks ->
  blocks !! k = Some b ->
  (forall j bj, j < k -> blocks !! j = Some bj ->
     is_Some (leaf_digest (normalize' config) bj)) ->
  (forall e, leafFromBlock b (normalize' config) tt = Fail e tt ->
     New' config blocks = Returned (None, Some e))
  /\ (b = None -> New' config blocks = Panicked).
Proof.
  intros Hpar Hn Hk Hd.
  pose proof (lookup_lt_Some _ _ _ Hk) as Hlt.
  set (c := normalize' config) in *.
  set (m0 := mkMerkleTree c ∅ [] [] [] [] (bits_Len (length blocks - 1))
               (length blocks)).
  assert (leafGen blocks m0
          = match leafFromBlock b c tt with
            | Ret d _ => leafGen blocks m0
            | Fail e _ => Fail e m0
            | Panic => Panic
            end) as Hloop.
  { destruct (leafFromBlock b c tt) as [d []|e []|] eqn:Ho; [done|..];
      unfold leafGen; unfold bind at 1, get at 1; cbn [NumLeaves cfg m0];
      destruct (leafGen_prefix blocks c m0 (length blocks) k)
        as (buf & Hbuf & Hlen); [lia | lia | done | | lia | lia | done |];
      (replace (seq 0 (length blocks))
         with (seq 0 k ++ k :: seq (S k) (length blocks - S k));
       [|replace (length blocks) with (k + S (length blocks - S k)) at 2
           by lia; by rewrite seq_app]);
      rewrite (for_each_stops _ _ _ _ _ _ _ _ Hbuf);
      rewrite (bind_Ret _ _ _ _ _ (index_Some _ _ _ _ Hk));
      unfold bind at 1;
      by rewrite (leafFromBlock_state b _ _ tt), Ho. }
  assert (New' config blocks
          = match leafGen blocks m0 with
            | Ret _ _ => New' config blocks
            | Fail e _ => Returned (None, Some e)
            | Panic => Panicked
            end) as Hnew.
  { destruct (leafGen blocks m0) as [ls m'|e m'|] eqn:Hg; [done|..];
      rewrite New_unfold, decide_False by lia; cbv zeta; cbn [cfg];
      rewrite normalize_RunInParallel, Hpar; fold c m0; by rewrite Hg. }
  split.
  - intros e He. by rewrite Hnew, Hloop, He.
  - intros ->. by rewrite Hnew, Hloop.
Qed.

End FirstBadBlock.

(** ** [Proof] and [Verify] on a tree [New] built *)

Lemma leaf_index_None leaves x : x ∉ leaves -> leaf_index leaves !! x = None.
Proof.
  intros Hx. destruct (leaf_index leaves !! x) as [idx|] eqn:Hidx; [|done].
  apply leaf_index_lookup in Hidx as [Hidx _].
  by apply list_elem_of_lookup_2 in Hidx.
Qed.

Lemma hashPair_no_panic {S} config l r (s : S) :
  is_Some (concatFunc config) -> is_Some (HashFunc config) ->
  hashPair config l r s <> Panic.
Proof.
  intros [cf Hc] [h Hh]. unfold hashPair, call_HashFunc. rewrite Hc, Hh.
  by destruct (h _).
Qed.

Lemma Verify_loop_no_panic {S} config sibs :
  is_Some (concatFunc config) -> is_Some (HashFunc config) ->
  forall a (s : S),
    for_each sibs (fun sib '(result, path) =>
        result <- (if decide (N.land path 1 = 1%N)
                   then hashPair config result sib
                   else hashPair config sib result) ;;
        ret (result, N.shiftr path 1)) a s <> Panic.
Proof.
  intros Hc Hh. induction sibs as [|sib sibs IH]; intros [r pth] s; [done|].
  cbn [for_each]. unfold bind at 1. unfold bind at 1.
  case_decide.
  - pose proof (hashPair_no_panic config r sib s Hc Hh).
    destruct (hashPair config r sib s); try done. apply IH.
  - pose proof (hashPair_no_panic config sib r s Hc Hh).
    destruct (hashPair config sib r s); try done. apply IH.
Qed.

Lemma verify_config_funcs DefaultHashFunc c :
  is_Some (concatFunc (verify_config DefaultHashFunc c))
  /\ is_Some (HashFunc (verify_config DefaultHashFunc c)).
Proof.
  unfold verify_config. destruct c as [[cf|] [h|] ? ? ? ? ?]; simpl; eauto.
Qed.

Lemma keeps_leafFromBlock {S X B} `{!DataBlock B} (F : S -> X) x0
    (block : option B) config :
  keeps F x0 (leafFromBlock block config).
Proof.
  intros s Hs. unfold leafFromBlock. destruct block as [b|]; [|done].
  destruct (Serialize b); [done|].
  destruct (DisableLeafHashing config); [done|].
  unfold call_HashFunc. destruct (HashFunc config) as [h|]; [|done].
  by destruct (h _).
Qed.

Section OnTree.

Context {B : Type} `{!DataBlock B}.
Context (DefaultHashFunc DefaultHashFuncParallel : TypeHashFunc).
Context (runtime_NumCPU : positive).

#[local] Abbreviation New' :=
  (New (B := B) DefaultHashFunc DefaultHashFuncParallel runtime_NumCPU).
#[local] Abbreviation normalize' :=
  (normalize DefaultHashFunc DefaultHashFuncParallel runtime_NumCPU).
#[local] Abbreviation Verify' := (Verify (B := B) DefaultHashFunc).
#[local] Abbreviation MerkleTree_Verify' :=
  (MerkleTree_Verify (B := B) DefaultHashFunc).

Lemma Verify_on_no_panic (b : B) proof root c :
  Verify_on DefaultHashFunc (Some b) proof root c <> Panic.
Proof.
  rewrite Verify_on_unfold.
  destruct (verify_config_funcs DefaultHashFunc c) as [Hc [h Hh]].
  set (c' := verify_config DefaultHashFunc c) in *.
  unfold bind at 1.
  assert (leafFromBlock (Some b) c' c' <> Panic) as Hleaf.
  { unfold leafFromBlock. destruct (Serialize b); [done|].
    destruct (DisableLeafHashing c'); [done|].
    unfold call_HashFunc. rewrite Hh. by destruct (h _). }
  destruct (leafFromBlock (Some b) c' c') as [leaf s| |]; try done.
  unfold bind at 1.
  pose proof (Verify_loop_no_panic c' (Siblings proof) Hc (ex_intro _ h Hh)
                (copy (make Byte.x00 (length leaf)) leaf, Path proof) s)
    as Hloop.
  by destruct (for_each _ _ _ s) as [[r pth] s'| |].
Qed.

(** X6: [Verify], as a function and as a method, never panics (its calls
    of [Serialize] and of the digest function returning): not on a nil
    block, proof or configuration, not on a configuration without
    functions, and not on a proof with any number of siblings. *)
Theorem Verify_never_panics (b : option B) (p : option Proof) (root : bytes)
    (config : option Config) (m : MerkleTree) :
  Verify' b p root config <> Panic /\ MerkleTree_Verify' b p m <> Panic.
Proof.
  assert (forall root config, Verify' b p root config <> Panic) as Hv.
  { intros root' cfg0. unfold Verify. destruct b as [b|]; [|done].
    destruct p as [p|]; [|done]. destruct cfg0 as [c|].
    - pose proof (Verify_on_no_panic b p root' c).
      by destruct (Verify_on _ _ _ _ c).
    - pose proof (Verify_on_no_panic b p root' new_Config).
      by destruct (Verify_on _ _ _ _ new_Config). }
  split; [apply Hv|]. unfold MerkleTree_Verify.
  specialize (Hv (Root m) (Some (cfg m))).
  by destruct (Verify' b p (Root m) (Some (cfg m))).
Qed.

(** X7: what [Proof] returns on a tree [New] built.  In the proof-only mode
    it is the tree-not-built error, for every argument.  In the modes that
    retain the tree: a nil block panics; an error of the block's
    [Serialize] or digest is returned; a block whose digest is no leaf gets
    the not-a-member error; a block whose digest is a leaf gets a proof with
    one sibling per level.  The tree is never modified. *)
Theorem Proof_outcomes config (blocks : list (option B)) m (b : option B) :
  built (New' config blocks) = Some m ->
  (Mode (cfg m) = ModeProofGen ->
   MerkleTree_Proof b m
   = Fail (errors_New ErrProofInvalidModeTreeNotBuilt) m)
  /\ (Mode (cfg m) <> ModeProofGen ->
      (b = None -> MerkleTree_Proof b m = Panic)
      /\ (forall e, leafFromBlock b (cfg m) tt = Fail e tt ->
            MerkleTree_Proof b m = Fail e m)
      /\ (forall leaf, leaf_digest (cfg m) b = Some leaf ->
            (leaf ∉ Leaves m ->
             MerkleTree_Proof b m
             = Fail (errors_New ErrProofInvalidDataBlock) m)
            /\ (leaf ∈ Leaves m ->
                exists p, MerkleTree_Proof b m = Ret p m
                          /\ length (Siblings p) = Depth m))).
Proof.
  intros Hb. pose proof (built_tree_of _ _ _ _ _ _ Hb) as Ht.
  destruct (tree_of_inv _ _ _ Ht)
    as (leaves & lv & Hn & Hl & Hlv & Hroot & Hc & HL & HD & HN & HP
        & Hnodes & Hmap & Hvalid).
  rewrite <- Hc in *.
  unfold ModeProofGen, ModeTreeBuild, ModeProofGenAndTreeBuild in *.
  split.
  - intros Hmode. unfold MerkleTree_Proof, bind, get.
    rewrite decide_True; [done|].
    unfold ModeTreeBuild, ModeProofGenAndTreeBuild. rewrite Hmode. done.
  - intros Hmode.
    assert (forall k, MerkleTree_Proof b m
              = bind (leafFromBlock b (cfg m)) k m ->
            forall o, leafFromBlock b (cfg m) tt = o ->
            MerkleTree_Proof b m
            = match o with
              | Ret leaf _ => k leaf m
              | Fail e _ => Fail e m
              | Panic => Panic
              end) as Hstep.
    { intros k -> o Ho. unfold bind at 1.
      rewrite (leafFromBlock_state b _ m tt), Ho. by destruct o. }
    assert (MerkleTree_Proof b m
            = bind (leafFromBlock b (cfg m)) (λ leaf,
                match leafMap m !! leaf with
                | None => fail (errors_New ErrProofInvalidDataBlock)
                | Some idx =>
                    let* (_, path, siblings) <-
                      for_each (seq 0 (Depth m))
                        (fun i '(idx, path, siblings) =>
                           if decide (Nat.land idx 1 = 1)
                           then
                             sib <- node i (idx - 1) ;;
                             siblings <- store siblings i sib ;;
                             ret (idx >> 1, path, siblings)
                           else
                             let path := add32 path (shl32 1 i) in
                             sib <- node i (idx + 1) ;;
                             siblings <- store siblings i sib ;;
                             ret (idx >> 1, path, siblings))
                        (idx, 0%N, make [] (Depth m)) ;;
                    ret (mkProof siblings path)
                end) m) as Hunf.
    { unfold MerkleTree_Proof. unfold bind at 1, get at 1.
      rewrite decide_False; [done|].
      unfold ModeTreeBuild, ModeProofGenAndTreeBuild. intros [? ?].
      destruct Hvalid as [?|[?|?]]; done. }
    rewrite decide_False in Hnodes by done.
    rewrite decide_False in Hmap by done.
    split_and!.
    + intros ->. by rewrite (Hstep _ Hunf Panic eq_refl).
    + intros e He. by rewrite (Hstep _ Hunf _ He).
    + intros leaf Hleaf.
      assert (leafFromBlock b (cfg m) tt = Ret leaf tt) as Ho.
      { apply succ_Some. by rewrite succ_leafFromBlock, Hleaf. }
      split.
      * intros Hnot. rewrite (Hstep _ Hunf _ Ho).
        rewrite Hmap, leaf_index_None; [done|]. by rewrite <- HL.
      * intros Hin. rewrite HL in Hin.
        apply list_elem_of_lookup_1 in Hin as [i Hi].
        destruct (leaf_index_is_Some _ _ _ Hi) as (idx & Hidx & _).
        pose proof (leaves_of_length _ _ _ Hl) as Hlen.
        rewrite <- Hlen in Hlv.
        destruct (tree_levels_shape (cfg m) leaves lv ltac:(lia) Hlv)
          as (Hlvlen & Hshape & _).
        exists (proof_of (nodes m) idx). split.
        -- apply succ_Some.
           rewrite (succ_MerkleTree_Proof m (length leaves)).
           ++ rewrite Hleaf. simpl. by rewrite Hmap, Hidx.
           ++ destruct Hvalid as [?|[?|?]]; [done| by left | by right].
           ++ rewrite Hnodes, HD, Hlvlen. by rewrite Hlen.
           ++ rewrite Hnodes. intros j L HjL.
              destruct (Hshape j L HjL) as (? & ? & ?). done.
           ++ rewrite Hmap. intros x k Hk.
              apply leaf_index_lookup in Hk as [Hk _].
              by eapply lookup_lt_Some.
        -- rewrite proof_of_Siblings, length_imap, Hnodes, Hlvlen, HD.
           by rewrite Hlen.
Qed.

End OnTree.

Section OwnProof.

Context {B : Type} `{!DataBlock B}.
Context (DefaultHashFunc DefaultHashFuncParallel : TypeHashFunc).
Context (runtime_NumCPU : positive).

#[local] Abbreviation New' :=
  (New (B := B) DefaultHashFunc DefaultHashFuncParallel runtime_NumCPU).
#[local] Abbreviation normalize' :=
  (normalize DefaultHashFunc DefaultHashFuncParallel runtime_NumCPU).
#[local] Abbreviation Verify' := (Verify (B := B) DefaultHashFunc).
#[local] Abbreviation MerkleTree_Verify' :=
  (MerkleTree_Verify (B := B) DefaultHashFunc).

(** The recorded proof of block [i] replays to the root, under any
    configuration that digests like the tree's. *)
Lemma recorded_proof_replays config (blocks : list (option B)) m i b p c :
  built (New' config blocks) = Some m ->
  length blocks <= 2 ^ 32 ->
  blocks !! i = Some b -> Proofs m !! i = Some p ->
  (forall l r, pair_digest c l r = pair_digest (cfg m) l r) ->
  (forall b : option B, leaf_digest c b = leaf_digest (cfg m) b) ->
  exists leaf, leaf_digest c b = Some leaf
               /\ replay c (Siblings p) leaf (Path p) = Some (Root m).
Proof.
  intros Hb Hcap Hi Hp Hpd Hld.
  pose proof (built_tree_of _ _ _ _ _ _ Hb) as Ht.
  destruct (tree_of_inv _ _ _ Ht)
    as (leaves & lv & Hn & Hl & Hlv & Hroot & Hc & HL & HD & HN & HP
        & Hnodes & Hmap & Hvalid).
  rewrite <- Hc in *.
  pose proof (leaves_of_length _ _ _ Hl) as Hlen.
  pose proof (lookup_lt_Some _ _ _ Hi) as Hlt.
  assert (p = proof_of lv i) as ->.
  { destruct (decide (Mode (cfg m) = ModeTreeBuild));
      [by rewrite HP, lookup_nil in Hp|].
    rewrite HP in Hp. unfold proofs_of in Hp. rewrite list_lookup_fmap in Hp.
    rewrite lookup_seq_lt in Hp by done. by injection Hp as <-. }
  destruct (lookup_lt_is_Some_2 leaves i ltac:(lia)) as [leaf Hleaf].
  pose proof (leaves_of_lookup _ _ _ _ _ Hl Hi) as Hd.
  rewrite Hleaf in Hd. exists leaf. split; [by rewrite Hld|].
  rewrite <- (list_lookup_total_correct _ _ _ Hleaf).
  rewrite <- Hroot, <- Hlen in *.
  rewrite <- (replay_proof_of (cfg m) leaves lv i) by (done || lia).
  generalize (Path (proof_of lv i)) (leaves !!! i).
  induction (Siblings (proof_of lv i)) as [|sib sibs IH]; intros path r;
    [done|].
  simpl. rewrite !Hpd.
  destruct (decide (N.land path 1 = 1%N));
    (destruct (pair_digest _ _ _); simpl; [apply IH | done]).
Qed.

(** X8: with the proof [New] recorded for a block, and the tree's
    configuration, [Verify] returns no error and accepts exactly the
    tree's root: [true] for the root, [false] for any other byte string
    (trees of at most [2^32] leaves). *)
Theorem Verify_accepts_only_the_root config (blocks : list (option B)) m i b
    p root :
  built (New' config blocks) = Some m ->
  length blocks <= 2 ^ 32 ->
  blocks !! i = Some b -> Proofs m !! i = Some p ->
  Verify' b (Some p) root (Some (cfg m))
  = Ret (bool_decide (root = Root m)) (Some (cfg m)).
Proof.
  intros Hb Hcap Hi Hp.
  destruct (recorded_proof_replays config blocks m i b p (cfg m))
    as (leaf & Hleaf & Hreplay); try done.
  pose proof (built_tree_of _ _ _ _ _ _ Hb) as Ht.
  destruct (tree_of_inv _ _ _ Ht) as (? & ? & _ & _ & _ & _ & Hc & _).
  assert (verify_config DefaultHashFunc (cfg m) = cfg m) as Hvc.
  { rewrite Hc. apply verify_config_normalize. }
  assert (succ (Verify_on DefaultHashFunc b p root (cfg m))
          = Some (bool_decide (root = Root m), cfg m)) as Hs.
  { rewrite succ_Verify_on, Hvc, Hleaf. simpl. rewrite Hreplay. simpl.
    unfold bytes_Equal. do 2 f_equal. apply bool_decide_ext. naive_solver. }
  apply succ_Some in Hs. unfold Verify.
  destruct b as [b|]; [|done]. by rewrite Hs.
Qed.

(** X9: a tree built with a nil configuration is verified with a nil
    configuration: [Verify(block, proof, m.Root, nil)] returns [true] for
    every block and the proof recorded for it (at most [2^32] blocks). *)
Theorem default_config_round_trip (blocks : list (option B)) m i b :
  built (New' None blocks) = Some m ->
  length blocks <= 2 ^ 32 ->
  blocks !! i = Some b ->
  exists p, Proofs m !! i = Some p
            /\ Verify' b (Some p) (Root m) None = Ret true None.
Proof.
  intros Hb Hcap Hi.
  pose proof (built_tree_of _ _ _ _ _ _ Hb) as Ht.
  destruct (tree_of_inv _ _ _ Ht)
    as (leaves & lv & Hn & Hl & Hlv & Hroot & Hc & HL & HD & HN & HP & _).
  pose proof (lookup_lt_Some _ _ _ Hi) as Hlt.
  assert (Proofs m !! i = Some (proof_of lv i)) as Hp.
  { rewrite HP. simpl. unfold proofs_of. rewrite list_lookup_fmap.
    by rewrite lookup_seq_lt. }
  exists (proof_of lv i). split; [done|].
  destruct (recorded_proof_replays None blocks m i b (proof_of lv i) (cfg m))
    as (leaf & Hleaf & Hreplay); try done.
  assert (verify_config DefaultHashFunc new_Config = cfg m) as Hvc
    by (by rewrite Hc).
  assert (succ (Verify_on DefaultHashFunc b (proof_of lv i) (Root m)
                  new_Config)
          = Some (true, cfg m)) as Hs.
  { rewrite succ_Verify_on, Hvc, Hleaf. simpl. rewrite Hreplay. simpl.
    unfold bytes_Equal. by rewrite bool_decide_true. }
  apply succ_Some in Hs. unfold Verify.
  destruct b as [b|]; [|done]. by rewrite Hs.
Qed.

(** X10: [Proof] and the method [Verify] only read a tree [New] returned:
    whatever their arguments and their result, the tree is as before. *)
Theorem tree_is_read_only config (blocks : list (option B)) m e
    (b : option B) (p : option Proof) :
  New' config blocks = Returned (Some m, e) ->
  match MerkleTree_Proof b m with
  | Ret _ m' | Fail _ m' => m' = m
  | Panic => True
  end
  /\ match MerkleTree_Verify' b p m with
     | Ret _ m' | Fail _ m' => m' = m
     | Panic => True
     end.
Proof.
  intros Hnew. split.
  - assert (keeps (λ m : MerkleTree, m) m (MerkleTree_Proof b)) as Hk.
    { unfold MerkleTree_Proof, node.
      repeat first [keeps_step | apply keeps_leafFromBlock]. }
    apply (Hk m eq_refl).
  - destruct (New_returned _ _ _ _ _ _ _ Hnew) as (_ & Hc & _).
    assert (verify_config DefaultHashFunc (cfg m) = cfg m) as Hvc.
    { rewrite Hc. apply verify_config_normalize. }
    unfold MerkleTree_Verify, Verify.
    destruct b as [b|]; [|simpl; apply set_cfg_id].
    destruct p as [p|]; [|simpl; apply set_cfg_id].
    destruct (Verify_on DefaultHashFunc (Some b) p (Root m) (cfg m))
      as [ok c'|e' c'|] eqn:Hv; [| |done].
    + assert (succ (Verify_on DefaultHashFunc (Some b) p (Root m) (cfg m))
              = Some (ok, c')) as Hs by (by rewrite Hv).
      rewrite succ_Verify_on, Hvc in Hs.
      destruct (leaf_digest (cfg m) (Some b)); [|done]. simpl in Hs.
      destruct (replay _ _ _ _); [|done]. simpl in Hs.
      injection Hs as _ <-. simpl. apply set_cfg_id.
    + apply Verify_on_Fail in Hv as [-> _]. simpl. rewrite Hvc.
      apply set_cfg_id.
Qed.

End OwnProof.

(** ** The shape of a built tree *)

Lemma N_lt_pow2_of_bits (x : N) (n : nat) :
  (forall k, n <= k -> N.testbit x (N.of_nat k) = false) ->
  (x < 2 ^ N.of_nat n)%N.
Proof.
  intros Hbits. destruct (decide (x = 0%N)) as [->|Hx].
  - apply N.neq_0_lt_0, N.pow_nonzero. lia.
  - apply N.log2_lt_pow2; [lia|].
    destruct (decide (N.log2 x < N.of_nat n)%N) as [|Hge]; [done|].
    exfalso. pose proof (N.bit_log2 x Hx) as Hb.
    rewrite <- (N2Nat.id (N.log2 x)) in Hb.
    rewrite Hbits in Hb by lia. done.
Qed.

Lemma proof_of_Path_lt lv i :
  (Path (proof_of lv i) < 2 ^ N.of_nat (length lv `min` 32))%N.
Proof.
  apply N_lt_pow2_of_bits. intros k Hk. rewrite proof_of_Path_bits.
  rewrite bool_decide_false by lia. done.
Qed.

(** A level of the tree over [n] leaves: level [k] has twice as many nodes
    as there are groups of [2^(k+1)] leaves. *)
Lemma tree_levels_lengths config leaves lv :
  2 <= length leaves ->
  tree_levels config (bits_Len (length leaves - 1)) leaves = Some lv ->
  forall k L, lv !! k = Some L ->
    length L = 2 * ((length leaves + 2 ^ S k - 1) / 2 ^ S k).
Proof.
  intros Hn Hlv k L HkL.
  destruct (tree_levels_shape _ _ _ Hn Hlv) as (_ & Hshape & _).
  destruct (Hshape k L HkL) as (He & Hpos & Hcov).
  assert ((length L - 2) * 2 ^ k < length leaves) as Htight.
  { unfold tree_levels in Hlv.
    eapply (levels_tight config (length leaves) _ 0) in HkL; try done.
    - apply dup_last_even.
    - rewrite length_dup_last. lia. }
  rewrite Nat.pow_succ_r'.
  set (P := 2 ^ k) in *. set (n := length leaves) in *.
  assert (0 < P) by (apply Nat.neq_0_lt_0, Nat.pow_nonzero; lia).
  assert (exists q, length L = 2 * q) as [q Hq] by (exists (length L / 2); lia).
  rewrite Hq in *. f_equal.
  apply (Nat.div_unique _ _ _ (n + 2 * P - 1 - 2 * P * q)); nia.
Qed.

Section BuiltTree.

Context {B : Type} `{!DataBlock B}.
Context (DefaultHashFunc DefaultHashFuncParallel : TypeHashFunc).
Context (runtime_NumCPU : positive).

#[local] Abbreviation New' :=
  (New (B := B) DefaultHashFunc DefaultHashFuncParallel runtime_NumCPU).
#[local] Abbreviation normalize' :=
  (normalize DefaultHashFunc DefaultHashFuncParallel runtime_NumCPU).

(** X11: which fields of the tree each mode fills.  The proof-only mode
    leaves the nodes and the leaf index empty; the tree-only mode leaves
    the proofs empty; the modes that record proofs hold one proof per leaf
    and the modes that retain the tree hold one level per unit of depth. *)
Theorem fields_by_mode config (blocks : list (option B)) m :
  built (New' config blocks) = Some m ->
  (Mode (cfg m) = ModeProofGen \/ Mode (cfg m) = ModeTreeBuild
   \/ Mode (cfg m) = ModeProofGenAndTreeBuild)
  /\ (Mode (cfg m) = ModeProofGen -> nodes m = [] /\ leafMap m = ∅)
  /\ (Mode (cfg m) = ModeTreeBuild -> Proofs m = [])
  /\ (Mode (cfg m) <> ModeTreeBuild -> length (Proofs m) = NumLeaves m)
  /\ (Mode (cfg m) <> ModeProofGen -> length (nodes m) = Depth m).
Proof.
  intros Hb%built_tree_of.
  destruct (tree_of_inv _ _ _ Hb)
    as (leaves & lv & Hn & Hl & Hlv & Hroot & Hc & HL & HD & HN & HP
        & Hnodes & Hmap & Hvalid).
  rewrite <- Hc in *. pose proof (leaves_of_length _ _ _ Hl) as Hlen.
  split_and!; try done.
  - intros Hm. by rewrite Hnodes, Hmap, !decide_True.
  - intros Hm. by rewrite HP, decide_True.
  - intros Hm. rewrite HP, decide_False by done.
    unfold proofs_of. by rewrite length_fmap, length_seq, HN.
  - intros Hm. rewrite Hnodes, decide_False, HD by done.
    rewrite <- Hlen in *.
    by destruct (tree_levels_shape (cfg m) leaves lv ltac:(lia) Hlv) as [-> _].
Qed.

(** X12: every proof [New] records has exactly [Depth] siblings, and its
    path has no bit at or above [Depth] (nor above bit 31). *)
Theorem recorded_proof_size config (blocks : list (option B)) m i p :
  built (New' config blocks) = Some m ->
  Proofs m !! i = Some p ->
  i < NumLeaves m
  /\ length (Siblings p) = Depth m
  /\ (Path p < 2 ^ N.of_nat (Depth m `min` 32))%N.
Proof.
  intros Hb%built_tree_of Hp.
  destruct (tree_of_inv _ _ _ Hb)
    as (leaves & lv & Hn & Hl & Hlv & Hroot & Hc & HL & HD & HN & HP
        & Hnodes & Hmap & Hvalid).
  rewrite <- Hc in *. pose proof (leaves_of_length _ _ _ Hl) as Hlen.
  rewrite <- Hlen in *.
  destruct (tree_levels_shape (cfg m) leaves lv ltac:(lia) Hlv)
    as (Hlvlen & _).
  destruct (decide (Mode (cfg m) = ModeTreeBuild));
    [by rewrite HP, lookup_nil in Hp|].
  rewrite HP in Hp. unfold proofs_of in Hp. rewrite list_lookup_fmap in Hp.
  destruct (seq 0 (length leaves) !! i) as [i'|] eqn:Hi; [|done].
  apply lookup_seq in Hi as [-> Hi]. simpl in Hp. injection Hp as <-.
  split_and!.
  - by rewrite HN.
  - by rewrite proof_of_Siblings, length_imap, Hlvlen, HD.
  - rewrite HD, <- Hlvlen. apply proof_of_Path_lt.
Qed.

(** X13: the retained levels form a hash tree.  Level 0 is the leaves, every
    node of the next level up is the digest of the two nodes below it, and
    the root is the digest of the two nodes of the last level. *)
Theorem retained_levels_are_digests config (blocks : list (option B)) m :
  built (New' config blocks) = Some m ->
  Mode (cfg m) <> ModeProofGen ->
  (forall i, i < NumLeaves m -> nodes m !! 0 ≫= (.!! i) = Leaves m !! i)
  /\ (forall k L L' j,
        nodes m !! k = Some L -> nodes m !! S k = Some L' ->
        2 * j + 1 < length L ->
        exists l r d,
          L !! (2 * j) = Some l /\ L !! (2 * j + 1) = Some r
          /\ pair_digest (cfg m) l r = Some d /\ L' !! j = Some d)
  /\ (exists l r,
        last (nodes m) = Some [l; r]
        /\ pair_digest (cfg m) l r = Some (Root m)).
Proof.
  intros Hb%built_tree_of Hmode.
  destruct (tree_of_inv _ _ _ Hb)
    as (leaves & lv & Hn & Hl & Hlv & Hroot & Hc & HL & HD & HN & HP
        & Hnodes & Hmap & Hvalid).
  rewrite <- Hc in *. pose proof (leaves_of_length _ _ _ Hl) as Hlen.
  rewrite decide_False in Hnodes by done. rewrite Hnodes, HL, HN.
  rewrite <- Hlen in *.
  destruct (tree_levels_shape (cfg m) leaves lv ltac:(lia) Hlv)
    as (Hlvlen & Hshape & top & Htop & Htop2).
  split_and!.
  - intros i Hi. unfold tree_levels in Hlv.
    destruct (levels_from_cons _ _ _ _ Hlv) as (rest & -> & _). simpl.
    by apply dup_last_lookup.
  - intros k L L' j HL0 HL1 Hj. unfold tree_levels in Hlv.
    destruct (levels_from_step _ _ _ _ _ _ _ Hlv HL0 HL1) as (hs & Hhs & ->).
    pose proof (length_hash_level _ _ _ Hhs) as Hhl.
    assert (j < length hs) as Hjh by (rewrite Hhl; lia).
    assert (hs !! j = pair_at (cfg m) L j) as Hpj.
    { eapply mapM_lookup; [exact Hhs|]. apply lookup_seq. lia. }
    destruct (lookup_lt_is_Some_2 hs j Hjh) as [d Hd].
    rewrite Hd in Hpj. symmetry in Hpj. unfold pair_at in Hpj.
    destruct (L !! (2 * j)) as [l|]; [|done].
    destruct (L !! (2 * j + 1)) as [r|]; [|done]. simpl in Hpj.
    exists l, r, d. split_and!; try done.
    by rewrite dup_last_lookup.
  - destruct top as [|l [|r [|]]]; try done. exists l, r.
    split; [done|]. rewrite <- Hroot. unfold tree_root. by rewrite Htop.
Qed.

(** X14: the size of the retained levels.  Level [k] of a tree over [n]
    leaves has [2 * ceil(n / 2^(k+1))] nodes: an even number, and two at
    the last level. *)
Theorem retained_level_sizes config (blocks : list (option B)) m k L :
  built (New' config blocks) = Some m ->
  nodes m !! k = Some L ->
  k < Depth m
  /\ length L = 2 * ((NumLeaves m + 2 ^ S k - 1) / 2 ^ S k)
  /\ (k = Depth m - 1 -> length L = 2).
Proof.
  intros Hb%built_tree_of HkL.
  destruct (tree_of_inv _ _ _ Hb)
    as (leaves & lv & Hn & Hl & Hlv & Hroot & Hc & HL & HD & HN & HP
        & Hnodes & Hmap & Hvalid).
  rewrite <- Hc in *. pose proof (leaves_of_length _ _ _ Hl) as Hlen.
  destruct (decide (Mode (cfg m) = ModeProofGen));
    [by rewrite Hnodes, lookup_nil in HkL|].
  rewrite Hnodes in HkL. rewrite HN, HD. rewrite <- Hlen in *.
  destruct (tree_levels_shape (cfg m) leaves lv ltac:(lia) Hlv)
    as (Hlvlen & Hshape & top & Htop & Htop2).
  pose proof (lookup_lt_Some _ _ _ HkL) as Hk.
  split_and!.
  - lia.
  - by eapply tree_levels_lengths.
  - intros ->. rewrite last_lookup_length, Hlvlen in Htop. congruence.
Qed.

(** X15: the leaf index of a retained tree maps a digest to the last
    position of [Leaves] that holds it, and has no entry for any other
    byte string. *)
Theorem leafMap_is_last_position config (blocks : list (option B)) m x :
  built (New' config blocks) = Some m ->
  Mode (cfg m) <> ModeProofGen ->
  (forall i, leafMap m !! x = Some i
             <-> Leaves m !! i = Some x
                 /\ forall j, i < j -> Leaves m !! j <> Some x)
  /\ (leafMap m !! x = None <-> x ∉ Leaves m).
Proof.
  intros Hb%built_tree_of Hmode.
  destruct (tree_of_inv _ _ _ Hb)
    as (leaves & lv & _ & _ & _ & _ & Hc & HL & _ & _ & _ & _ & Hmap & _).
  rewrite <- Hc in *. rewrite decide_False in Hmap by done.
  rewrite Hmap, HL. split.
  - intros i. apply leaf_index_lookup.
  - split; [|apply leaf_index_None].
    intros Hnone Hin. apply list_elem_of_lookup_1 in Hin as [i Hi].
    destruct (leaf_index_is_Some _ _ _ Hi) as (idx & Hidx & _). congruence.
Qed.

End BuiltTree.

(** ** Sorted sibling pairs *)

Lemma bytes_Compare_Eq a : forall b, bytes_Compare a b = Eq -> a = b.
Proof.
  induction a as [|x a IH]; intros [|y b]; simpl; try done.
  destruct (Byte.to_N x ?= Byte.to_N y)%N eqn:Heq; try done.
  apply N.compare_eq in Heq. intros Hc. f_equal; [|by apply IH].
  assert (Some x = Some y) as [= ->]; [|done].
  by rewrite <- (Byte.of_to_N x), <- (Byte.of_to_N y), Heq.
Qed.

Lemma bytes_Compare_antisym a : forall b,
  bytes_Compare b a = CompOpp (bytes_Compare a b).
Proof.
  induction a as [|x a IH]; intros [|y b]; simpl; try done.
  rewrite (N.compare_antisym (Byte.to_N x) (Byte.to_N y)).
  destruct (Byte.to_N x ?= Byte.to_N y)%N; simpl; try done.
Qed.

Lemma concatSortHash_comm (b1 b2 : bytes) :
  concatSortHash b1 b2 = concatSortHash b2 b1.
Proof.
  unfold concatSortHash, concatHash.
  rewrite (bytes_Compare_antisym b1 b2).
  destruct (bytes_Compare b1 b2) eqn:Hc; simpl; try done.
  by rewrite (bytes_Compare_Eq _ _ Hc).
Qed.

(** X16: [concatSortHash] does not depend on the order of its arguments, and
    puts the smaller one ([bytes.Compare]) first. *)
Theorem concatSortHash_sorts (b1 b2 : bytes) :
  concatSortHash b1 b2 = concatSortHash b2 b1
  /\ (bytes_Compare b1 b2 <> Gt -> concatSortHash b1 b2 = b1 ++ b2)
  /\ (bytes_Compare b1 b2 = Gt -> concatSortHash b1 b2 = b2 ++ b1).
Proof.
  split; [apply concatSortHash_comm|].
  unfold concatSortHash, concatHash.
  destruct (bytes_Compare b1 b2) eqn:Hc; simpl; split; try done.
  intros _. by rewrite (bytes_Compare_Eq _ _ Hc).
Qed.

Lemma replay_any_path config sibs :
  (forall l r, pair_digest config l r = pair_digest config r l) ->
  forall x p1 p2, replay config sibs x p1 = replay config sibs x p2.
Proof.
  intros Hsym. induction sibs as [|sib sibs IH]; intros x p1 p2; [done|].
  simpl.
  assert (forall p, (if decide (N.land p 1 = 1%N)
                     then pair_digest config x sib
                     else pair_digest config sib x)
                    = pair_digest config x sib) as Hp.
  { intros p. case_decide; [done|]. apply Hsym. }
  rewrite !Hp. destruct (pair_digest config x sib); simpl; [apply IH|done].
Qed.

(** A path with the right bit at each of the first [D] levels. *)
Lemma path_exists D : forall pos,
  exists path : N, forall j, j < D ->
    N.testbit path (N.of_nat j) = path_bit (pos / 2 ^ j).
Proof.
  induction D as [|D IH]; intros pos.
  - exists 0%N. intros j Hj. lia.
  - destruct (IH (pos / 2)) as [path' Hpath'].
    exists (2 * path' + N.b2n (path_bit pos))%N. intros j Hj.
    destruct j as [|j].
    + rewrite Nat.pow_0_r, Nat.div_1_r. apply N.testbit_0_r.
    + rewrite Nat2N.inj_succ, N.testbit_succ_r, Hpath' by lia.
      by rewrite Nat.Div0.div_div, <- Nat.pow_succ_r'.
Qed.

Section SortedPairs.

Context {B : Type} `{!DataBlock B}.
Context (DefaultHashFunc DefaultHashFuncParallel : TypeHashFunc).
Context (runtime_NumCPU : positive).

#[local] Abbreviation New' :=
  (New (B := B) DefaultHashFunc DefaultHashFuncParallel runtime_NumCPU).
#[local] Abbreviation normalize' :=
  (normalize DefaultHashFunc DefaultHashFuncParallel runtime_NumCPU).
#[local] Abbreviation MerkleTree_Verify' :=
  (MerkleTree_Verify (B := B) DefaultHashFunc).

(** X17: in a tree built with [SortSiblingPairs], the method [Verify]
    accepts the siblings recorded for a block with any path, and for any
    number of leaves: sorting makes the path, and its 32-bit width,
    irrelevant. *)
Theorem sorted_pairs_ignore_path (c : Config) (blocks : list (option B)) m i
    b p path :
  built (New' (Some c) blocks) = Some m ->
  concatFunc c = None -> SortSiblingPairs c = true ->
  blocks !! i = Some b -> Proofs m !! i = Some p ->
  MerkleTree_Verify' b (Some (mkProof (Siblings p) path)) m = Ret true m.
Proof.
  intros Hb Hcf Hsort Hi Hp.
  pose proof (built_tree_of _ _ _ _ _ _ Hb) as Ht.
  destruct (tree_of_inv _ _ _ Ht)
    as (leaves & lv & Hn & Hl & Hlv & Hroot & Hc & HL & HD & HN & HP
        & Hnodes & Hmap & Hvalid).
  assert (concatFunc (cfg m) = Some concatSortHash) as Hcs.
  { rewrite Hc. unfold normalize. simpl.
    destruct c as [cf [h|] nr mo [] ss dl]; simpl in *; subst;
      repeat case_decide; done. }
  rewrite <- Hc in *.
  assert (forall l r, pair_digest (cfg m) l r = pair_digest (cfg m) r l)
    as Hsym.
  { intros l r. unfold pair_digest. rewrite Hcs. simpl.
    by rewrite (concatSortHash_comm l r). }
  pose proof (leaves_of_length _ _ _ Hl) as Hlen.
  pose proof (lookup_lt_Some _ _ _ Hi) as Hlt.
  assert (p = proof_of lv i) as ->.
  { destruct (decide (Mode (cfg m) = ModeTreeBuild));
      [by rewrite HP, lookup_nil in Hp|].
    rewrite HP in Hp. unfold proofs_of in Hp. rewrite list_lookup_fmap in Hp.
    rewrite lookup_seq_lt in Hp by done. by injection Hp as <-. }
  destruct (lookup_lt_is_Some_2 leaves i ltac:(lia)) as [leaf Hleaf].
  pose proof (leaves_of_lookup _ _ _ _ _ Hl Hi) as Hd.
  rewrite Hleaf in Hd. symmetry in Hd.
  rewrite <- Hlen in *.
  destruct (tree_levels_shape (cfg m) leaves lv ltac:(lia) Hlv)
    as (Hlvlen & Hshape & top & Htop & Htop2).
  destruct (path_exists (length lv) i) as [ideal Hideal].
  assert (replay (cfg m) (Siblings (proof_of lv i)) leaf path
          = Some (Root m)) as Hreplay.
  { rewrite (replay_any_path _ _ Hsym _ path ideal).
    rewrite proof_of_Siblings, <- Hroot.
    assert (leaf = dup_last leaves !!! i) as ->.
    { symmetry. apply list_lookup_total_correct.
      by rewrite dup_last_lookup. }
    eapply replay_levels; [exact Hlv | apply dup_last_even | | | done].
    - rewrite length_dup_last. lia.
    - intros top' Htop'. congruence. }
  assert (succ (Verify_on DefaultHashFunc b (mkProof (Siblings (proof_of lv i))
                  path) (Root m) (cfg m))
          = Some (true, cfg m)) as Hs.
  { rewrite succ_Verify_on.
    rewrite (eq_trans (f_equal _ Hc) (verify_config_normalize _ _ _ _)).
    rewrite <- Hc, Hd. simpl. rewrite Hreplay. simpl.
    unfold bytes_Equal. by rewrite bool_decide_true. }
  apply succ_Some in Hs. unfold MerkleTree_Verify, Verify.
  destruct b as [b|]; [|done]. rewrite Hs. simpl. by rewrite set_cfg_id.
Qed.

End SortedPairs.

(** ** Inputs that give the same tree *)

Lemma bits_Len_unique x d :
  0 < x -> 2 ^ (d - 1) <= x < 2 ^ d -> bits_Len x = d.
Proof.
  intros Hx [Hlo Hhi]. destruct (bits_Len_bounds x Hx) as [Hlo' Hhi'].
  assert (0 < d).
  { destruct d; [|lia]. rewrite Nat.pow_0_r in Hhi. lia. }
  pose proof (bits_Len_pos x Hx).
  assert (bits_Len x - 1 < d).
  { apply (Nat.pow_lt_mono_r_iff 2); lia. }
  assert (d - 1 < bits_Len x).
  { apply (Nat.pow_lt_mono_r_iff 2); lia. }
  lia.
Qed.

(** An even number and its successor have the same bit length. *)
Lemma bits_Len_even_succ q : 0 < q -> bits_Len (2 * q + 1) = bits_Len (2 * q).
Proof.
  intros Hq. apply bits_Len_unique; [lia|].
  destruct (bits_Len_bounds (2 * q) ltac:(lia)) as [Hlo Hhi].
  pose proof (bits_Len_pos (2 * q) ltac:(lia)) as Hpos.
  split; [lia|].
  destruct (bits_Len (2 * q)) as [|d]; [lia|].
  rewrite Nat.pow_succ_r' in *. lia.
Qed.

Section SameTree.

Context {B : Type} `{!DataBlock B}.
Context (DefaultHashFunc DefaultHashFuncParallel : TypeHashFunc).
Context (runtime_NumCPU : positive).

#[local] Abbreviation New' :=
  (New (B := B) DefaultHashFunc DefaultHashFuncParallel runtime_NumCPU).
#[local] Abbreviation normalize' :=
  (normalize DefaultHashFunc DefaultHashFuncParallel runtime_NumCPU).

Lemma normalize_NumRoutines_digests (c : Config) n1 n2 :
  let c1 := normalize' (Some (set_NumRoutines n1 c)) in
  let c2 := normalize' (Some (set_NumRoutines n2 c)) in
  (forall l r, pair_digest c1 l r = pair_digest c2 l r)
  /\ (forall b : option B, leaf_digest c1 b = leaf_digest c2 b)
  /\ Mode c1 = Mode c2.
Proof.
  unfold normalize, pair_digest, leaf_digest.
  destruct c as [[cf|] [h|] nr mo [] [] dl]; simpl;
    repeat case_decide; simpl; done.
Qed.

(** X18: the number of routines does not change what [New] builds: zero, a
    negative number, or more routines than there are leaves give the same
    root, proofs, leaves, levels and leaf index, or fail alike. *)
Theorem NumRoutines_is_irrelevant (c : Config) (blocks : list (option B))
    (n1 n2 : Z) :
  match built (New' (Some (set_NumRoutines n1 c)) blocks),
        built (New' (Some (set_NumRoutines n2 c)) blocks) with
  | Some m1, Some m2 =>
      Root m1 = Root m2 /\ Proofs m1 = Proofs m2 /\ Leaves m1 = Leaves m2
      /\ nodes m1 = nodes m2 /\ leafMap m1 = leafMap m2
      /\ Depth m1 = Depth m2 /\ NumLeaves m1 = NumLeaves m2
  | None, None => True
  | _, _ => False
  end.
Proof.
  rewrite !New_built.
  destruct (normalize_NumRoutines_digests c n1 n2) as (Hp & Hl & Hm).
  set (c1 := normalize' (Some (set_NumRoutines n1 c))) in *.
  set (c2 := normalize' (Some (set_NumRoutines n2 c))) in *.
  destruct (tree_of c1 blocks) as [m1|] eqn:H1.
  - destruct (tree_of_inv _ _ _ H1) as (? & ? & Hinv).
    destruct (tree_of_agree c1 c2 blocks m1) as (m2 & -> & H); try done.
    + rewrite <- Hm. apply Hinv.
    + destruct H as (? & ? & ? & ? & Hrest).
      destruct (Hrest Hm) as (? & ? & ?). done.
  - destruct (tree_of c2 blocks) as [m2|] eqn:H2; [|done].
    destruct (tree_of_inv _ _ _ H2) as (? & ? & Hinv).
    destruct (tree_of_agree c2 c1 blocks m2) as (m1 & H1' & _);
      [done | done | rewrite Hm; apply Hinv | done | congruence].
Qed.

(** X19: appending a copy of the last block to an odd number of blocks does
    not change the root (nor the depth and the retained levels): the
    duplicate takes the place of the balancing copy. *)
Theorem padded_input_same_root config (blocks : list (option B)) bl :
  3 <= length blocks -> length blocks mod 2 = 1 ->
  last blocks = Some bl ->
  match built (New' config blocks), built (New' config (blocks ++ [bl])) with
  | Some m1, Some m2 =>
      Root m1 = Root m2 /\ Depth m1 = Depth m2 /\ nodes m1 = nodes m2
  | None, None => True
  | _, _ => False
  end.
Proof.
  intros Hn Hodd Hlast. rewrite !New_built.
  set (c := normalize' config).
  assert (bits_Len (length (blocks ++ [bl]) - 1)
          = bits_Len (length blocks - 1)) as HD.
  { rewrite length_app. simpl.
    replace (length blocks + 1 - 1) with (2 * (length blocks / 2) + 1)
      by lia.
    replace (length blocks - 1) with (2 * (length blocks / 2)) by lia.
    apply bits_Len_even_succ. lia. }
  assert (leaves_of c (blocks ++ [bl])
          = ls ← leaves_of c blocks; Some (dup_last ls)) as Hleaves.
  { unfold leaves_of. rewrite mapM_snoc.
    destruct (mapM (leaf_digest c) blocks) as [ls|] eqn:Hls; simpl; [|done].
    pose proof (length_mapM _ _ _ Hls) as Hlen.
    rewrite last_lookup_length in Hlast.
    pose proof (mapM_lookup _ _ _ _ _ Hls Hlast) as Hd.
    rewrite Hlen, <- last_lookup_length in Hd.
    rewrite <- Hd. destruct (last ls) as [x|] eqn:Hx; simpl.
    - unfold dup_last. rewrite decide_False by lia. by rewrite Hx.
    - apply last_None in Hx. subst ls. simpl in Hlen. lia. }
  unfold tree_of. rewrite HD, Hleaves, !decide_False
    by (rewrite ?length_app; simpl; lia).
  destruct (leaves_of c blocks) as [ls|]; simpl; [|done].
  unfold tree_levels. rewrite (dup_last_id (dup_last ls))
    by apply dup_last_even.
  destruct (levels_from c _ (dup_last ls)) as [lv|]; simpl; [|done].
  destruct (tree_root c lv) as [root|]; simpl; [|done].
  repeat case_decide; done.
Qed.

(** X20: what a leaf is.  In a tree [New] returns, leaf [i] is the
    serialisation of block [i] itself when [DisableLeafHashing] is set, and
    its digest under the tree's [HashFunc] otherwise. *)
Theorem leaves_from_blocks config (blocks : list (option B)) m e i b :
  New' config blocks = Returned (Some m, e) ->
  blocks !! i = Some b ->
  exists b' x,
    b = Some b' /\ Serialize b' = inr x
    /\ DisableLeafHashing (cfg m)
       = DisableLeafHashing (default new_Config config)
    /\ (DisableLeafHashing (cfg m) = true -> Leaves m !! i = Some x)
    /\ (DisableLeafHashing (cfg m) = false ->
        exists h d, HashFunc (cfg m) = Some h /\ h x = inr d
                    /\ Leaves m !! i = Some d).
Proof.
  intros Hnew Hi.
  destruct (New_returned _ _ _ _ _ _ _ Hnew) as (Hn & Hc & Hl & HD & HN).
  pose proof (leaves_of_lookup _ _ _ _ _ Hl Hi) as Hd.
  pose proof (leaves_of_length _ _ _ Hl) as Hlen.
  pose proof (lookup_lt_Some _ _ _ Hi) as Hlt.
  destruct (lookup_lt_is_Some_2 (Leaves m) i ltac:(lia)) as [leaf Hleaf].
  rewrite Hleaf, <- Hc in Hd. unfold leaf_digest in Hd.
  destruct b as [b'|]; [|done]. simpl in Hd.
  destruct (Serialize b') as [msg|x] eqn:Hser; [done|].
  exists b', x. split_and!; try done.
  - rewrite Hc. apply normalize_DisableLeafHashing.
  - intros Hdl. rewrite Hdl in Hd. congruence.
  - intros Hdl. rewrite Hdl in Hd.
    destruct (HashFunc (cfg m)) as [h|]; [|done]. simpl in Hd.
    destruct (h x) as [msg|d] eqn:Hh; [done|].
    exists h, d. split_and!; try done. congruence.
Qed.

End SameTree.

(** ** The root of a tree from the roots of its halves *)

Lemma mapM_app {A C} (f : A -> option C) (l1 l2 : list A) :
  mapM f (l1 ++ l2) = ys1 ← mapM f l1; ys2 ← mapM f l2; Some (ys1 ++ ys2).
Proof.
  induction l1 as [|x l1 IH]; simpl.
  - by destruct (mapM f l2).
  - destruct (f x); simpl; [|done]. rewrite IH.
    destruct (mapM f l1); simpl; [|done]. by destruct (mapM f l2).
Qed.

Lemma mapM_fmap_seq {C} (f : nat -> option C) a n :
  mapM f (seq a n) = mapM (λ j, f (a + j)) (seq 0 n).
Proof.
  assert (seq a n = (λ j, a + j) <$> seq 0 n) as ->.
  { rewrite fmap_add_seq. f_equal. lia. }
  induction (seq 0 n) as [|x l IH]; [done|].
  cbn [fmap list_fmap mapM]. destruct (f (a + x)); simpl; [|done].
  fold (fmap (M := list) (λ j, a + j) l). by rewrite IH.
Qed.

Lemma hash_level_app config (L1 L2 : list bytes) :
  length L1 mod 2 = 0 ->
  hash_level config (L1 ++ L2)
  = hs1 ← hash_level config L1; hs2 ← hash_level config L2; Some (hs1 ++ hs2).
Proof.
  intros He. unfold hash_level.
  assert (length (L1 ++ L2) / 2 = length L1 / 2 + length L2 / 2) as ->.
  { rewrite length_app. lia. }
  rewrite seq_app, mapM_app. simpl.
  rewrite (mapM_ext_elem _ (pair_at config L1) (seq 0 (length L1 / 2)));
    cycle 1.
  { intros j Hj%elem_of_seq. unfold pair_at.
    by rewrite !lookup_app_l by lia. }
  destruct (mapM (pair_at config L1) _) as [hs1|]; simpl; [|done].
  rewrite mapM_fmap_seq.
  rewrite (mapM_ext_elem _ (pair_at config L2) (seq 0 (length L2 / 2)));
    [done|].
  intros j Hj%elem_of_seq. unfold pair_at.
  assert (length L1 = 2 * (length L1 / 2)) as Hl by lia.
  rewrite (lookup_app_r L1 L2 (2 * (length L1 / 2 + j))) by lia.
  rewrite (lookup_app_r L1 L2 (2 * (length L1 / 2 + j) + 1)) by lia.
  replace (2 * (length L1 / 2 + j) - length L1) with (2 * j) by lia.
  replace (2 * (length L1 / 2 + j) + 1 - length L1) with (2 * j + 1) by lia.
  done.
Qed.

(** The levels over two lists of [2^(j+1)] nodes each, side by side, and
    above them the level of the two roots. *)
Lemma levels_from_app config j : forall L1 L2 lv1 lv2 r1 r2,
  length L1 = 2 ^ S j -> length L2 = 2 ^ S j ->
  levels_from config j L1 = Some lv1 -> levels_from config j L2 = Some lv2 ->
  tree_root config lv1 = Some r1 -> tree_root config lv2 = Some r2 ->
  levels_from config (S j) (L1 ++ L2)
  = Some (zip_with app lv1 lv2 ++ [[r1; r2]]).
Proof.
  induction j as [|j IH]; intros L1 L2 lv1 lv2 r1 r2 H1 H2 Hl1 Hl2 Hr1 Hr2.
  - simpl in Hl1, Hl2. simplify_eq. rewrite Nat.pow_1_r in *.
    destruct L1 as [|a1 [|a2 [|]]]; try done.
    destruct L2 as [|b1 [|b2 [|]]]; try done.
    unfold tree_root in *. simpl in *.
    unfold hash_level, pair_at. simpl. rewrite Hr1. simpl. rewrite Hr2. done.
  - cbn [levels_from] in Hl1, Hl2.
    destruct (hash_level config L1) as [hs1|] eqn:Hh1; [|done].
    destruct (hash_level config L2) as [hs2|] eqn:Hh2; [|done].
    simpl in Hl1, Hl2.
    pose proof (length_hash_level _ _ _ Hh1) as Hlen1.
    pose proof (length_hash_level _ _ _ Hh2) as Hlen2.
    assert (2 ^ S (S j) = 2 * 2 ^ S j) as Hpow by apply Nat.pow_succ_r'.
    assert (2 ^ S j = 2 * 2 ^ j) as Hpow' by apply Nat.pow_succ_r'.
    assert (length hs1 = 2 ^ S j) as Hs1 by lia.
    assert (length hs2 = 2 ^ S j) as Hs2 by lia.
    rewrite dup_last_id in Hl1 by lia. rewrite dup_last_id in Hl2 by lia.
    destruct (levels_from config j hs1) as [lv1'|] eqn:Hl1'; [|done].
    destruct (levels_from config j hs2) as [lv2'|] eqn:Hl2'; [|done].
    simpl in Hl1, Hl2. simplify_eq.
    destruct (levels_from_cons _ _ _ _ Hl1') as (t1 & Ht1 & _).
    destruct (levels_from_cons _ _ _ _ Hl2') as (t2 & Ht2 & _).
    assert (tree_root config lv1' = Some r1) as Hr1'.
    { rewrite <- Hr1. unfold tree_root. by rewrite Ht1. }
    assert (tree_root config lv2' = Some r2) as Hr2'.
    { rewrite <- Hr2. unfold tree_root. by rewrite Ht2. }
    change (levels_from config (S (S j)) (L1 ++ L2))
      with (L' ← hash_level config (L1 ++ L2);
            ((L1 ++ L2) ::.) <$> levels_from config (S j) (dup_last L')).
    rewrite hash_level_app, Hh1, Hh2 by lia. cbn [mbind option_bind].
    rewrite dup_last_id by (rewrite length_app; lia).
    rewrite (IH hs1 hs2 lv1' lv2' r1 r2); done.
Qed.

Section Halves.

Context {B : Type} `{!DataBlock B}.
Context (DefaultHashFunc DefaultHashFuncParallel : TypeHashFunc).
Context (runtime_NumCPU : positive).

#[local] Abbreviation New' :=
  (New (B := B) DefaultHashFunc DefaultHashFuncParallel runtime_NumCPU).
#[local] Abbreviation normalize' :=
  (normalize DefaultHashFunc DefaultHashFuncParallel runtime_NumCPU).

(** X21: the root over two runs of [2^k] blocks ([k >= 1]) is the digest of
    the pair of the roots of the two runs, built with the same
    configuration; [New] on the whole input fails exactly when that digest
    does. *)
Theorem root_of_two_halves config (blocks1 blocks2 : list (option B)) m1 m2
    k :
  0 < k -> length blocks1 = 2 ^ k -> length blocks2 = 2 ^ k ->
  built (New' config blocks1) = Some m1 ->
  built (New' config blocks2) = Some m2 ->
  Root <$> built (New' config (blocks1 ++ blocks2))
  = pair_digest (normalize' config) (Root m1) (Root m2).
Proof.
  intros Hk H1 H2 Hb1%built_tree_of Hb2%built_tree_of. rewrite New_built.
  set (c := normalize' config) in *.
  destruct (tree_of_inv _ _ _ Hb1)
    as (ls1 & lv1 & Hn1 & Hl1 & Hlv1 & Hr1 & _ & _ & _ & _ & _ & _ & _ & Hmode).
  destruct (tree_of_inv _ _ _ Hb2)
    as (ls2 & lv2 & Hn2 & Hl2 & Hlv2 & Hr2 & _).
  pose proof (leaves_of_length _ _ _ Hl1) as Hlen1.
  pose proof (leaves_of_length _ _ _ Hl2) as Hlen2.
  destruct k as [|j]; [lia|].
  assert (2 ^ S j = 2 * 2 ^ j) as Hpow by apply Nat.pow_succ_r'.
  assert (0 < 2 ^ j) as Hpos by (apply Nat.neq_0_lt_0, Nat.pow_nonzero; lia).
  assert (bits_Len (2 ^ S j - 1) = S j) as HD.
  { apply bits_Len_unique; [lia|]. rewrite Nat.sub_succ, Nat.sub_0_r. lia. }
  assert (bits_Len (length (blocks1 ++ blocks2) - 1) = S (S j)) as HD'.
  { rewrite length_app, H1, H2. apply bits_Len_unique; [lia|].
    rewrite Nat.sub_succ, Nat.sub_0_r, (Nat.pow_succ_r' 2 (S j)). lia. }
  rewrite H1 in Hlv1. rewrite H2 in Hlv2. rewrite HD in Hlv1, Hlv2.
  unfold tree_levels in Hlv1, Hlv2.
  rewrite Nat.sub_succ, Nat.sub_0_r in Hlv1, Hlv2.
  rewrite dup_last_id in Hlv1 by lia. rewrite dup_last_id in Hlv2 by lia.
  unfold tree_of. rewrite decide_False by (rewrite length_app; lia).
  cbv zeta. rewrite HD'.
  unfold leaves_of in *. rewrite mapM_app, Hl1, Hl2. simpl.
  unfold tree_levels. rewrite Nat.sub_succ, Nat.sub_0_r.
  rewrite dup_last_id by (rewrite length_app; lia).
  rewrite (levels_from_app c j ls1 ls2 lv1 lv2 (Root m1) (Root m2))
    by (done || lia).
  simpl. unfold tree_root at 1. rewrite last_snoc. simpl.
  destruct (pair_digest c (Root m1) (Root m2)) as [root|]; simpl; [|done].
  destruct Hmode as [Hm|[Hm|Hm]]; rewrite Hm; done.
Qed.

End Halves.

(** ** The helpers of the construction *)

Section ParallelProcedures.

Context {B : Type} `{!DataBlock B}.

(** X22: [updateProofs] and [updateProofsParallel] do the same: neither
    fails, and both append to the proof of every leaf [i] the sibling of
    the node above it at level [step], setting bit [step] of the path when
    that node is a left child; the tree is otherwise unchanged.  The
    buffer holds the level, balanced, and the level covers the leaves. *)
Theorem updateProofs_parallel_or_not buf bufLen step (m : MerkleTree) :
  (1 <= NumRoutines (cfg m))%Z -> 0 < bufLen ->
  bufLen + bufLen mod 2 <= length buf ->
  length (Proofs m) <= (bufLen + bufLen mod 2) * 2 ^ step ->
  exists ps,
    updateProofs buf bufLen step m = Ret tt (set_Proofs ps m)
    /\ updateProofsParallel (B := B) buf bufLen step m
       = Ret tt (set_Proofs ps m)
    /\ length ps = length (Proofs m)
    /\ forall i p, Proofs m !! i = Some p ->
         exists p', ps !! i = Some p'
           /\ Siblings p' = Siblings p ++ [sibling buf (i / 2 ^ step)]
           /\ Path p' = if path_bit (i / 2 ^ step)
                        then add32 (Path p) (shl32 1 step) else Path p.
Proof.
  intros HNR Hpos Hlen Hcov.
  exists (imap (add_sibling step buf) (Proofs m)). split_and!.
  - by apply updateProofs_spec.
  - by apply updateProofsParallel_spec.
  - apply length_imap.
  - intros i p Hp. exists (add_sibling step buf i p).
    rewrite list_lookup_imap, Hp. split_and!; [done|..].
    + apply add_sibling_Siblings.
    + unfold add_sibling, path_bit. case_decide.
      * by rewrite bool_decide_true.
      * by rewrite bool_decide_false.
Qed.

(** X23: when it returns without error, [leafGenParallel] returns the
    leaves [leafGen] returns, for any number of routines from one up, and
    both leave the tree unchanged: the digest of every block, in order. *)
Theorem leafGen_parallel_or_not (blocks : list (option B)) (m : MerkleTree) :
  (1 <= NumRoutines (cfg m))%Z -> 0 < length blocks ->
  NumLeaves m = length blocks ->
  succ (leafGenParallel blocks m) = succ (leafGen blocks m)
  /\ forall leaves m',
       leafGen blocks m = Ret leaves m' ->
       m' = m /\ length leaves = length blocks
       /\ forall i b, blocks !! i = Some b ->
            leaves !! i = leaf_digest (cfg m) b.
Proof.
  intros HNR Hpos Hn. split.
  - by rewrite leafGenParallel_spec, leafGen_spec.
  - intros leaves m' Hrun%succ_Some. rewrite leafGen_spec in Hrun by done.
    destruct (leaves_of (cfg m) blocks) as [ls|] eqn:Hl; [|done].
    simpl in Hrun. injection Hrun as -> ->. split_and!; [done|..].
    + by eapply leaves_of_length.
    + intros i b Hi. by eapply leaves_of_lookup.
Qed.

(** X24: [computeTreeNodeParallel] fills every level above level 0 with the
    digests of the pairs of the level below, balanced, for any number of
    routines from one up (also more routines than pairs): it returns
    without error exactly when all these digests can be computed. *)
Theorem computeTreeNodeParallel_levels (m : MerkleTree) L :
  (1 <= NumRoutines (cfg m))%Z ->
  nodes m !! 0 = Some L ->
  length L mod 2 = 0 -> 0 < length L -> length (nodes m) = Depth m ->
  succ (computeTreeNodeParallel (B := B) (length L) m)
  = (λ lvs, (tt, set_nodes lvs m)) <$> levels_from (cfg m) (Depth m - 1) L.
Proof. apply computeTreeNodeParallel_spec. Qed.

End ParallelProcedures.

(** X25: [fixOdd] balances the first [prevLen] entries of a buffer.  An even
    [prevLen] returns the buffer as it is.  An odd [prevLen] within the
    buffer returns [prevLen + 1] and a buffer whose entry [prevLen] is a
    copy of entry [prevLen - 1]: written in place when the buffer has room,
    appended when it is full; no other entry changes.  An odd [prevLen]
    beyond the buffer panics. *)
Theorem fixOdd_balances {S} (buf : list bytes) (prevLen : nat) (s : S) :
  (prevLen mod 2 = 0 -> fixOdd buf prevLen s = Ret (buf, prevLen) s)
  /\ (prevLen mod 2 = 1 -> prevLen <= length buf ->
      exists buf',
        fixOdd buf prevLen s = Ret (buf', prevLen + 1) s
        /\ length buf' = length buf `max` (prevLen + 1)
        /\ buf' !! prevLen = buf !! (prevLen - 1)
        /\ forall j, j <> prevLen -> j < length buf -> buf' !! j = buf !! j)
  /\ (prevLen mod 2 = 1 -> length buf < prevLen ->
      fixOdd buf prevLen s = Panic).
Proof.
  unfold fixOdd. rewrite land1. split_and!.
  - intros Hm. by rewrite decide_True.
  - intros Hm Hle. rewrite decide_False by lia.
    destruct (lookup_lt_is_Some_2 buf (prevLen - 1)) as [x Hx]; [lia|].
    rewrite (bind_Ret _ _ _ _ _ (index_Some _ _ _ _ Hx)).
    case_decide as Hl.
    + exists (buf ++ [x]). assert (prevLen = length buf) as -> by lia.
      split_and!; [done|rewrite length_app; simpl; lia|..].
      * rewrite Hx. rewrite lookup_app_r, Nat.sub_diag by lia. done.
      * intros j _ Hj. by apply lookup_app_l.
    + replace (prevLen + 1 - 1) with prevLen by lia.
      rewrite (bind_Ret _ _ _ _ _ (store_lt buf prevLen x s ltac:(lia))).
      exists (<[prevLen := x]> buf).
      split_and!; [done|rewrite length_insert; lia|..].
      * rewrite Hx. apply list_lookup_insert_eq. lia.
      * intros j Hj _. by apply list_lookup_insert_ne.
  - intros Hm Hlt. rewrite decide_False by lia.
    unfold bind, index. by rewrite lookup_ge_None_2 by lia.
Qed.

(** * The further properties on example inputs *)

Lemma New_error_kinds_witness :
  exists om e,
    New first_byte_hash first_byte_hash 4
      (Some (example_config ModeProofGen false))
      [Some (Data [Byte.x01]); Some (Broken "no data")]
    = Returned (om, Some e)
    /\ ((e = errors_New ErrInvalidNumOfDataBlocks /\ om = None)
        \/ (e = errors_New ErrInvalidConfigMode /\ om = None)
        \/ (is_SerializeError e /\ om = None)
        \/ is_HashError e).
Proof.
  exists None, (SerializeError "no data"). split; [vm_compute; reflexivity|].
  apply (New_error_kinds first_byte_hash first_byte_hash 4
           (Some (example_config ModeProofGen false))
           [Some (Data [Byte.x01]); Some (Broken "no data")]).
  vm_compute. reflexivity.
Defined.

Lemma New_succeeds_witness :
  2 <= length example_blocks
  /\ exists m,
       New first_byte_hash first_byte_hash 4
         (Some (example_config ModeTreeBuild true)) example_blocks
       = Returned (Some m, None).
Proof.
  split; [simpl; lia|].
  apply (New_succeeds first_byte_hash first_byte_hash 4
           (Some (example_config ModeTreeBuild true)) example_blocks).
  - simpl. lia.
  - right. left. reflexivity.
  - intros b Hb. unfold example_blocks in Hb.
    repeat (apply elem_of_cons in Hb as [->|Hb];
            [do 2 eexists; split; reflexivity|]).
    by apply elem_of_nil in Hb.
  - intros h [= <-] x. eexists. reflexivity.
Defined.

Lemma New_first_bad_block_witness :
  RunInParallel (example_config ModeProofGen false) = false
  /\ (forall e,
        leafFromBlock (Some (Broken "no data"))
          (normalize first_byte_hash first_byte_hash 4
             (Some (example_config ModeProofGen false))) tt
        = Fail e tt ->
        New first_byte_hash first_byte_hash 4
          (Some (example_config ModeProofGen false))
          [Some (Data [Byte.x01]); Some (Broken "no data"); None]
        = Returned (None, Some e))
  /\ (Some (Broken "no data") = None ->
      New first_byte_hash first_byte_hash 4
        (Some (example_config ModeProofGen false))
        [Some (Data [Byte.x01]); Some (Broken "no data"); None]
      = Panicked).
Proof.
  split; [reflexivity|].
  apply (New_first_bad_block first_byte_hash first_byte_hash 4
           (Some (example_config ModeProofGen false))
           [Some (Data [Byte.x01]); Some (Broken "no data"); None] 1).
  - reflexivity.
  - simpl. lia.
  - reflexivity.
  - intros j bj Hj Hb. destruct j; [|lia].
    injection Hb as <-. eexists. vm_compute. reflexivity.
Defined.

Lemma Proof_outcomes_witness :
  exists m,
    built (New first_byte_hash first_byte_hash 4
             (Some (example_config ModeTreeBuild false)) example_blocks)
    = Some m
    /\ (Mode (cfg m) = ModeProofGen ->
        MerkleTree_Proof (Some (Data [Byte.x04])) m
        = Fail (errors_New ErrProofInvalidModeTreeNotBuilt) m)
    /\ (Mode (cfg m) <> ModeProofGen ->
        (Some (Data [Byte.x04]) = None ->
         MerkleTree_Proof (Some (Data [Byte.x04])) m = Panic)
        /\ (forall e,
              leafFromBlock (Some (Data [Byte.x04])) (cfg m) tt = Fail e tt ->
              MerkleTree_Proof (Some (Data [Byte.x04])) m = Fail e m)
        /\ (forall leaf,
              leaf_digest (cfg m) (Some (Data [Byte.x04])) = Some leaf ->
              (leaf ∉ Leaves m ->
               MerkleTree_Proof (Some (Data [Byte.x04])) m
               = Fail (errors_New ErrProofInvalidDataBlock) m)
              /\ (leaf ∈ Leaves m ->
                  exists p,
                    MerkleTree_Proof (Some (Data [Byte.x04])) m = Ret p m
                    /\ length (Siblings p) = Depth m))).
Proof.
  exists (example_tree (Some (example_config ModeTreeBuild false))
            example_blocks).
  split; [vm_compute; reflexivity|].
  apply (Proof_outcomes first_byte_hash first_byte_hash 4
           (Some (example_config ModeTreeBuild false)) example_blocks).
  vm_compute. reflexivity.
Defined.

Lemma Verify_accepts_only_the_root_witness :
  exists m p,
    built (New first_byte_hash first_byte_hash 4
             (Some (example_config ModeProofGen false)) example_blocks)
    = Some m
    /\ length example_blocks <= 2 ^ 32
    /\ Proofs m !! 1 = Some p
    /\ Verify first_byte_hash (Some (Data [Byte.x02])) (Some p) [Byte.xff]
         (Some (cfg m))
       = Ret (bool_decide ([Byte.xff] = Root m)) (Some (cfg m)).
Proof.
  exists (example_tree (Some (example_config ModeProofGen false))
            example_blocks),
         (mkProof [[Byte.x01]; [Byte.x03]] 2).
  split; [vm_compute; reflexivity|].
  assert (length example_blocks <= 2 ^ 32) as Hcap by (simpl; lia).
  split; [exact Hcap|]. split; [vm_compute; reflexivity|].
  apply (Verify_accepts_only_the_root first_byte_hash first_byte_hash 4
           (Some (example_config ModeProofGen false)) example_blocks _ 1).
  - vm_compute. reflexivity.
  - exact Hcap.
  - reflexivity.
  - vm_compute. reflexivity.
Defined.

Lemma default_config_round_trip_witness :
  exists m,
    built (New first_byte_hash first_byte_hash 4 None example_blocks) = Some m
    /\ length example_blocks <= 2 ^ 32
    /\ exists p,
         Proofs m !! 0 = Some p
         /\ Verify first_byte_hash (Some (Data [Byte.x01])) (Some p) (Root m)
              None
            = Ret true None.
Proof.
  exists (example_tree None example_blocks).
  split; [vm_compute; reflexivity|].
  assert (length example_blocks <= 2 ^ 32) as Hcap by (simpl; lia).
  split; [exact Hcap|].
  apply (default_config_round_trip first_byte_hash first_byte_hash 4
           example_blocks _ 0).
  - vm_compute. reflexivity.
  - exact Hcap.
  - reflexivity.
Defined.

Lemma tree_is_read_only_witness :
  exists m,
    New first_byte_hash first_byte_hash 4
      (Some (example_config ModeTreeBuild false)) example_blocks
    = Returned (Some m, None)
    /\ match MerkleTree_Proof (Some (Data [Byte.x02])) m with
       | Ret _ m' | Fail _ m' => m' = m
       | Panic => True
       end
    /\ match MerkleTree_Verify first_byte_hash (Some (Data [Byte.x02]))
               (Some (mkProof [] 0)) m with
       | Ret _ m' | Fail _ m' => m' = m
       | Panic => True
       end.
Proof.
  exists (example_tree (Some (example_config ModeTreeBuild false))
            example_blocks).
  split; [vm_compute; reflexivity|].
  apply (tree_is_read_only first_byte_hash first_byte_hash 4
           (Some (example_config ModeTreeBuild false)) example_blocks _ None).
  vm_compute. reflexivity.
Defined.

Lemma fields_by_mode_witness :
  exists m,
    built (New first_byte_hash first_byte_hash 4
             (Some (example_config ModeProofGen true)) example_blocks)
    = Some m
    /\ (Mode (cfg m) = ModeProofGen \/ Mode (cfg m) = ModeTreeBuild
        \/ Mode (cfg m) = ModeProofGenAndTreeBuild)
    /\ (Mode (cfg m) = ModeProofGen -> nodes m = [] /\ leafMap m = ∅)
    /\ (Mode (cfg m) = ModeTreeBuild -> Proofs m = [])
    /\ (Mode (cfg m) <> ModeTreeBuild -> length (Proofs m) = NumLeaves m)
    /\ (Mode (cfg m) <> ModeProofGen -> length (nodes m) = Depth m).
Proof.
  exists (example_tree (Some (example_config ModeProofGen true))
            example_blocks).
  split; [vm_compute; reflexivity|].
  apply (fields_by_mode first_byte_hash first_byte_hash 4
           (Some (example_config ModeProofGen true)) example_blocks).
  vm_compute. reflexivity.
Defined.

Lemma recorded_proof_size_witness :
  exists m p,
    built (New first_byte_hash first_byte_hash 4
             (Some (example_config ModeProofGen false)) example_blocks)
    = Some m
    /\ Proofs m !! 2 = Some p
    /\ 2 < NumLeaves m
    /\ length (Siblings p) = Depth m
    /\ (Path p < 2 ^ N.of_nat (Depth m `min` 32))%N.
Proof.
  exists (example_tree (Some (example_config ModeProofGen false))
            example_blocks),
         (mkProof [[Byte.x03]; [Byte.x01]] 1).
  split; [vm_compute; reflexivity|].
  split; [vm_compute; reflexivity|].
  apply (recorded_proof_size first_byte_hash first_byte_hash 4
           (Some (example_config ModeProofGen false)) example_blocks _ 2).
  - vm_compute. reflexivity.
  - vm_compute. reflexivity.
Defined.

Lemma retained_levels_are_digests_witness :
  exists m,
    built (New first_byte_hash first_byte_hash 4
             (Some (example_config ModeTreeBuild false)) example_blocks)
    = Some m
    /\ Mode (cfg m) <> ModeProofGen
    /\ (forall i, i < NumLeaves m -> nodes m !! 0 ≫= (.!! i) = Leaves m !! i)
    /\ (forall k L L' j,
          nodes m !! k = Some L -> nodes m !! S k = Some L' ->
          2 * j + 1 < length L ->
          exists l r d,
            L !! (2 * j) = Some l /\ L !! (2 * j + 1) = Some r
            /\ pair_digest (cfg m) l r = Some d /\ L' !! j = Some d)
    /\ (exists l r,
          last (nodes m) = Some [l; r]
          /\ pair_digest (cfg m) l r = Some (Root m)).
Proof.
  exists (example_tree (Some (example_config ModeTreeBuild false))
            example_blocks).
  split; [vm_compute; reflexivity|].
  assert (Mode (cfg (example_tree (Some (example_config ModeTreeBuild false))
                       example_blocks)) <> ModeProofGen) as Hmode
    by (vm_compute; discriminate).
  split; [exact Hmode|].
  apply (retained_levels_are_digests first_byte_hash first_byte_hash 4
           (Some (example_config ModeTreeBuild false)) example_blocks).
  - vm_compute. reflexivity.
  - exact Hmode.
Defined.

Lemma retained_level_sizes_witness :
  exists m L,
    built (New first_byte_hash first_byte_hash 4
             (Some (example_config ModeTreeBuild false)) example_blocks)
    = Some m
    /\ nodes m !! 1 = Some L
    /\ 1 < Depth m
    /\ length L = 2 * ((NumLeaves m + 2 ^ 2 - 1) / 2 ^ 2)
    /\ (1 = Depth m - 1 -> length L = 2).
Proof.
  exists (example_tree (Some (example_config ModeTreeBuild false))
            example_blocks),
         [[Byte.x01]; [Byte.x03]].
  split; [vm_compute; reflexivity|].
  split; [vm_compute; reflexivity|].
  apply (retained_level_sizes first_byte_hash first_byte_hash 4
           (Some (example_config ModeTreeBuild false)) example_blocks _ 1).
  - vm_compute. reflexivity.
  - vm_compute. reflexivity.
Defined.

Lemma leafMap_is_last_position_witness :
  exists m,
    built (New first_byte_hash first_byte_hash 4
             (Some (example_config ModeTreeBuild false))
             [Some (Data [Byte.x01]); Some (Data [Byte.x02]);
              Some (Data [Byte.x01])])
    = Some m
    /\ Mode (cfg m) <> ModeProofGen
    /\ (forall i, leafMap m !! [Byte.x01] = Some i
                  <-> Leaves m !! i = Some [Byte.x01]
                      /\ forall j, i < j -> Leaves m !! j <> Some [Byte.x01])
    /\ (leafMap m !! [Byte.x01] = None <-> [Byte.x01] ∉ Leaves m).
Proof.
  exists (example_tree (Some (example_config ModeTreeBuild false))
            [Some (Data [Byte.x01]); Some (Data [Byte.x02]);
             Some (Data [Byte.x01])]).
  split; [vm_compute; reflexivity|].
  assert (Mode (cfg (example_tree (Some (example_config ModeTreeBuild false))
                       [Some (Data [Byte.x01]); Some (Data [Byte.x02]);
                        Some (Data [Byte.x01])])) <> ModeProofGen) as Hmode
    by (vm_compute; discriminate).
  split; [exact Hmode|].
  apply (leafMap_is_last_position first_byte_hash first_byte_hash 4
           (Some (example_config ModeTreeBuild false))
           [Some (Data [Byte.x01]); Some (Data [Byte.x02]);
            Some (Data [Byte.x01])]).
  - vm_compute. reflexivity.
  - exact Hmode.
Defined.

Lemma sorted_pairs_ignore_path_witness :
  exists m p,
    built (New first_byte_hash first_byte_hash 4
             (Some (mkConfig None (Some first_byte_hash) 2 ModeProofGen false
                      true false))
             example_blocks)
    = Some m
    /\ Proofs m !! 0 = Some p
    /\ MerkleTree_Verify first_byte_hash (Some (Data [Byte.x01]))
         (Some (mkProof (Siblings p) 5)) m
       = Ret true m.
Proof.
  exists (example_tree
            (Some (mkConfig None (Some first_byte_hash) 2 ModeProofGen false
                     true false))
            example_blocks),
         (mkProof [[Byte.x02]; [Byte.x03]] 3).
  split; [vm_compute; reflexivity|].
  split; [vm_compute; reflexivity|].
  apply (sorted_pairs_ignore_path first_byte_hash first_byte_hash 4
           (mkConfig None (Some first_byte_hash) 2 ModeProofGen false true
              false)
           example_blocks _ 0).
  - vm_compute. reflexivity.
  - reflexivity.
  - reflexivity.
  - reflexivity.
  - vm_compute. reflexivity.
Defined.

Lemma padded_input_same_root_witness :
  3 <= length example_blocks
  /\ length example_blocks mod 2 = 1
  /\ last example_blocks = Some (Some (Data [Byte.x03]))
  /\ match built (New first_byte_hash first_byte_hash 4
                    (Some (example_config ModeTreeBuild false))
                    example_blocks),
           built (New first_byte_hash first_byte_hash 4
                    (Some (example_config ModeTreeBuild false))
                    (example_blocks ++ [Some (Data [Byte.x03])])) with
     | Some m1, Some m2 =>
         Root m1 = Root m2 /\ Depth m1 = Depth m2 /\ nodes m1 = nodes m2
     | None, None => True
     | _, _ => False
     end.
Proof.
  assert (3 <= length example_blocks) as Hlen by (simpl; lia).
  split; [exact Hlen|]. split; [reflexivity|]. split; [reflexivity|].
  apply (padded_input_same_root first_byte_hash first_byte_hash 4
           (Some (example_config ModeTreeBuild false)) example_blocks).
  - exact Hlen.
  - reflexivity.
  - reflexivity.
Defined.

Lemma leaves_from_blocks_witness :
  exists m,
    New first_byte_hash first_byte_hash 4
      (Some (example_config ModeProofGen false)) example_blocks
    = Returned (Some m, None)
    /\ exists b' x,
         Some (Data [Byte.x02]) = Some b' /\ Serialize b' = inr x
         /\ DisableLeafHashing (cfg m)
            = DisableLeafHashing
                (default new_Config (Some (example_config ModeProofGen false)))
         /\ (DisableLeafHashing (cfg m) = true -> Leaves m !! 1 = Some x)
         /\ (DisableLeafHashing (cfg m) = false ->
             exists h d, HashFunc (cfg m) = Some h /\ h x = inr d
                         /\ Leaves m !! 1 = Some d).
Proof.
  exists (example_tree (Some (example_config ModeProofGen false))
            example_blocks).
  split; [vm_compute; reflexivity|].
  apply (leaves_from_blocks first_byte_hash first_byte_hash 4
           (Some (example_config ModeProofGen false)) example_blocks _ None 1).
  - vm_compute. reflexivity.
  - reflexivity.
Defined.

Lemma root_of_two_halves_witness :
  exists m1 m2,
    built (New first_byte_hash first_byte_hash 4
             (Some (example_config ModeProofGen false))
             [Some (Data [Byte.x01]); Some (Data [Byte.x02])])
    = Some m1
    /\ built (New first_byte_hash first_byte_hash 4
                (Some (example_config ModeProofGen false))
                [Some (Data [Byte.x03]); Some (Data [Byte.x04])])
       = Some m2
    /\ Root <$> built (New first_byte_hash first_byte_hash 4
                         (Some (example_config ModeProofGen false))
                         ([Some (Data [Byte.x01]); Some (Data [Byte.x02])]
                          ++ [Some (Data [Byte.x03]); Some (Data [Byte.x04])]))
       = pair_digest
           (normalize first_byte_hash first_byte_hash 4
              (Some (example_config ModeProofGen false)))
           (Root m1) (Root m2).
Proof.
  exists (example_tree (Some (example_config ModeProofGen false))
            [Some (Data [Byte.x01]); Some (Data [Byte.x02])]),
         (example_tree (Some (example_config ModeProofGen false))
            [Some (Data [Byte.x03]); Some (Data [Byte.x04])]).
  split; [vm_compute; reflexivity|].
  split; [vm_compute; reflexivity|].
  apply (root_of_two_halves first_byte_hash first_byte_hash 4
           (Some (example_config ModeProofGen false))
           [Some (Data [Byte.x01]); Some (Data [Byte.x02])]
           [Some (Data [Byte.x03]); Some (Data [Byte.x04])] _ _ 1).
  - lia.
  - reflexivity.
  - reflexivity.
  - vm_compute. reflexivity.
  - vm_compute. reflexivity.
Defined.

Lemma updateProofs_parallel_or_not_witness :
  exists m,
    m = example_tree (Some (example_config ModeProofGen false)) example_blocks
    /\ (1 <= NumRoutines (cfg m))%Z
    /\ length (Proofs m) <= (3 + 3 mod 2) * 2 ^ 0
    /\ exists ps,
         updateProofs [[Byte.x01]; [Byte.x02]; [Byte.x03]; [Byte.x03]] 3 0 m
         = Ret tt (set_Proofs ps m)
         /\ updateProofsParallel (B := ExampleBlock)
              [[Byte.x01]; [Byte.x02]; [Byte.x03]; [Byte.x03]] 3 0 m
            = Ret tt (set_Proofs ps m)
         /\ length ps = length (Proofs m)
         /\ forall i p, Proofs m !! i = Some p ->
              exists p', ps !! i = Some p'
                /\ Siblings p'
                   = Siblings p
                     ++ [sibling [[Byte.x01]; [Byte.x02]; [Byte.x03];
                                  [Byte.x03]] (i / 2 ^ 0)]
                /\ Path p' = if path_bit (i / 2 ^ 0)
                             then add32 (Path p) (shl32 1 0) else Path p.
Proof.
  eexists. split; [reflexivity|].
  assert (1 <= NumRoutines
                 (cfg (example_tree (Some (example_config ModeProofGen false))
                         example_blocks)))%Z as HNR
    by (vm_compute; discriminate).
  assert (length (Proofs (example_tree
                            (Some (example_config ModeProofGen false))
                            example_blocks))
          <= (3 + 3 mod 2) * 2 ^ 0) as Hcov by (vm_compute; lia).
  split; [exact HNR|]. split; [exact Hcov|].
  apply (updateProofs_parallel_or_not (B := ExampleBlock)
           [[Byte.x01]; [Byte.x02]; [Byte.x03]; [Byte.x03]] 3 0).
  - exact HNR.
  - lia.
  - vm_compute. lia.
  - exact Hcov.
Defined.

Lemma leafGen_parallel_or_not_witness :
  exists m,
    m = example_tree (Some (example_config ModeProofGen true)) example_blocks
    /\ (1 <= NumRoutines (cfg m))%Z
    /\ NumLeaves m = length example_blocks
    /\ succ (leafGenParallel example_blocks m)
       = succ (leafGen example_blocks m)
    /\ forall leaves m',
         leafGen example_blocks m = Ret leaves m' ->
         m' = m /\ length leaves = length example_blocks
         /\ forall i b, example_blocks !! i = Some b ->
              leaves !! i = leaf_digest (cfg m) b.
Proof.
  eexists. split; [reflexivity|].
  assert (1 <= NumRoutines
                 (cfg (example_tree (Some (example_config ModeProofGen true))
                         example_blocks)))%Z as HNR
    by (vm_compute; discriminate).
  split; [exact HNR|]. split; [vm_compute; reflexivity|].
  apply (leafGen_parallel_or_not example_blocks).
  - exact HNR.
  - simpl. lia.
  - vm_compute. reflexivity.
Defined.

Lemma computeTreeNodeParallel_levels_witness :
  exists m L,
    m = example_tree (Some (example_config ModeTreeBuild true)) example_blocks
    /\ (1 <= NumRoutines (cfg m))%Z
    /\ nodes m !! 0 = Some L
    /\ length L mod 2 = 0
    /\ length (nodes m) = Depth m
    /\ succ (computeTreeNodeParallel (B := ExampleBlock) (length L) m)
       = (λ lvs, (tt, set_nodes lvs m))
         <$> levels_from (cfg m) (Depth m - 1) L.
Proof.
  exists (example_tree (Some (example_config ModeTreeBuild true))
            example_blocks),
         [[Byte.x01]; [Byte.x02]; [Byte.x03]; [Byte.x03]].
  split; [reflexivity|].
  assert (1 <= NumRoutines
                 (cfg (example_tree (Some (example_config ModeTreeBuild true))
                         example_blocks)))%Z as HNR
    by (vm_compute; discriminate).
  split; [exact HNR|]. split; [vm_compute; reflexivity|].
  split; [reflexivity|]. split; [vm_compute; reflexivity|].
  apply (computeTreeNodeParallel_levels (B := ExampleBlock)).
  - exact HNR.
  - vm_compute. reflexivity.
  - reflexivity.
  - simpl. lia.
  - vm_compute. reflexivity.
Defined.
